(** * Scrape orchestration core: pool, scheduler, router heuristic, throttle

    A shallow embedding of [scraper.ts] and [browser-pool.ts], of the front
    ends [server.ts] and [index.ts], of [logger.ts] and of the word count and
    code-line helpers of [extractor.ts].  Asynchronous
    code is modelled by explicit state passing: every [await] splits a
    function into the pieces that run atomically on the single JavaScript
    thread, and the environment (network, browser engine, clock, timers)
    chooses the outcome of each awaited operation. *)

From Stdlib Require Import ZArith NArith List Ascii String Lia Bool Permutation.
From stdpp Require Import base option list gmap strings.
Import ListNotations.

Local Open Scope string_scope.
Local Open Scope list_scope.
Local Open Scope Z_scope.

(* ===================================================================== *)
(** ** JavaScript strings and the regular expressions of [looksLikeSPA] *)
(* ===================================================================== *)

Module JsText.

(** A JavaScript string is a sequence of UTF-16 code units; [length] counts
    code units, and regular expressions without the [u] flag work on them. *)
Definition jsstring := list N.

Fixpoint js (s : string) : jsstring :=
  match s with
  | EmptyString => []
  | String a s' => N_of_ascii a :: js s'
  end.

(** [\s] and [String.prototype.trim]: WhiteSpace and LineTerminator. *)
Definition is_space (c : N) : bool :=
  ((9 <=? c) && (c <=? 13) || (c =? 32) || (c =? 160) || (c =? 5760)
   || (8192 <=? c) && (c <=? 8202) || (c =? 8232) || (c =? 8233)
   || (c =? 8239) || (c =? 8287) || (c =? 12288) || (c =? 65279))%N.

Definition is_upper (c : N) : bool := ((65 <=? c) && (c <=? 90))%N.
Definition is_lower (c : N) : bool := ((97 <=? c) && (c <=? 122))%N.

(** Canonicalisation under the [i] flag (no [u] flag): an ASCII letter
    matches its two cases and nothing else; a code unit above 127 never
    canonicalises to an ASCII one. *)
Definition eq_ci (p c : N) : bool :=
  ((c =? p) || (is_lower p && (c =? p - 32)) || (is_upper p && (c =? p + 32)))%N.

Inductive regex : Type :=
| REmpty
| RChar (cls : N -> bool)
| RSeq (r1 r2 : regex)
| RAlt (r1 r2 : regex)
| RStar (greedy : bool) (r : regex)
| RGroup (r : regex).

Definition RPlus (r : regex) : regex := RSeq r (RStar true r).

Fixpoint lit (ci : bool) (s : string) : regex :=
  match s with
  | EmptyString => REmpty
  | String a s' =>
      let p := N_of_ascii a in
      RSeq (RChar (fun c => if ci then eq_ci p c else (c =? p)%N)) (lit ci s')
  end.

Definition any : N -> bool := fun _ => true.
Definition not_gt : N -> bool := fun c => negb (c =? 62)%N.
Definition quote : N -> bool := fun c => ((c =? 34) || (c =? 39))%N.

(** Backtracking matcher in continuation style: [k] receives the rest of
    the input and the capture group.  A star iteration that consumes
    nothing is rejected, as in ECMAScript. *)
Fixpoint rmatch {T : Type} (r : regex) (s : jsstring) (cap : option jsstring)
    (k : jsstring -> option jsstring -> option T) {struct r} : option T :=
  match r with
  | REmpty => k s cap
  | RChar cls =>
      match s with
      | c :: s' => if cls c then k s' cap else None
      | [] => None
      end
  | RSeq r1 r2 => rmatch r1 s cap (fun s1 cap1 => rmatch r2 s1 cap1 k)
  | RAlt r1 r2 =>
      match rmatch r1 s cap k with
      | Some x => Some x
      | None => rmatch r2 s cap k
      end
  | RGroup r1 =>
      rmatch r1 s cap
        (fun s1 _ => k s1 (Some (take (length s - length s1)%nat s)))
  | RStar g r1 =>
      (fix loop (fuel : nat) (s : jsstring) (cap : option jsstring)
           {struct fuel} : option T :=
         match fuel with
         | O => k s cap
         | S fuel' =>
             if g then
               match rmatch r1 s cap
                       (fun s1 cap1 =>
                          if (length s1 <? length s)%nat
                          then loop fuel' s1 cap1 else None) with
               | Some x => Some x
               | None => k s cap
               end
             else
               match k s cap with
               | Some x => Some x
               | None =>
                   rmatch r1 s cap
                     (fun s1 cap1 =>
                        if (length s1 <? length s)%nat
                        then loop fuel' s1 cap1 else None)
               end
         end) (length s) s cap
  end.

(** [re.test(s)]: a match at some start position. *)
Fixpoint test (r : regex) (s : jsstring) : bool :=
  match rmatch r s None (fun _ _ => Some tt) with
  | Some _ => true
  | None =>
      match s with
      | [] => false
      | _ :: s' => test r s'
      end
  end.

(** [s.match(re)] without [g]: the capture group of the leftmost match. *)
Fixpoint exec (r : regex) (s : jsstring) : option (option jsstring) :=
  match rmatch r s None (fun _ cap => Some cap) with
  | Some cap => Some cap
  | None =>
      match s with
      | [] => None
      | _ :: s' => exec r s'
      end
  end.

(** [s.replace(re, empty)] with [g]: every leftmost match is removed and the
    scan continues after it; [skip] counts code units still inside the
    match being removed. *)
Fixpoint erase (r : regex) (skip : nat) (s : jsstring) : jsstring :=
  match s with
  | [] => []
  | c :: s' =>
      match skip with
      | S n => erase r n s'
      | O =>
          match rmatch r s None
                  (fun rest _ => Some (length s - length rest)%nat) with
          | Some (S n) => erase r n s'
          | _ => c :: erase r 0 s'
          end
      end
  end.

Fixpoint drop_space (s : jsstring) : jsstring :=
  match s with
  | c :: s' => if is_space c then drop_space s' else s
  | [] => []
  end.

Definition trim (s : jsstring) : jsstring :=
  rev (drop_space (rev (drop_space s))).

(** [/<div\s+id=["'](?:root|app|__next|__nuxt)["'][^>]*>\s*<\/div>/i] *)
Definition re_empty_root : regex :=
  RSeq (lit true "<div")
  (RSeq (RPlus (RChar is_space))
  (RSeq (lit true "id=")
  (RSeq (RChar quote)
  (RSeq (RAlt (lit true "root")
        (RAlt (lit true "app")
        (RAlt (lit true "__next") (lit true "__nuxt"))))
  (RSeq (RChar quote)
  (RSeq (RStar true (RChar not_gt))
  (RSeq (lit true ">")
  (RSeq (RStar true (RChar is_space))
        (lit true "</div>"))))))))).

(** [/<body[^>]*>([\s\S]*?)<\/body>/i] *)
Definition re_body : regex :=
  RSeq (lit true "<body")
  (RSeq (RStar true (RChar not_gt))
  (RSeq (lit true ">")
  (RSeq (RGroup (RStar false (RChar any)))
        (lit true "</body>")))).

(** [/<script[\s\S]*?<\/script>/gi] *)
Definition re_script : regex :=
  RSeq (lit true "<script")
  (RSeq (RStar false (RChar any)) (lit true "</script>")).

(** [/<style[\s\S]*?<\/style>/gi] *)
Definition re_style : regex :=
  RSeq (lit true "<style")
  (RSeq (RStar false (RChar any)) (lit true "</style>")).

(** [/<[^>]+>/g] *)
Definition re_tag : regex :=
  RSeq (lit false "<") (RSeq (RPlus (RChar not_gt)) (lit false ">")).

(** The three [replace] calls and the [trim] of [looksLikeSPA]. *)
Definition strip_markup (s : jsstring) : jsstring :=
  trim (erase re_tag 0 (erase re_style 0 (erase re_script 0 s))).

(** [html.match(/<body...>/i)] and its group 1. *)
Definition bodyMatch (html : jsstring) : option jsstring :=
  match exec re_body html with
  | Some (Some inner) => Some inner
  | Some None => Some []
  | None => None
  end.

Definition looksLikeSPA (html : jsstring) : bool :=
  if test re_empty_root html then true
  else
    match bodyMatch html with
    | Some inner =>
        let bodyContent := strip_markup inner in
        if (Z.of_nat (length bodyContent) <? 200)%Z then true else false
    | None => false
    end.

End JsText.

Import JsText.

(* ===================================================================== *)
(** ** Configuration, jobs and results ([types.ts]) *)
(* ===================================================================== *)

Module Types.

Record ScrapeConfig := mkConfig {
  concurrency : Z;
  timeout : Z;
  waitForNetworkIdle : bool;
  blockResources : bool;
  blockedResourceTypes : list string;
  extractMainContent : bool;
  includeMetadata : bool;
  headers : list (string * string);
  userAgent : string;
  viewport : Z * Z;
  waitAfterLoad : Z;
  preExtractScript : option string;
  rotateFingerprints : bool;
  skipStaticDetection : bool;
  contextMaxUses : Z;
  perDomainDelayMs : Z;
  documentDelimiters : bool
}.

(** [Partial<ScrapeConfig>]: a field is [Some v] when the key is present. *)
Record PartialConfig := mkPartial {
  o_concurrency : option Z;
  o_timeout : option Z;
  o_waitForNetworkIdle : option bool;
  o_blockResources : option bool;
  o_blockedResourceTypes : option (list string);
  o_extractMainContent : option bool;
  o_includeMetadata : option bool;
  o_headers : option (list (string * string));
  o_userAgent : option string;
  o_viewport : option (Z * Z);
  o_waitAfterLoad : option Z;
  o_preExtractScript : option string;
  o_rotateFingerprints : option bool;
  o_skipStaticDetection : option bool;
  o_contextMaxUses : option Z;
  o_perDomainDelayMs : option Z;
  o_documentDelimiters : option bool
}.

Definition no_override : PartialConfig :=
  mkPartial None None None None None None None None None None None None None
    None None None None.

Definition pick {A : Type} (base : A) (o : option A) : A :=
  match o with Some v => v | None => base end.

(** [{ ...base, ...over }] *)
Definition spread (base : ScrapeConfig) (over : option PartialConfig)
  : ScrapeConfig :=
  match over with
  | None => base
  | Some p =>
      {| concurrency := pick (concurrency base) (o_concurrency p);
         timeout := pick (timeout base) (o_timeout p);
         waitForNetworkIdle :=
           pick (waitForNetworkIdle base) (o_waitForNetworkIdle p);
         blockResources := pick (blockResources base) (o_blockResources p);
         blockedResourceTypes :=
           pick (blockedResourceTypes base) (o_blockedResourceTypes p);
         extractMainContent :=
           pick (extractMainContent base) (o_extractMainContent p);
         includeMetadata := pick (includeMetadata base) (o_includeMetadata p);
         headers := pick (headers base) (o_headers p);
         userAgent := pick (userAgent base) (o_userAgent p);
         viewport := pick (viewport base) (o_viewport p);
         waitAfterLoad := pick (waitAfterLoad base) (o_waitAfterLoad p);
         preExtractScript :=
           match o_preExtractScript p with
           | Some s => Some s
           | None => preExtractScript base
           end;
         rotateFingerprints :=
           pick (rotateFingerprints base) (o_rotateFingerprints p);
         skipStaticDetection :=
           pick (skipStaticDetection base) (o_skipStaticDetection p);
         contextMaxUses := pick (contextMaxUses base) (o_contextMaxUses p);
         perDomainDelayMs :=
           pick (perDomainDelayMs base) (o_perDomainDelayMs p);
         documentDelimiters :=
           pick (documentDelimiters base) (o_documentDelimiters p) |}
  end.

Definition DEFAULT_CONFIG : ScrapeConfig :=
  {| concurrency := 5;
     timeout := 30000;
     waitForNetworkIdle := true;
     blockResources := true;
     blockedResourceTypes := ["image"; "stylesheet"; "font"; "media"];
     extractMainContent := true;
     includeMetadata := true;
     headers := [];
     userAgent := "Mozilla/5.0 (Macintosh; Intel Mac OS X 10_15_7) AppleWebKit/537.36 (KHTML, like Gecko) Chrome/131.0.0.0 Safari/537.36";
     viewport := (1280, 800);
     waitAfterLoad := 0;
     preExtractScript := None;
     rotateFingerprints := true;
     skipStaticDetection := false;
     contextMaxUses := 50;
     perDomainDelayMs := 1000;
     documentDelimiters := false |}.

Record ScrapeJob := mkJob {
  job_url : string;
  job_id : string;
  job_priority : option Z;
  job_config : option PartialConfig
}.

Record PageMetadata := mkMeta {
  title : string;
  description : string;
  meta_url : string;
  domain : string;
  language : option string;
  author : option string;
  publishedDate : option string;
  wordCount : Z
}.

Record Timing := mkTiming {
  total : Z;
  navigation : Z;
  extraction : Z;
  conversion : Z
}.

Record ScrapeResult := mkResult {
  res_id : string;
  res_url : string;
  markdown : string;
  metadata : PageMetadata;
  timing : Timing;
  error : option string
}.

End Types.

Import Types.

(* ===================================================================== *)
(** ** Per-domain throttle ([Scraper.throttleDomain]) *)
(* ===================================================================== *)

Module Throttle.

(** What [throttleDomain] does up to its only suspension point. *)
Inductive entered :=
| Skip                               (* returned without touching the table *)
| Record_now (host : string)         (* no wait: goes on to [set] *)
| Sleep (host : string) (ms : Z).    (* [await] a timer of [ms] *)

Section WithUrlParser.

(** [new URL(url).hostname]; [None] when the constructor throws. *)
Variable hostname : string -> option string.

Definition throttleDomain_enter (config : ScrapeConfig)
    (domainLastRequest : gmap string Z) (url : string) (now : Z) : entered :=
  if perDomainDelayMs config <=? 0 then Skip
  else
    match hostname url with
    | None => Skip
    | Some h =>
        match domainLastRequest !! h with
        | Some last =>
            let elapsed := now - last in
            if elapsed <? perDomainDelayMs config
            then Sleep h (perDomainDelayMs config - elapsed)
            else Record_now h
        | None => Record_now h
        end
    end.

(** The tail of [throttleDomain]: [set(hostname, Date.now())], then the
    pruning pass once the table holds more than 100 hosts. *)
Definition throttleDomain_record (domainLastRequest : gmap string Z)
    (h : string) (t_set t_cutoff : Z) : gmap string Z :=
  let tbl := <[h := t_set]> domainLastRequest in
  if 100 <? Z.of_nat (size tbl)
  then filter (fun kv : string * Z => ~ (kv.2 < t_cutoff - 60000)) tbl
  else tbl.

(** Several jobs inside [throttleDomain] at once.  An event is one atomic
    run of a caller between two suspension points, stamped with the clock
    reading it sees. *)
Inductive event :=
| Call (caller : nat) (url : string) (now : Z)
| Wake (caller : nat) (now : Z).

Record sys := mkSys {
  table : gmap string Z;
  sleeping : gmap nat (string * Z);      (* caller -> host, timer due time *)
  clock : Z;
  dispatched : list (nat * string * Z)   (* caller, host, recorded timestamp *)
}.

Definition start (tbl : gmap string Z) (t0 : Z) : sys :=
  mkSys tbl ∅ t0 [].

Definition step (config : ScrapeConfig) (e : event) (s : sys) : option sys :=
  match e with
  | Call c url now =>
      if now <? clock s then None
      else
        match sleeping s !! c with
        | Some _ => None
        | None =>
            match throttleDomain_enter config (table s) url now with
            | Skip => Some (mkSys (table s) (sleeping s) now (dispatched s))
            | Record_now h =>
                Some (mkSys (throttleDomain_record (table s) h now now)
                        (sleeping s) now (dispatched s ++ [(c, h, now)]))
            | Sleep h ms =>
                Some (mkSys (table s) (<[c := (h, now + ms)]> (sleeping s))
                        now (dispatched s))
            end
        end
  | Wake c now =>
      if now <? clock s then None
      else
        match sleeping s !! c with
        | Some (h, due) =>
            if now <? due then None
            else
              Some (mkSys (throttleDomain_record (table s) h now now)
                      (delete c (sleeping s)) now
                      (dispatched s ++ [(c, h, now)]))
        | None => None
        end
  end.

Fixpoint run (config : ScrapeConfig) (es : list event) (s : sys)
  : option sys :=
  match es with
  | [] => Some s
  | e :: es' =>
      match step config e s with
      | Some s' => run config es' s'
      | None => None
      end
  end.

End WithUrlParser.

End Throttle.

(* ===================================================================== *)
(** ** The browser-context pool ([browser-pool.ts]) *)
(* ===================================================================== *)

Module Pool.

(** A [BrowserPoolContext] object.  [context] names the Playwright
    [BrowserContext] by identity: [browser.newContext()] returns a new
    object on every call. *)
Record BrowserPoolContext := mkEntry {
  context : nat;
  busy : bool;
  createdAt : Z;
  useCount : Z;
  id : nat
}.

(** The pool's fields.  Entries are JavaScript objects shared by the
    [contexts] map, the [available] array and the locals of running calls, so
    they live in a store [objs] and are passed around by reference.
    [contexts] is a [Map] in insertion order; a waiter is the resolve
    callback of a suspended [acquire], named by that call. *)
Record BrowserPool := mkPool {
  objs : gmap nat BrowserPoolContext;
  contexts : list (nat * nat);
  available : list nat;
  waiters : list nat;
  nextContextId : nat;
  nextRef : nat;
  nextHandle : nat
}.

Definition empty_pool : BrowserPool := mkPool ∅ [] [] [] 0 0 0.

Fixpoint map_get (m : list (nat * nat)) (k : nat) : option nat :=
  match m with
  | [] => None
  | (k', v) :: m' => if Nat.eqb k' k then Some v else map_get m' k
  end.

Fixpoint map_set (m : list (nat * nat)) (k v : nat) : list (nat * nat) :=
  match m with
  | [] => [(k, v)]
  | (k', v') :: m' =>
      if Nat.eqb k' k then (k, v) :: m' else (k', v') :: map_set m' k v
  end.

Definition with_objs (p : BrowserPool) (o : gmap nat BrowserPoolContext) :=
  mkPool o (contexts p) (available p) (waiters p)
    (nextContextId p) (nextRef p) (nextHandle p).

Definition with_contexts (p : BrowserPool) (c : list (nat * nat)) :=
  mkPool (objs p) c (available p) (waiters p)
    (nextContextId p) (nextRef p) (nextHandle p).

Definition with_available (p : BrowserPool) (a : list nat) :=
  mkPool (objs p) (contexts p) a (waiters p)
    (nextContextId p) (nextRef p) (nextHandle p).

Definition with_waiters (p : BrowserPool) (w : list nat) :=
  mkPool (objs p) (contexts p) (available p) w
    (nextContextId p) (nextRef p) (nextHandle p).

(** [createPoolContext] once [browser.newContext] has returned: a new
    handle, [id = nextContextId++], a new entry object. *)
Definition createPoolContext (now : Z) (p : BrowserPool)
  : nat * BrowserPool :=
  let e := mkEntry (nextHandle p) false now 0 (nextContextId p) in
  (nextRef p,
   mkPool (<[nextRef p := e]> (objs p)) (contexts p) (available p)
     (waiters p) (S (nextContextId p)) (S (nextRef p)) (S (nextHandle p))).

(** The body of the loop of [initialize]. *)
Definition initialize_one (now : Z) (p : BrowserPool) : BrowserPool :=
  let '(r, p1) := createPoolContext now p in
  match objs p1 !! r with
  | Some e =>
      with_available (with_contexts p1 (map_set (contexts p1) (id e) r))
        (available p1 ++ [r])
  | None => p1
  end.

Fixpoint initialize_loop (n : nat) (now : Z) (p : BrowserPool)
  : BrowserPool :=
  match n with
  | O => p
  | S n' => initialize_loop n' now (initialize_one now p)
  end.

Definition initialize (poolSize : Z) (now : Z) : BrowserPool :=
  initialize_loop (Z.to_nat poolSize) now empty_pool.

(** [this.available.pop()] *)
Definition pop_available (p : BrowserPool) : option nat * BrowserPool :=
  match rev (available p) with
  | [] => (None, p)
  | r :: rest => (Some r, with_available p (rev rest))
  end.

(** [poolCtx.useCount++; poolCtx.busy = true] *)
Definition mark_acquired (r : nat) (p : BrowserPool) : BrowserPool :=
  with_objs p
    (alter (fun e => mkEntry (context e) true (createdAt e)
                       (useCount e + 1) (id e)) r (objs p)).

(** [poolCtx.busy = false] *)
Definition mark_idle (r : nat) (p : BrowserPool) : BrowserPool :=
  with_objs p
    (alter (fun e => mkEntry (context e) false (createdAt e)
                       (useCount e) (id e)) r (objs p)).

(** The search loop of [release]: the first entry of [contexts.values()]
    whose [context] is the released handle. *)
Fixpoint find_context (o : gmap nat BrowserPoolContext)
    (m : list (nat * nat)) (ctx : nat) : option nat :=
  match m with
  | [] => None
  | (_, r) :: m' =>
      match o !! r with
      | Some e => if Nat.eqb (context e) ctx then Some r
                  else find_context o m' ctx
      | None => find_context o m' ctx
      end
  end.

(** [recycleContext(oldCtx)] once the replacement has been created:
    [fresh.id = oldCtx.id; this.contexts.set(oldCtx.id, fresh)].  The
    awaited [close()] has its failure swallowed and touches no field; the
    counter bump inside [createPoolContext] and the [set] here are one
    step, as nothing else reads [nextContextId] in between. *)
Definition recycleContext (old : nat) (now : Z) (p : BrowserPool)
  : BrowserPool :=
  match objs p !! old with
  | None => p
  | Some oldCtx =>
      let '(r, p1) := createPoolContext now p in
      let p2 :=
        with_objs p1
          (alter (fun e => mkEntry (context e) (busy e) (createdAt e)
                             (useCount e) (id oldCtx)) r (objs p1)) in
      with_contexts p2 (map_set (contexts p2) (id oldCtx) r)
  end.

Definition needsRecycle (contextMaxUses : Z) (e : BrowserPoolContext)
  : bool :=
  (0 <? contextMaxUses) && (contextMaxUses <=? useCount e).

(** What a call in flight is doing. *)
Inductive task :=
| Probing (r : nat)        (* acquire: popped [r], awaiting the health probe *)
| AcqRecycling (r : nat)   (* acquire: probe failed, recycleContext in flight *)
| AcqRecycled (r : nat)    (* acquire: recycleContext returned, not resumed *)
| Waiting                  (* acquire: its resolver is queued in [waiters] *)
| Holding (ctx : nat)      (* acquire returned [ctx], not yet released *)
| RelRecycling (r : nat)   (* release: recycleContext in flight *)
| RelRecycled (r : nat).   (* release: the [then] callback is pending *)

Record sys := mkSys {
  pool : BrowserPool;
  tasks : gmap nat task
}.

(** One atomic run between suspension points. *)
Inductive event :=
| Acquire (t : nat)            (* a call, named [t], enters [acquire] *)
| ProbeOk (t : nat)            (* its health probe returned *)
| ProbeFail (t : nat)          (* its health probe threw *)
| Created (t : nat) (now : Z)  (* the replacement context was created *)
| CreateFailed (t : nat)       (* creating the replacement threw *)
| Continue (t : nat)           (* the code after [recycleContext] resumes *)
| Release (t : nat).           (* the holder [t] calls [release] *)

(** A waiter callback applied to entry [r]:
    [poolCtx.useCount++; poolCtx.busy = true; resolve(poolCtx.context)]. *)
Definition hand_over (w r : nat) (p : BrowserPool) (ts : gmap nat task)
  : option sys :=
  match objs p !! r with
  | Some e => Some (mkSys (mark_acquired r p) (<[w := Holding (context e)]> ts))
  | None => None
  end.

(** The tail shared by [release] and its [then] callback:
    [waiters.shift()], then the waiter or [available.push]. *)
Definition give_back (r : nat) (p : BrowserPool) (ts : gmap nat task)
  : option sys :=
  match waiters p with
  | w :: ws => hand_over w r (with_waiters p ws) ts
  | [] => Some (mkSys (with_available p (available p ++ [r])) ts)
  end.

(** [acquire()] up to its first suspension point: the health probe of
    the popped entry, or the promise that waits for a [release]. *)
Definition acquire (t : nat) (p : BrowserPool) (ts : gmap nat task) : sys :=
  match pop_available p with
  | (Some r, p') => mkSys p' (<[t := Probing r]> ts)
  | (None, _) =>
      mkSys (with_waiters p (waiters p ++ [t])) (<[t := Waiting]> ts)
  end.

(** [acquire()] after [await this.recycleContext(poolCtx)]: it takes the
    entry now stored under [poolCtx.id], and falls through to [poolCtx]
    itself when there is none. *)
Definition acquire_resume (t r : nat) (p : BrowserPool)
    (ts : gmap nat task) : option sys :=
  match objs p !! r with
  | Some poolCtx =>
      match map_get (contexts p) (id poolCtx) with
      | Some fresh => hand_over t fresh p ts
      | None => hand_over t r p ts
      end
  | None => None
  end.

(** [release(ctx)] by the call [t] that holds [ctx]. *)
Definition release (contextMaxUses : Z) (t ctx : nat) (p : BrowserPool)
    (ts : gmap nat task) : option sys :=
  match find_context (objs p) (contexts p) ctx with
  | None => Some (mkSys p (delete t ts))
  | Some r =>
      let p1 := mark_idle r p in
      match objs p1 !! r with
      | Some poolCtx =>
          if needsRecycle contextMaxUses poolCtx
          then Some (mkSys p1 (<[t := RelRecycling r]> ts))
          else give_back r p1 (delete t ts)
      | None => None
      end
  end.

(** The [then] callback of [release], run after [recycleContext]. *)
Definition release_then (t r : nat) (p : BrowserPool) (ts : gmap nat task)
  : option sys :=
  match objs p !! r with
  | Some poolCtx =>
      match map_get (contexts p) (id poolCtx) with
      | Some fresh => give_back fresh p (delete t ts)
      | None => Some (mkSys p (delete t ts))
      end
  | None => None
  end.

(** One event.  An event that cannot happen in the state gives [None]:
    a call name is used by one call at a time, and only the call that
    holds a context releases it. *)
Definition step (contextMaxUses : Z) (ev : event) (s : sys) : option sys :=
  let p := pool s in
  let ts := tasks s in
  match ev with
  | Acquire t =>
      match ts !! t with
      | Some _ => None
      | None => Some (acquire t p ts)
      end
  | ProbeOk t =>
      match ts !! t with
      | Some (Probing r) => hand_over t r p ts
      | _ => None
      end
  | ProbeFail t =>
      match ts !! t with
      | Some (Probing r) => Some (mkSys p (<[t := AcqRecycling r]> ts))
      | _ => None
      end
  | Created t now =>
      match ts !! t with
      | Some (AcqRecycling r) =>
          Some (mkSys (recycleContext r now p) (<[t := AcqRecycled r]> ts))
      | Some (RelRecycling r) =>
          Some (mkSys (recycleContext r now p) (<[t := RelRecycled r]> ts))
      | _ => None
      end
  | CreateFailed t =>
      match ts !! t with
      | Some (AcqRecycling _) | Some (RelRecycling _) =>
          Some (mkSys p (delete t ts))
      | _ => None
      end
  | Continue t =>
      match ts !! t with
      | Some (AcqRecycled r) => acquire_resume t r p ts
      | Some (RelRecycled r) => release_then t r p ts
      | _ => None
      end
  | Release t =>
      match ts !! t with
      | Some (Holding ctx) => release contextMaxUses t ctx p ts
      | _ => None
      end
  end.

Fixpoint run (contextMaxUses : Z) (evs : list event) (s : sys)
  : option sys :=
  match evs with
  | [] => Some s
  | ev :: evs' =>
      match step contextMaxUses ev s with
      | Some s' => run contextMaxUses evs' s'
      | None => None
      end
  end.

Definition boot (poolSize : Z) (now : Z) : sys :=
  mkSys (initialize poolSize now) ∅.

(** The entry currently stored in slot [i] of [contexts]. *)
Definition slot (p : BrowserPool) (i : nat) : option BrowserPoolContext :=
  match map_get (contexts p) i with
  | Some r => objs p !! r
  | None => None
  end.

(** *** The ownership invariant of the pool *)

(** The slot id and the handle of an entry object: the two fields no
    operation of the pool changes once the entry is stored. *)
Definition shape (p : BrowserPool) (r : nat) : option (nat * nat) :=
  (fun e => (id e, context e)) <$> objs p !! r.

(** Who has the entry of a slot: the idle array or a call in flight. *)
Inductive owner :=
| Free
| Task (t : nat).

Definition task_ok (p : BrowserPool) (own : gmap nat owner) (t : nat)
    (tk : task) : Prop :=
  match tk with
  | Probing r | AcqRecycling r | RelRecycling r =>
      exists i h, shape p r = Some (i, h)
                  /\ map_get (contexts p) i = Some r
                  /\ own !! i = Some (Task t)
  | AcqRecycled r | RelRecycled r =>
      exists i h, shape p r = Some (i, h)
                  /\ is_Some (map_get (contexts p) i)
                  /\ own !! i = Some (Task t)
  | Holding ctx =>
      exists r i, shape p r = Some (i, ctx)
                  /\ map_get (contexts p) i = Some r
                  /\ own !! i = Some (Task t)
  | Waiting => True
  end.

Record pool_inv (p : BrowserPool) (ts : gmap nat task) (own : gmap nat owner)
  : Prop := mkPoolInv {
  wf_ctx : forall i r, map_get (contexts p) i = Some r ->
                       exists h, shape p r = Some (i, h);
  wf_ids : forall i r, map_get (contexts p) i = Some r ->
                       (i < nextContextId p)%nat;
  wf_obj : forall r i h, shape p r = Some (i, h) ->
                         (r < nextRef p)%nat /\ (h < nextHandle p)%nat;
  handle_inj : forall r1 r2 i1 i2 h,
      shape p r1 = Some (i1, h) -> shape p r2 = Some (i2, h) -> r1 = r2;
  avail_own : forall r, r ∈ available p ->
      exists i h, shape p r = Some (i, h)
                  /\ map_get (contexts p) i = Some r
                  /\ own !! i = Some Free;
  avail_nodup : NoDup (available p);
  wait_task : forall w, w ∈ waiters p -> ts !! w = Some Waiting;
  wait_nodup : NoDup (waiters p);
  task_own : forall t tk, ts !! t = Some tk -> task_ok p own t tk
}.

(** No two calls hold the same handle. *)
Definition exclusive (ts : gmap nat task) : Prop :=
  forall t1 t2 ctx,
    ts !! t1 = Some (Holding ctx) -> ts !! t2 = Some (Holding ctx) -> t1 = t2.

End Pool.

(* ===================================================================== *)
(** ** Job execution and the public operations ([scraper.ts]) *)
(* ===================================================================== *)

Module Scraper.

(** A thrown value or rejection reason: an [Error] object with its
    [message], or any other value with its [String()] conversion. *)
Inductive JsValue :=
| ErrorObj (message : string)
| Thrown (text : string).

Definition truthy (s : string) : bool :=
  match s with EmptyString => false | _ => true end.

(** [String(v)]; for an [Error] this is [Error.prototype.toString]. *)
Definition String_of (v : JsValue) : string :=
  match v with
  | ErrorObj m => if truthy m then ("Error: " ++ m)%string else "Error"
  | Thrown s => s
  end.

(** [err instanceof Error ? err.message : String(err)] *)
Definition error_text (v : JsValue) : string :=
  match v with
  | ErrorObj m => m
  | Thrown s => s
  end.

Inductive outcome (A : Type) :=
| Ok (a : A)
| Throw (e : JsValue).
Arguments Ok {A} a.
Arguments Throw {A} e.

#[global] Instance outcome_bind : MBind outcome :=
  fun A B (k : A -> outcome B) (c : outcome A) =>
    match c with
    | Ok a => k a
    | Throw e => Throw e
    end.

(** [try { body } finally { cleanup }]: a throw from [cleanup] wins. *)
Definition finally {A : Type} (body : outcome A) (cleanup : outcome unit)
  : outcome A :=
  match cleanup with
  | Ok _ => body
  | Throw e => Throw e
  end.

Record Response := mkResponse {
  ok : bool;
  contentType : option string;      (* [headers.get], null when absent *)
  text : outcome jsstring;
  resp_url : string
}.

Record ExtractionResult := mkExtraction {
  content : jsstring;
  ex_metadata : PageMetadata
}.

(** The collaborators of the module: the URL parser, the content
    extractor and the Markdown converter. *)
Record Runtime := mkRuntime {
  hostname : string -> option string;
  extractContent : jsstring -> string -> outcome ExtractionResult;
  extractFullPage : jsstring -> string -> outcome ExtractionResult;
  htmlToMarkdown : jsstring -> string -> outcome string
}.

(** What the environment does for one job: the readings of
    [performance.now()] by call site, and the outcome of every awaited
    operation.  [waitForFunction] and the consent-banner [evaluate] carry
    their own [.catch] and cannot affect the job. *)
Record Env := mkEnv {
  t_totalStart : Z;
  t_navStart : Z;
  t_navEnd : Z;
  t_extractStart : Z;
  t_extractEnd : Z;
  t_convertStart : Z;
  t_convertEnd : Z;
  t_totalEnd : Z;
  t_catch : Z;
  fetch : outcome Response;
  acquire : outcome nat;
  newPage : outcome unit;
  goto : outcome unit;
  waitForTimeout : outcome unit;
  evaluate : outcome unit;
  page_content : outcome jsstring;
  page_url : string;
  page_close : outcome unit
}.

Definition nl : string := String (ascii_of_nat 10) EmptyString.
Definition dq : string := String (ascii_of_nat 34) EmptyString.

Fixpoint includes (sub s : string) : bool :=
  if String.prefix sub s then true
  else
    match s with
    | EmptyString => false
    | String _ s' => includes sub s'
    end.

Definition formatMetadataHeader (meta : PageMetadata) : string :=
  let lines :=
    (if truthy (title meta) then ["# " ++ title meta] else [])%string
      ++ [EmptyString] in
  let details :=
    (if truthy (description meta)
     then [nl ++ nl ++ description meta] else [])%string in
  let lines :=
    match details with
    | [] => lines
    | _ => lines ++ details ++ [EmptyString; "---"; EmptyString]
    end in
  String.concat nl lines.

Definition emptyMetadata (rt : Runtime) (url : string) : PageMetadata :=
  {| title := EmptyString;
     description := EmptyString;
     meta_url := url;
     domain := match hostname rt url with Some h => h | None => EmptyString end;
     language := None;
     author := None;
     publishedDate := None;
     wordCount := 0 |}.

Definition zero_timing : Timing := mkTiming 0 0 0 0.

Definition tryStaticFetch (url : string) (config : ScrapeConfig) (env : Env)
  : option (jsstring * string) :=
  match fetch env with
  | Throw _ => None
  | Ok response =>
      if negb (ok response) then None
      else
        let contentType :=
          match contentType response with Some c => c | None => EmptyString end in
        if negb (includes "text/html" contentType)
           && negb (includes "application/xhtml" contentType)
        then None
        else
          match text response with
          | Throw _ => None
          | Ok html =>
              let finalUrl :=
                if truthy (resp_url response) then resp_url response else url in
              if looksLikeSPA html then None else Some (html, finalUrl)
          end
  end.

Definition extract (rt : Runtime) (jobConfig : ScrapeConfig)
    (html : jsstring) (finalUrl : string) : outcome ExtractionResult :=
  if extractMainContent jobConfig
  then extractContent rt html finalUrl
  else extractFullPage rt html finalUrl.

Definition build_output (jobConfig : ScrapeConfig) (job : ScrapeJob)
    (meta : PageMetadata) (md : string) : string :=
  let output :=
    ((if includeMetadata jobConfig then formatMetadataHeader meta
      else EmptyString) ++ md)%string in
  if documentDelimiters jobConfig
  then ("<document source=" ++ dq ++ job_url job ++ dq ++ " domain=" ++ dq
        ++ domain meta ++ dq ++ ">" ++ nl ++ output ++ nl ++ "</document>")%string
  else output.

(** The static fast path after a hit; nothing here is inside a [try]. *)
Definition static_path (rt : Runtime) (jobConfig : ScrapeConfig)
    (job : ScrapeJob) (env : Env) (html : jsstring) (finalUrl : string)
  : outcome ScrapeResult :=
  ex ← extract rt jobConfig html finalUrl;
  md ← htmlToMarkdown rt (content ex) finalUrl;
  Ok {| res_id := job_id job;
        res_url := job_url job;
        markdown := build_output jobConfig job (ex_metadata ex) md;
        metadata := ex_metadata ex;
        timing :=
          {| total := t_totalEnd env - t_totalStart env;
             navigation := t_extractStart env - t_totalStart env;
             extraction := t_extractEnd env - t_extractStart env;
             conversion := t_convertEnd env - t_convertStart env |};
        error := None |}.

(** The body of the inner [try] of the browser path. *)
Definition page_work (rt : Runtime) (jobConfig : ScrapeConfig)
    (job : ScrapeJob) (env : Env) : outcome ScrapeResult :=
  goto env;;
  (if 0 <? waitAfterLoad jobConfig then waitForTimeout env else Ok tt);;
  (match preExtractScript jobConfig with
   | Some s => if truthy s then evaluate env else Ok tt
   | None => Ok tt
   end);;
  html ← page_content env;
  let finalUrl := page_url env in
  ex ← extract rt jobConfig html finalUrl;
  md ← htmlToMarkdown rt (content ex) finalUrl;
  Ok {| res_id := job_id job;
        res_url := job_url job;
        markdown := build_output jobConfig job (ex_metadata ex) md;
        metadata := ex_metadata ex;
        timing :=
          {| total := t_totalEnd env - t_totalStart env;
             navigation := t_navEnd env - t_navStart env;
             extraction := t_extractEnd env - t_extractStart env;
             conversion := t_convertEnd env - t_convertStart env |};
        error := None |}.

(** The outer [try] block: [newPage], then the inner [try]/[finally]
    that closes the page. *)
Definition guarded (rt : Runtime) (jobConfig : ScrapeConfig)
    (job : ScrapeJob) (env : Env) : outcome ScrapeResult :=
  newPage env;;
  finally (page_work rt jobConfig job env) (page_close env).

(** The [catch] handler of [processJob]. *)
Definition failed_result (rt : Runtime) (job : ScrapeJob) (env : Env)
    (err : JsValue) : ScrapeResult :=
  {| res_id := job_id job;
     res_url := job_url job;
     markdown := EmptyString;
     metadata := emptyMetadata rt (job_url job);
     timing :=
       {| total := t_catch env - t_totalStart env;
          navigation := 0;
          extraction := 0;
          conversion := 0 |};
     error := Some (error_text err) |}.

(** The browser path: [acquire] is awaited before the [try]; the
    [finally] that releases the context cannot throw. *)
Definition browser_path (rt : Runtime) (jobConfig : ScrapeConfig)
    (job : ScrapeJob) (env : Env) : outcome ScrapeResult :=
  ctx ← acquire env;
  match guarded rt jobConfig job env with
  | Ok r => Ok r
  | Throw err => Ok (failed_result rt job env err)
  end.

Definition has_script (c : ScrapeConfig) : bool :=
  match preExtractScript c with
  | Some s => truthy s
  | None => false
  end.

(** The [Scraper] object: its configuration, the [initialized] flag and
    the per-domain table. *)
Record Scraper := mkScraper {
  config : ScrapeConfig;
  initialized : bool;
  domainLastRequest : gmap string Z
}.

(** The first suspension point of [processJob]:
    [await this.throttleDomain(job.url)]. *)
Definition processJob_throttle (rt : Runtime) (self : Scraper)
    (job : ScrapeJob) (now : Z) : Throttle.entered :=
  Throttle.throttleDomain_enter (hostname rt) (config self)
    (domainLastRequest self) (job_url job) now.

(** [processJob] after the throttle, which only delays the job. *)
Definition processJob (rt : Runtime) (self : Scraper) (job : ScrapeJob)
    (env : Env) : outcome ScrapeResult :=
  let jobConfig := spread (config self) (job_config job) in
  if negb (skipStaticDetection jobConfig) && negb (has_script jobConfig)
  then
    match tryStaticFetch (job_url job) jobConfig env with
    | Some (html, finalUrl) => static_path rt jobConfig job env html finalUrl
    | None => browser_path rt jobConfig job env
    end
  else browser_path rt jobConfig job env.

(** [await this.initialize()], where [launch] is the outcome of
    [this.pool.initialize()] should it be called. *)
Definition initialize (self : Scraper) (launch : outcome unit)
  : outcome Scraper :=
  if initialized self then Ok self
  else
    launch;;
    Ok (mkScraper (config self) true (domainLastRequest self)).

(** [scrape(url, config)] *)
Definition scrape (rt : Runtime) (self : Scraper) (launch : outcome unit)
    (newJobId : string) (url : string) (cfg : option PartialConfig)
    (env : Env) : outcome ScrapeResult :=
  self' ← initialize self launch;
  processJob rt self' (mkJob url newJobId None cfg) env.

(** A settled promise, as [Promise.allSettled] reports it. *)
Inductive settled :=
| Fulfilled (value : ScrapeResult)
| Rejected (reason : JsValue).

Definition settle (o : outcome ScrapeResult) : settled :=
  match o with
  | Ok r => Fulfilled r
  | Throw e => Rejected e
  end.

(** [urls.map((url, i) => ({ url, id: newJobId(), priority: i, config }))];
    [newJobId k] is the identifier drawn for the [k]-th job. *)
Definition batch_jobs (newJobId : nat -> string) (urls : list string)
    (cfg : option PartialConfig) : list ScrapeJob :=
  imap (fun i url => mkJob url (newJobId i) (Some (Z.of_nat i)) cfg) urls.

(** [Promise.allSettled]: slot [i] of the result array is written when
    promise [i] settles; [order] lists the promises by settling time. *)
Fixpoint allSettled (order : list nat) (outs : list settled)
    (slots : list (option settled)) : list (option settled) :=
  match order with
  | [] => slots
  | i :: rest =>
      allSettled rest outs
        (match outs !! i with
         | Some o => <[i := Some o]> slots
         | None => slots
         end)
  end.

(** The callback of [results.map] in [scrapeMany]. *)
Definition batch_result (rt : Runtime) (newJobId : nat -> string)
    (jobs : list ScrapeJob) (i : nat) (r : settled) : ScrapeResult :=
  match r with
  | Fulfilled value => value
  | Rejected reason =>
      let url :=
        match jobs !! i with Some job => job_url job | None => EmptyString end in
      let id :=
        match jobs !! i with
        | Some job => job_id job
        | None => newJobId (length jobs)
        end in
      {| res_id := id;
         res_url := url;
         markdown := EmptyString;
         metadata := emptyMetadata rt url;
         timing := zero_timing;
         error := Some (String_of reason) |}
  end.

(** [scrapeMany(urls, config)].  [envs] gives the environment of each job
    and [order] the order in which the queued promises settle.  [None]
    means the returned promise never settles. *)
Definition scrapeMany (rt : Runtime) (self : Scraper) (launch : outcome unit)
    (newJobId : nat -> string) (urls : list string)
    (cfg : option PartialConfig) (envs : list Env) (order : list nat)
  : option (outcome (list ScrapeResult)) :=
  match initialize self launch with
  | Throw e => Some (Throw e)
  | Ok self' =>
      let jobs := batch_jobs newJobId urls cfg in
      let promises :=
        zip_with (fun job env => settle (processJob rt self' job env))
          jobs envs in
      let slots :=
        allSettled order promises (replicate (length jobs) None) in
      match mapM (fun x : option settled => x) slots with
      | Some results => Some (Ok (imap (batch_result rt newJobId jobs) results))
      | None => None
      end
  end.

(** The filled slots of the [allSettled] array hold the outcomes of
    their own promises. *)
Definition sound (outs : list settled) (slots : list (option settled))
  : Prop :=
  forall j x, slots !! j = Some (Some x) -> outs !! j = Some x.

End Scraper.

(* ===================================================================== *)
(** ** The job queue behind [scrapeMany] and [scrapeStream] *)
(* ===================================================================== *)

(** [PQueue] comes from the npm package p-queue, of which the repository
    holds no copy.  The model follows the package's priority queue:
    [enqueue] inserts an element before the first queued element of
    strictly smaller priority (its lower-bound search on a queue kept in
    descending priority), [dequeue] takes the head, so operations with
    greater priority are scheduled first and equal priorities run in
    insertion order.  [add] enqueues and starts the head when fewer than
    [concurrency] operations are running; a finished operation starts the
    next head. *)
Module PQueue.

Record t := mkQueue {
  limit : Z;                  (* the [concurrency] option *)
  pendingCount : Z;           (* operations running *)
  queue : list (Z * nat);     (* priority, job index *)
  started : list nat          (* jobs in the order they were started *)
}.

Definition create (concurrency : Z) : t := mkQueue concurrency 0 [] [].

Fixpoint enqueue (q : list (Z * nat)) (priority : Z) (job : nat)
  : list (Z * nat) :=
  match q with
  | [] => [(priority, job)]
  | (p, j) :: q' =>
      if p <? priority then (priority, job) :: q
      else (p, j) :: enqueue q' priority job
  end.

Definition tryToStartAnother (s : t) : t :=
  match queue s with
  | [] => s
  | (_, j) :: q' =>
      if pendingCount s <? limit s
      then mkQueue (limit s) (pendingCount s + 1) q' (started s ++ [j])
      else s
  end.

Definition add (priority : Z) (job : nat) (s : t) : t :=
  tryToStartAnother
    (mkQueue (limit s) (pendingCount s) (enqueue (queue s) priority job)
       (started s)).

(** A running operation settles: [pending--], then the next one starts. *)
Definition next (s : t) : t :=
  tryToStartAnother
    (mkQueue (limit s) (pendingCount s - 1) (queue s) (started s)).

(** The [jobs.map(job => this.queue.add(..., { priority: job.priority }))]
    of [scrapeMany]. *)
Definition add_all (jobs : list ScrapeJob) (s : t) : t :=
  fold_left
    (fun s ij =>
       add (match job_priority ij.2 with Some p => p | None => 0 end) ij.1 s)
    (imap (fun i job => (i, job)) jobs) s.

Fixpoint settle_n (n : nat) (s : t) : t :=
  match n with
  | O => s
  | S n' => settle_n n' (next s)
  end.

(** A queued job of a batch: its priority is its index. *)
Definition slot_of (i : nat) : Z * nat := (Z.of_nat i, i).

(** The queue once the first [m] jobs of a batch have been added. *)
Definition batch_state (cn m : nat) : t :=
  mkQueue (Z.of_nat cn) (Z.of_nat (min m cn))
    (rev (slot_of <$> seq cn (m - cn))) (seq 0 (min m cn)).

End PQueue.

(* ===================================================================== *)
(** ** [scrapeStream]: the channel between the queue and the generator *)
(* ===================================================================== *)

Module Stream.

Import Scraper.

(** Where the promise chain of one job
    [queue.add(task).catch(h).finally(f)] stands. *)
Inductive phase :=
| Running                   (* the task has not settled *)
| Failed (err : JsValue)    (* the task rejected; [catch] handler pending *)
| Pushed                    (* its result is in [results]; [finally] pending *)
| Finished.

Inductive consumer :=
| Looping                   (* about to evaluate the [while] condition *)
| Parked                    (* suspended in [await new Promise(...)] *)
| Returned.                 (* the generator has completed *)

Record state := mkState {
  results : list ScrapeResult;
  resolve : bool;             (* [resolve !== null] *)
  done : bool;
  pending : Z;
  phases : list phase;
  gen : consumer;
  yielded : list ScrapeResult
}.

(** The locals after the [for] loop has queued every job. *)
Definition start (urls : list string) : state :=
  mkState [] false false (Z.of_nat (length urls))
    (replicate (length urls) Running) Looping [].

(** [notify()] *)
Definition notify (s : state) : state :=
  if resolve s
  then mkState (results s) false (done s) (pending s) (phases s)
         (match gen s with Parked => Looping | g => g end) (yielded s)
  else s.

Definition push (r : ScrapeResult) (s : state) : state :=
  mkState (results s ++ [r]) (resolve s) (done s) (pending s) (phases s)
    (gen s) (yielded s).

Definition set_phase (i : nat) (ph : phase) (s : state) : state :=
  mkState (results s) (resolve s) (done s) (pending s)
    (<[i := ph]> (phases s)) (gen s) (yielded s).

(** The result built by the [catch] handler. *)
Definition caught_result (rt : Runtime) (job : ScrapeJob) (err : JsValue)
  : ScrapeResult :=
  {| res_id := job_id job;
     res_url := job_url job;
     markdown := EmptyString;
     metadata := emptyMetadata rt (job_url job);
     timing := zero_timing;
     error := Some (String_of err) |}.

(** The [finally] handler. *)
Definition on_finally (s : state) : state :=
  let pending' := pending s - 1 in
  let s1 := mkState (results s) (resolve s) (done s) pending' (phases s)
              (gen s) (yielded s) in
  if pending' =? 0
  then notify (mkState (results s1) (resolve s1) true (pending s1)
                 (phases s1) (gen s1) (yielded s1))
  else s1.

(** One iteration of the [while] loop of the generator. *)
Definition iterate (s : state) : state :=
  if negb (done s) || (0 <? Z.of_nat (length (results s)))
  then
    match results s with
    | next :: rest =>
        mkState rest (resolve s) (done s) (pending s) (phases s) Looping
          (yielded s ++ [next])
    | [] =>
        if negb (done s)
        then mkState (results s) true (done s) (pending s) (phases s) Parked
               (yielded s)
        else s
    end
  else mkState (results s) (resolve s) (done s) (pending s) (phases s)
         Returned (yielded s).

Inductive event :=
| Settle (i : nat)      (* the task of job [i] settles *)
| Catch (i : nat)       (* its [catch] handler runs *)
| Finally (i : nat)     (* its [finally] handler runs *)
| Next.                 (* the generator runs one loop iteration *)

Definition sumZ {A : Type} (f : A -> Z) (l : list A) : Z :=
  foldr (fun x acc => f x + acc) 0 l.

Section WithJobs.

Variable rt : Runtime.
Variable jobs : list ScrapeJob.
(** What [processJob] produces for each job. *)
Variable outs : list (outcome ScrapeResult).

Definition step (ev : event) (s : state) : option state :=
  match ev with
  | Settle i =>
      match phases s !! i, outs !! i with
      | Some Running, Some (Ok result) =>
          Some (notify (push result (set_phase i Pushed s)))
      | Some Running, Some (Throw err) => Some (set_phase i (Failed err) s)
      | _, _ => None
      end
  | Catch i =>
      match phases s !! i, jobs !! i with
      | Some (Failed err), Some job =>
          Some (notify (push (caught_result rt job err) (set_phase i Pushed s)))
      | _, _ => None
      end
  | Finally i =>
      match phases s !! i with
      | Some Pushed => Some (on_finally (set_phase i Finished s))
      | _ => None
      end
  | Next =>
      match gen s with
      | Looping => Some (iterate s)
      | _ => None
      end
  end.

Fixpoint run (evs : list event) (s : state) : option state :=
  match evs with
  | [] => Some s
  | ev :: evs' =>
      match step ev s with
      | Some s' => run evs' s'
      | None => None
      end
  end.

(** No event can happen: every promise chain has finished and the
    generator is not runnable. *)
Definition quiescent (s : state) : Prop := forall ev, step ev s = None.

(** The result job [i] contributes to the stream. *)
Definition delivered (i : nat) : option ScrapeResult :=
  match outs !! i, jobs !! i with
  | Some (Ok result), _ => Some result
  | Some (Throw err), Some job => Some (caught_result rt job err)
  | _, _ => None
  end.

(** *** Measure and invariant of the channel *)

(** Progress left in a promise chain, and whether it still counts in
    [pending]. *)
Definition weight (ph : phase) : Z :=
  match ph with
  | Running => 3
  | Failed _ => 2
  | Pushed => 1
  | Finished => 0
  end.

Definition live (ph : phase) : Z :=
  match ph with
  | Finished => 0
  | _ => 1
  end.

(** What job [i] has put on the channel so far. *)
Definition contributed (i : nat) (ph : phase) : list ScrapeResult :=
  match ph with
  | Pushed | Finished =>
      match delivered i with
      | Some r => [r]
      | None => []
      end
  | _ => []
  end.

Definition collected (phs : list phase) : list ScrapeResult :=
  concat (imap contributed phs).

(** The measure that every event decreases. *)
Definition fuel (s : state) : Z :=
  4 * sumZ weight (phases s) + 2 * Z.of_nat (length (results s))
  + match gen s with Looping => 1 | _ => 0 end.

(** What holds of the locals of [scrapeStream] between events. *)
Record chan_inv (s : state) : Prop := mkChanInv {
  inv_len : length (phases s) = length outs;
  inv_pending : pending s = sumZ live (phases s);
  inv_done : done s = (pending s =? 0);
  inv_resolve : resolve s = true <-> gen s = Parked;
  inv_parked : gen s = Parked -> results s = [] /\ done s = false;
  inv_returned : gen s = Returned -> results s = [] /\ done s = true;
  inv_failed : forall i err, phases s !! i = Some (Failed err) ->
                             outs !! i = Some (Throw err);
  inv_emitted : yielded s ++ results s ≡ₚ collected (phases s)
}.

(** One result per job, in input order: what the stream has to deliver. *)
Definition expected : list ScrapeResult :=
  zip_with
    (fun job o =>
       match o with
       | Ok r => r
       | Throw err => caught_result rt job err
       end) jobs outs.

End WithJobs.

(** [{ url, id: newJobId(), config }] for every url. *)
Definition stream_jobs (newJobId : nat -> string) (urls : list string)
    (cfg : option PartialConfig) : list ScrapeJob :=
  imap (fun i url => mkJob url (newJobId i) None cfg) urls.

(** What [processJob] produces for the queued jobs, each in its own
    environment. *)
Definition stream_outs (rt : Runtime) (self : Scraper)
    (jobs : list ScrapeJob) (envs : list Env)
  : list (outcome ScrapeResult) :=
  zip_with (fun job env => processJob rt self job env) jobs envs.

End Stream.

(* ===================================================================== *)
(** ** Sample inputs used by the concrete runs *)
(* ===================================================================== *)

Module Samples.

Import Scraper.

(** A stand-in for [new URL(url).hostname] on plain http(s) URLs: the text
    between the scheme and the next slash. *)
Fixpoint until_slash (s : string) : string :=
  match s with
  | EmptyString => EmptyString
  | String c s' =>
      if Ascii.eqb c "/"%char then EmptyString else String c (until_slash s')
  end.

Definition host_of (url : string) : option string :=
  if String.prefix "https://" url
  then Some (until_slash (String.substring 8 (String.length url - 8) url))
  else if String.prefix "http://" url
  then Some (until_slash (String.substring 7 (String.length url - 7) url))
  else None.

Definition letters (n : nat) : jsstring := replicate n 97%N.

(** A page with a body element holding [n] letters of text. *)
Definition page (n : nat) : jsstring :=
  js "<html><head><title>t</title><style>p{}</style></head><body class='x'><script>var a = '<p>';</script><p>"
    ++ letters n ++ js "</p></body></html>".

(** The same markup without the body tags, which HTML allows to omit. *)
Definition bare_page (n : nat) : jsstring :=
  js "<!doctype html><p>" ++ letters n ++ js "</p>".

Definition meta0 : PageMetadata :=
  mkMeta "t" EmptyString "https://a.com/" "a.com" None None None 1.

(** Collaborators that always succeed. *)
Definition rt_ok : Runtime :=
  mkRuntime host_of
    (fun html _ => Ok (mkExtraction html meta0))
    (fun html _ => Ok (mkExtraction html meta0))
    (fun _ _ => Ok "text").

(** Collaborators whose Markdown conversion throws. *)
Definition rt_convert_throws : Runtime :=
  mkRuntime host_of
    (fun html _ => Ok (mkExtraction html meta0))
    (fun html _ => Ok (mkExtraction html meta0))
    (fun _ _ => Throw (ErrorObj "conversion failed")).

Definition scraper0 : Scraper := mkScraper DEFAULT_CONFIG true ∅.

(** A job override that sets only [perDomainDelayMs]. *)
Definition delay_override (d : Z) : PartialConfig :=
  mkPartial None None None None None None None None None None None None None
    None None (Some d) None.

Definition html_response (body : jsstring) : Response :=
  mkResponse true (Some "text/html; charset=utf-8") (Ok body) EmptyString.

(** An environment in which everything succeeds; the fetch returns
    [body] and the job takes [ms] milliseconds. *)
Definition env_ok (body : jsstring) (ms : Z) : Env :=
  mkEnv 0 0 ms ms ms ms ms ms ms
    (Ok (html_response body)) (Ok 0%nat) (Ok tt) (Ok tt) (Ok tt) (Ok tt)
    (Ok body) "https://a.com/" (Ok tt).

(** The fetch fails, and so does the navigation in the browser. *)
Definition env_nav_fails (err : JsValue) (ms : Z) : Env :=
  mkEnv 0 0 ms ms ms ms ms ms ms
    (Throw (ErrorObj "fetch failed")) (Ok 0%nat) (Ok tt) (Throw err)
    (Ok tt) (Ok tt) (Ok []) "https://a.com/" (Ok tt).

(** The fetch fails and the pool cannot hand out a context. *)
Definition env_acquire_fails : Env :=
  mkEnv 0 0 0 0 0 0 0 0 0
    (Throw (ErrorObj "fetch failed"))
    (Throw (ErrorObj "Browser not initialized"))
    (Ok tt) (Ok tt) (Ok tt) (Ok tt) (Ok []) "https://a.com/" (Ok tt).

Definition ids (i : nat) : string :=
  String (ascii_of_nat (48 + i)) EmptyString.

(** The pool of two contexts after a run of events (the start-up state
    when the run is not possible). *)
Definition pool_after (maxUses : Z) (evs : list Pool.event) : Pool.sys :=
  match Pool.run maxUses evs (Pool.boot 2 0) with
  | Some s => s
  | None => Pool.boot 2 0
  end.

(** Two calls take the two contexts, a third one waits and is served by
    the first release. *)
Definition busy_run : list Pool.event :=
  [Pool.Acquire 1; Pool.Acquire 2; Pool.ProbeOk 1; Pool.ProbeOk 2;
   Pool.Acquire 3; Pool.Release 1].

End Samples.

(* ===================================================================== *)
(** ** The throttle with one caller at a time *)
(* ===================================================================== *)

Module Pacing.

Import Throttle.

Section WithUrlParser.

Variable hostname : string -> option string.


End WithUrlParser.



End Pacing.

(* ===================================================================== *)
(** ** The pool seen from outside: [stats] and the use counters *)
(* ===================================================================== *)

Module PoolStats.

Import Pool.




(** An entry that may be handed out: not marked busy, and below the use
    limit when there is one. *)
Definition idle_ok (contextMaxUses : Z) (e : BrowserPoolContext) : Prop :=
  0 <= useCount e
  /\ (0 < contextMaxUses -> useCount e < contextMaxUses)
  /\ busy e = false.

(** An entry that a call holds. *)
Definition held_ok (contextMaxUses : Z) (e : BrowserPoolContext) : Prop :=
  1 <= useCount e
  /\ (0 < contextMaxUses -> useCount e <= contextMaxUses)
  /\ busy e = true.

Definition use_ok (contextMaxUses : Z) (p : BrowserPool) (tk : task)
  : Prop :=
  match tk with
  | Probing r => exists e, objs p !! r = Some e /\ idle_ok contextMaxUses e
  | Holding ctx =>
      forall r e, objs p !! r = Some e -> context e = ctx ->
                  held_ok contextMaxUses e
  | AcqRecycled r | RelRecycled r =>
      forall e f, objs p !! r = Some e ->
                  map_get (contexts p) (id e) = Some f ->
                  exists ef, objs p !! f = Some ef
                             /\ idle_ok contextMaxUses ef
  | _ => True
  end.

(** What the counters and flags satisfy between events. *)
Record use_inv (contextMaxUses : Z) (s : sys) : Prop := mkUseInv {
  use_avail : forall r, r ∈ available (pool s) ->
      exists e, objs (pool s) !! r = Some e /\ idle_ok contextMaxUses e;
  use_task : forall t tk, tasks s !! t = Some tk ->
      use_ok contextMaxUses (pool s) tk
}.

End PoolStats.

(* ===================================================================== *)
(** ** The operations a job performs, in order *)
(* ===================================================================== *)

Module Calls.

Import Scraper.

(** The awaited operations of [tryStaticFetch] and [processJob]. *)
Inductive call :=
| Fetch                      (* [fetch(url, ...)] *)
| ReadText                   (* [response.text()] *)
| PoolAcquire                (* [this.pool.acquire()] *)
| NewPage                    (* [ctx.newPage()] *)
| Goto                       (* [page.goto(...)] *)
| WaitForFunction            (* [page.waitForFunction(...)], failure caught *)
| DismissBanners             (* [page.evaluate(...)], failure caught *)
| WaitForTimeout             (* [page.waitForTimeout(...)] *)
| RunScript                  (* [page.evaluate(preExtractScript)] *)
| PageContent                (* [page.content()] *)
| PageClose                  (* [page.close()] *)
| PoolRelease (ctx : nat).   (* [this.pool.release(ctx)] *)

#[global] Instance call_eq_dec : EqDecision call.
Proof. solve_decision. Defined.

(** A computation together with the operations it performed. *)
Record logged (A : Type) := mkLogged {
  calls : list call;
  result : outcome A
}.
Arguments mkLogged {A} calls result.
Arguments calls {A} l.
Arguments result {A} l.

Definition quiet {A : Type} (o : outcome A) : logged A := mkLogged [] o.

Definition perform {A : Type} (c : call) (o : outcome A) : logged A :=
  mkLogged [c] o.

#[global] Instance logged_bind : MBind logged :=
  fun A B (k : A -> logged B) (c : logged A) =>
    match result c with
    | Ok a => mkLogged (calls c ++ calls (k a)) (result (k a))
    | Throw e => mkLogged (calls c) (Throw e)
    end.

(** [try { body } finally { cleanup }] *)
Definition ensuring {A : Type} (body : logged A) (cleanup : logged unit)
  : logged A :=
  mkLogged (calls body ++ calls cleanup)
    (finally (result body) (result cleanup)).

Definition tryStaticFetch (url : string) (config : ScrapeConfig) (env : Env)
  : list call * option (jsstring * string) :=
  match fetch env with
  | Throw _ => ([Fetch], None)
  | Ok response =>
      if negb (ok response) then ([Fetch], None)
      else
        let contentType :=
          match contentType response with Some c => c | None => EmptyString end in
        if negb (includes "text/html" contentType)
           && negb (includes "application/xhtml" contentType)
        then ([Fetch], None)
        else
          match text response with
          | Throw _ => ([Fetch; ReadText], None)
          | Ok html =>
              let finalUrl :=
                if truthy (resp_url response) then resp_url response else url in
              ([Fetch; ReadText],
               if looksLikeSPA html then None else Some (html, finalUrl))
          end
  end.

Definition page_work (rt : Runtime) (jobConfig : ScrapeConfig)
    (job : ScrapeJob) (env : Env) : logged ScrapeResult :=
  perform Goto (goto env);;
  perform WaitForFunction (Ok tt);;
  perform DismissBanners (Ok tt);;
  (if 0 <? waitAfterLoad jobConfig
   then perform WaitForTimeout (waitForTimeout env) else quiet (Ok tt));;
  (match preExtractScript jobConfig with
   | Some s => if truthy s then perform RunScript (evaluate env)
               else quiet (Ok tt)
   | None => quiet (Ok tt)
   end);;
  html ← perform PageContent (page_content env);
  let finalUrl := page_url env in
  quiet
    (ex ← extract rt jobConfig html finalUrl;
     md ← htmlToMarkdown rt (content ex) finalUrl;
     Ok {| res_id := job_id job;
           res_url := job_url job;
           markdown := build_output jobConfig job (ex_metadata ex) md;
           metadata := ex_metadata ex;
           timing :=
             {| total := t_totalEnd env - t_totalStart env;
                navigation := t_navEnd env - t_navStart env;
                extraction := t_extractEnd env - t_extractStart env;
                conversion := t_convertEnd env - t_convertStart env |};
           error := None |}).

Definition guarded (rt : Runtime) (jobConfig : ScrapeConfig)
    (job : ScrapeJob) (env : Env) : logged ScrapeResult :=
  perform NewPage (newPage env);;
  ensuring (page_work rt jobConfig job env)
    (perform PageClose (page_close env)).

(** [const ctx = await this.pool.acquire(); try {...} catch {...}
    finally { this.pool.release(ctx) }] *)
Definition browser_path (rt : Runtime) (jobConfig : ScrapeConfig)
    (job : ScrapeJob) (env : Env) : logged ScrapeResult :=
  ctx ← perform PoolAcquire (acquire env);
  let body := guarded rt jobConfig job env in
  mkLogged (calls body ++ [PoolRelease ctx])
    (match result body with
     | Ok r => Ok r
     | Throw err => Ok (failed_result rt job env err)
     end).

Definition processJob (rt : Runtime) (self : Scraper) (job : ScrapeJob)
    (env : Env) : logged ScrapeResult :=
  let jobConfig := spread (config self) (job_config job) in
  if negb (skipStaticDetection jobConfig) && negb (has_script jobConfig)
  then
    match tryStaticFetch (job_url job) jobConfig env with
    | (l, Some (html, finalUrl)) =>
        mkLogged l (static_path rt jobConfig job env html finalUrl)
    | (l, None) =>
        let b := browser_path rt jobConfig job env in
        mkLogged (l ++ calls b) (result b)
    end
  else browser_path rt jobConfig job env.

(** The operations on an open page, short of closing it. *)
Definition page_op (c : call) : bool :=
  match c with
  | Goto | WaitForFunction | DismissBanners | WaitForTimeout | RunScript
  | PageContent => true
  | _ => false
  end.

(** The options of a job override that [processJob] never reads: they
    configure the pool, the queue and the throttle of the [Scraper]. *)
Definition without_pool_options (o : PartialConfig) : PartialConfig :=
  mkPartial None (o_timeout o) (o_waitForNetworkIdle o) None None
    (o_extractMainContent o) (o_includeMetadata o) None (o_userAgent o)
    None (o_waitAfterLoad o) (o_preExtractScript o) None
    (o_skipStaticDetection o) None None (o_documentDelimiters o).

End Calls.

(* ===================================================================== *)
(** ** The order in which [scrapeStream] yields *)
(* ===================================================================== *)

Module Channel.

Import Scraper Stream.

Section WithJobs.

Variable rt : Runtime.
Variable jobs : list ScrapeJob.
Variable outs : list (outcome ScrapeResult).

(** What an event appends to the [results] array: the result of a task
    that fulfils, or the one built by the [catch] handler of a task that
    rejected. *)
Definition pushed (ev : event) : option ScrapeResult :=
  match ev with
  | Settle i =>
      match outs !! i with
      | Some (Ok result) => Some result
      | _ => None
      end
  | Catch i =>
      match outs !! i, jobs !! i with
      | Some (Throw err), Some job => Some (caught_result rt job err)
      | _, _ => None
      end
  | _ => None
  end.

(** A rejected task is remembered with its own rejection reason. *)
Definition failures_known (s : state) : Prop :=
  forall i err, phases s !! i = Some (Failed err) ->
                outs !! i = Some (Throw err).

End WithJobs.

End Channel.

(* ===================================================================== *)
(** ** The HTTP front end ([server.ts]) *)
(* ===================================================================== *)

Module Server.

Import Scraper.

(** [ScrapeRequestBody]; an absent (or null) field is [None]. *)
Record ScrapeRequestBody := mkBody {
  b_url : option string;
  b_urls : option (list string);       (* [None]: not an array *)
  b_format : option string;
  b_timeout : option Z;
  b_waitAfterLoad : option Z;
  b_extractMainContent : option bool;
  b_fullPage : option bool;
  b_includeMetadata : option bool;
  b_blockResources : option bool
}.

Definition set_timeout (v : Z) (c : PartialConfig) : PartialConfig :=
  mkPartial (o_concurrency c) (Some v) (o_waitForNetworkIdle c)
    (o_blockResources c) (o_blockedResourceTypes c) (o_extractMainContent c)
    (o_includeMetadata c) (o_headers c) (o_userAgent c) (o_viewport c)
    (o_waitAfterLoad c) (o_preExtractScript c) (o_rotateFingerprints c)
    (o_skipStaticDetection c) (o_contextMaxUses c) (o_perDomainDelayMs c)
    (o_documentDelimiters c).

Definition set_waitAfterLoad (v : Z) (c : PartialConfig) : PartialConfig :=
  mkPartial (o_concurrency c) (o_timeout c) (o_waitForNetworkIdle c)
    (o_blockResources c) (o_blockedResourceTypes c) (o_extractMainContent c)
    (o_includeMetadata c) (o_headers c) (o_userAgent c) (o_viewport c)
    (Some v) (o_preExtractScript c) (o_rotateFingerprints c)
    (o_skipStaticDetection c) (o_contextMaxUses c) (o_perDomainDelayMs c)
    (o_documentDelimiters c).

Definition set_extractMainContent (v : bool) (c : PartialConfig)
  : PartialConfig :=
  mkPartial (o_concurrency c) (o_timeout c) (o_waitForNetworkIdle c)
    (o_blockResources c) (o_blockedResourceTypes c) (Some v)
    (o_includeMetadata c) (o_headers c) (o_userAgent c) (o_viewport c)
    (o_waitAfterLoad c) (o_preExtractScript c) (o_rotateFingerprints c)
    (o_skipStaticDetection c) (o_contextMaxUses c) (o_perDomainDelayMs c)
    (o_documentDelimiters c).

Definition set_includeMetadata (v : bool) (c : PartialConfig)
  : PartialConfig :=
  mkPartial (o_concurrency c) (o_timeout c) (o_waitForNetworkIdle c)
    (o_blockResources c) (o_blockedResourceTypes c) (o_extractMainContent c)
    (Some v) (o_headers c) (o_userAgent c) (o_viewport c)
    (o_waitAfterLoad c) (o_preExtractScript c) (o_rotateFingerprints c)
    (o_skipStaticDetection c) (o_contextMaxUses c) (o_perDomainDelayMs c)
    (o_documentDelimiters c).

Definition set_blockResources (v : bool) (c : PartialConfig)
  : PartialConfig :=
  mkPartial (o_concurrency c) (o_timeout c) (o_waitForNetworkIdle c)
    (Some v) (o_blockedResourceTypes c) (o_extractMainContent c)
    (o_includeMetadata c) (o_headers c) (o_userAgent c) (o_viewport c)
    (o_waitAfterLoad c) (o_preExtractScript c) (o_rotateFingerprints c)
    (o_skipStaticDetection c) (o_contextMaxUses c) (o_perDomainDelayMs c)
    (o_documentDelimiters c).

(** [v === b] for an optional boolean field. *)
Definition strictly (v : option bool) (b : bool) : bool :=
  match v with
  | Some x => Bool.eqb x b
  | None => false
  end.

(** [extractJobConfig]: the local [c] and the flag [hasConfig] threaded
    through the five tests. *)
Definition extractJobConfig (body : ScrapeRequestBody)
  : option PartialConfig :=
  let s0 := (no_override, false) in
  let s1 :=
    match b_timeout body with
    | Some t => (set_timeout t s0.1, true)
    | None => s0
    end in
  let s2 :=
    match b_waitAfterLoad body with
    | Some w => (set_waitAfterLoad w s1.1, true)
    | None => s1
    end in
  let s3 :=
    if strictly (b_extractMainContent body) false
       || strictly (b_fullPage body) true
    then (set_extractMainContent false s2.1, true) else s2 in
  let s4 :=
    if strictly (b_includeMetadata body) false
    then (set_includeMetadata false s3.1, true) else s3 in
  let s5 :=
    if strictly (b_blockResources body) false
    then (set_blockResources false s4.1, true) else s4 in
  if s5.2 then Some s5.1 else None.

(** [r.error] used as a condition. *)
Definition has_error (r : ScrapeResult) : bool :=
  match error r with
  | Some e => truthy e
  | None => false
  end.

(** The status of the answer of [handleScrape]. *)
Definition scrape_status (r : ScrapeResult) : Z :=
  if has_error r then 422 else 200.

(** The [error] key of [formatResult]: present only for a truthy error. *)
Definition formatted_error (r : ScrapeResult) : option string :=
  if has_error r then error r else None.

Inductive answer :=
| BadRequest (message : string)                      (* status 400 *)
| Summary (total succeeded failed : Z)               (* status 200 *)
| Events (urls : list string) (cfg : option PartialConfig).
                                     (* status 200, fed by [scrapeStream] *)

(** The two tests on [body.urls] shared by [handleBatch] and
    [handleStream]. *)
Definition check_urls (body : ScrapeRequestBody) : string + list string :=
  match b_urls body with
  | None => inl "Missing required field: urls (string[])"
  | Some urls =>
      if (length urls =? 0)%nat
      then inl "Missing required field: urls (string[])"
      else if (100 <? length urls)%nat
      then inl "Maximum 100 URLs per batch"
      else inr urls
  end.

(** [handleBatch]; [scrapeMany] stands for the call on the scraper. *)
Definition handleBatch (body : ScrapeRequestBody)
    (scrapeMany : list string -> option PartialConfig
                  -> outcome (list ScrapeResult)) : outcome answer :=
  match check_urls body with
  | inl message => Ok (BadRequest message)
  | inr urls =>
      results ← scrapeMany urls (extractJobConfig body);
      Ok (Summary (Z.of_nat (length results))
            (Z.of_nat (length (filter (fun r => has_error r = false) results)))
            (Z.of_nat (length (filter (fun r => has_error r = true) results))))
  end.

(** [handleStream] up to the creation of the stream. *)
Definition handleStream (body : ScrapeRequestBody) : answer :=
  match check_urls body with
  | inl message => BadRequest message
  | inr urls => Events urls (extractJobConfig body)
  end.

End Server.

(* ===================================================================== *)
(** ** The command line ([index.ts]) *)
(* ===================================================================== *)

Module Cli.

Import Scraper.

(** The value of a flag: a string, or [true]. *)
Inductive flag :=
| Value (s : string)
| Present.

Definition VALUE_FLAGS : list string :=
  ["c"; "concurrency"; "timeout"; "wait"; "output"; "o"].

(** [arg.slice(n)] *)
Definition slice (n : nat) (arg : string) : string :=
  String.substring n (String.length arg - n) arg.

(** The flag an argument names, if it is one: [--key], or [-k] of
    length 2. *)
Definition flag_key (arg : string) : option string :=
  if String.prefix "--" arg then Some (slice 2 arg)
  else if String.prefix "-" arg && (String.length arg =? 2)%nat
  then Some (slice 1 arg)
  else None.

(** The loop of [parseCLI].  A value flag takes [args[++i]], or the empty
    string when there is none. *)
Fixpoint parse_args (args : list string) (flags : gmap string flag)
    (urls : list string) : gmap string flag * list string :=
  match args with
  | [] => (flags, urls)
  | arg :: rest =>
      if negb (truthy arg) then parse_args rest flags urls
      else
        match flag_key arg with
        | Some key =>
            if bool_decide (key ∈ VALUE_FLAGS)
            then
              match rest with
              | v :: rest' => parse_args rest' (<[key := Value v]> flags) urls
              | [] => (<[key := Value EmptyString]> flags, urls)
              end
            else parse_args rest (<[key := Present]> flags) urls
        | None => parse_args rest flags (urls ++ [arg])
        end
  end.

Definition flag_truthy (f : flag) : bool :=
  match f with
  | Value s => truthy s
  | Present => true
  end.

(** [if (flags.c) { flags.concurrency = flags.c; delete flags.c }] *)
Definition normalize (short long : string) (flags : gmap string flag)
  : gmap string flag :=
  match flags !! short with
  | Some f => if flag_truthy f then delete short (<[long := f]> flags)
              else flags
  | None => flags
  end.

Definition parseCLI (args : list string) : gmap string flag * list string :=
  let '(flags, urls) := parse_args args ∅ [] in
  (normalize "o" "output" (normalize "c" "concurrency" flags), urls).

(** What the command line makes the program do. *)
Inductive action :=
| Usage                          (* print the usage, exit 0 *)
| NoUrls                         (* print an error, exit 1 *)
| Single (url : string)          (* [scraper.scrape(url)] *)
| Stream (urls : list string).   (* [scraper.scrapeStream(urls)] *)

Definition main (args : list string) : action :=
  if (length args =? 0)%nat
     || bool_decide ("--help" ∈ args) || bool_decide ("-h" ∈ args)
  then Usage
  else
    let '(flags, urls) := parseCLI args in
    match urls with
    | [] => NoUrls
    | [url] => Single url
    | _ => Stream urls
    end.

End Cli.

(* ===================================================================== *)
(** ** The log threshold ([logger.ts]) *)
(* ===================================================================== *)

Module Logger.

Import Scraper.

Inductive LogLevel := Debug | Info | Warn | Error.

Definition name (l : LogLevel) : string :=
  match l with
  | Debug => "debug"
  | Info => "info"
  | Warn => "warn"
  | Error => "error"
  end.

(** [LEVEL_ORDER[key]] for any string key; [None] when the lookup does not
    give a number. *)
Definition LEVEL_ORDER (key : string) : option Z :=
  if String.eqb key "debug" then Some 0
  else if String.eqb key "info" then Some 1
  else if String.eqb key "warn" then Some 2
  else if String.eqb key "error" then Some 3
  else None.

(** [process.env.LOG_LEVEL || "info"] *)
Definition minLevel (LOG_LEVEL : option string) : string :=
  match LOG_LEVEL with
  | Some s => if truthy s then s else "info"
  | None => "info"
  end.

(** [LEVEL_ORDER[level] >= LEVEL_ORDER[minLevel]]; a comparison with a
    value that is not a number is false. *)
Definition shouldLog (LOG_LEVEL : option string) (level : LogLevel) : bool :=
  match LEVEL_ORDER (name level), LEVEL_ORDER (minLevel LOG_LEVEL) with
  | Some a, Some b => b <=? a
  | _, _ => false
  end.

End Logger.

(* ===================================================================== *)
(** ** Word count and code lines ([extractor.ts]) *)
(* ===================================================================== *)

Module Extractor.

(** [s.split(/\s+/)], scanning left to right: a piece ends at every
    maximal run of white space, and the text after the last run is the
    last piece (the empty string gives one empty piece).  [cur] is the
    piece being read and [in_sep] tells that the scan is inside a run. *)
Fixpoint split_space (s cur : jsstring) (in_sep : bool) : list jsstring :=
  match s with
  | [] => [cur]
  | c :: s' =>
      if is_space c
      then if in_sep then split_space s' [] true
           else cur :: split_space s' [] true
      else split_space s' (cur ++ [c]) false
  end.

Definition nonempty (w : jsstring) : bool :=
  match w with [] => false | _ => true end.

(** [text.trim().split(/\s+/).filter((w) => w.length > 0).length] *)
Definition countWords (text : jsstring) : Z :=
  Z.of_nat (length (List.filter nonempty (split_space (trim text) [] false))).

(** A DOM node as [extractCodeLines] reads it: a text node with its
    data, an element with its lower-cased name and its children, or any
    other node (a comment, say). *)
#[local] Unset Elimination Schemes.
Inductive Node :=
| TextNode (data : jsstring)
| Element (tag : string) (childNodes : list Node)
| OtherNode.
#[local] Set Elimination Schemes.

(** [text.split("\n")] *)
Fixpoint split_newline (s : jsstring) : list jsstring :=
  match s with
  | [] => [[]]
  | c :: s' =>
      if (c =? 10)%N then [] :: split_newline s'
      else
        match split_newline s' with
        | p :: ps => (c :: p) :: ps
        | [] => [[c]]
        end
  end.

(** The closure state of [walk]: [lines] and [currentLine]. *)
Definition walker : Type := list jsstring * jsstring.

(** The loop over the parts of a text node. *)
Fixpoint add_parts (parts : list jsstring) (st : walker) : walker :=
  match parts with
  | [] => st
  | [p] => (st.1, st.2 ++ p)
  | p :: rest => add_parts rest (st.1 ++ [st.2 ++ p], [])
  end.

Definition isBlock (tag : string) : bool :=
  String.eqb tag "div" || String.eqb tag "br" || String.eqb tag "p"
  || String.eqb tag "tr".

Fixpoint walk (n : Node) (st : walker) : walker :=
  match n with
  | TextNode data => add_parts (split_newline data) st
  | Element tag childNodes =>
      if String.eqb tag "br" then (st.1 ++ [st.2], [])
      else
        let st' := fold_left (fun st child => walk child st) childNodes st in
        if isBlock tag && nonempty st'.2 then (st'.1 ++ [st'.2], [])
        else st'
  | OtherNode => st
  end.

Definition blank (line : jsstring) : bool := negb (nonempty (trim line)).

(** The closing [while] loop, which pops the trailing blank lines: a
    line stays when it is not blank or a later line stays. *)
Fixpoint pop_blank (lines : list jsstring) : list jsstring :=
  match lines with
  | [] => []
  | line :: rest =>
      match pop_blank rest with
      | [] => if blank line then [] else [line]
      | kept => line :: kept
      end
  end.

Definition extractCodeLines (node : Node) : list jsstring :=
  let '(lines, currentLine) := walk node ([], []) in
  pop_blank (if nonempty currentLine then lines ++ [currentLine] else lines).

(** [node.textContent] *)
Fixpoint textContent (n : Node) : jsstring :=
  match n with
  | TextNode data => data
  | Element _ childNodes => concat (map textContent childNodes)
  | OtherNode => []
  end.

(** A subtree without line breaks and block elements, as a syntax
    highlighter produces. *)
Fixpoint inline (n : Node) : bool :=
  match n with
  | Element tag childNodes =>
      negb (isBlock tag) && forallb inline childNodes
  | _ => true
  end.

(** A walker state none of whose lines holds a line feed. *)
Definition clean (st : walker) : Prop :=
  Forall (fun l => 10%N ∉ l) st.1 /\ 10%N ∉ st.2.

End Extractor.

(* ===================================================================== *)
(** ** Reading the tag pattern of [looksLikeSPA] *)
(* ===================================================================== *)

Module Markup.

Section Star.

Context {T : Type} (cls : N -> bool)
  (k : jsstring -> option jsstring -> option T).

(** The greedy loop that [rmatch] runs for a starred character class. *)
Fixpoint star_greedy (fuel : nat) (s : jsstring) (cap : option jsstring)
    {struct fuel} : option T :=
  match fuel with
  | O => k s cap
  | S fuel' =>
      match
        match s with
        | c :: s1 =>
            if cls c
            then if (length s1 <? length s)%nat
                 then star_greedy fuel' s1 cap else None
            else None
        | [] => None
        end
      with
      | Some x => Some x
      | None => k s cap
      end
  end.

End Star.

(** The text after the first [>]. *)
Fixpoint after_gt (s : jsstring) : option jsstring :=
  match s with
  | [] => None
  | c :: s' => if (c =? 62)%N then Some s' else after_gt s'
  end.

(** The text starts with a tag: [<], a character other than [>], and a
    [>] somewhere after it. *)
Definition starts_tag (s : jsstring) : option jsstring :=
  match s with
  | c0 :: c1 :: s2 =>
      if (c0 =? 60)%N && not_gt c1 then after_gt s2 else None
  | _ => None
  end.

(** No tag starts anywhere in the text. *)
Fixpoint tagless (s : jsstring) : bool :=
  match s with
  | [] => true
  | _ :: s' =>
      match starts_tag s with
      | Some _ => false
      | None => tagless s'
      end
  end.

End Markup.

(* ===================================================================== *)
(** ** Resource blocking ([BrowserPool.createBrowserContext]) *)
(* ===================================================================== *)

Module Routing.

Import Scraper.

Definition BLOCKED_DOMAINS : list string :=
  ["googletagmanager.com"; "google-analytics.com"; "doubleclick.net";
   "facebook.net"; "facebook.com/tr"; "analytics."; "hotjar.com";
   "mixpanel.com"; "segment.io"; "segment.com"; "sentry.io"; "newrelic.com";
   "optimizely.com"; "crazyegg.com"; "fullstory.com"; "intercom.io";
   "drift.com"; "hubspot.com"; "clarity.ms"].

Inductive verdict :=
| Abort        (* [route.abort()] *)
| Continue.    (* [route.continue()] *)

(** The handler installed by [ctx.route] for every request of the
    context. *)
Definition route_handler (config : ScrapeConfig) (resourceType url : string)
  : verdict :=
  if existsb (String.eqb resourceType) (blockedResourceTypes config)
  then Abort
  else if existsb (fun domain => includes domain url) BLOCKED_DOMAINS
  then Abort
  else Continue.

(** What happens to a request: the handler is installed only when
    [blockResources] is set in the configuration of the pool. *)
Definition request_verdict (config : ScrapeConfig)
    (resourceType url : string) : verdict :=
  if blockResources config then route_handler config resourceType url
  else Continue.

End Routing.

(* ===================================================================== *)
(** ** Further sample runs *)
(* ===================================================================== *)

Module Scenarios.

Import Scraper.



(** The throttle after calls that may overlap. *)
Definition overlap_after (evs : list Throttle.event) : Throttle.sys :=
  match Throttle.run Samples.host_of DEFAULT_CONFIG evs
          (Throttle.start ∅ 0) with
  | Some s => s
  | None => Throttle.start ∅ 0
  end.

(** Two calls hold the two contexts and a third one waits. *)
Definition waiting_run : list Pool.event :=
  [Pool.Acquire 1; Pool.Acquire 2; Pool.ProbeOk 1; Pool.ProbeOk 2;
   Pool.Acquire 3].

(** A stream of two urls: the first job succeeds on the fast path, the
    second one rejects because the pool cannot hand out a context. *)
Definition two_urls : list string := ["https://a.com/0"; "https://b.com/1"].

Definition two_envs : list Env :=
  [Samples.env_ok (Samples.page 300) 5; Samples.env_acquire_fails].

Definition two_jobs : list ScrapeJob :=
  Stream.stream_jobs Samples.ids two_urls None.

Definition two_outs : list (outcome ScrapeResult) :=
  Stream.stream_outs Samples.rt_ok Samples.scraper0 two_jobs two_envs.

Definition stream_run : list Stream.event :=
  [Stream.Settle 1; Stream.Settle 0; Stream.Next; Stream.Catch 1;
   Stream.Finally 0; Stream.Next; Stream.Finally 1; Stream.Next].

Definition stream_after (evs : list Stream.event) : Stream.state :=
  match Stream.run Samples.rt_ok two_jobs two_outs evs
          (Stream.start two_urls) with
  | Some s => s
  | None => Stream.start two_urls
  end.

(** A batch request for two urls, and a scraper that answers with one
    success and one failure. *)
Definition batch_body : Server.ScrapeRequestBody :=
  Server.mkBody None (Some two_urls) None None None None None None None.

Definition batch_results : list ScrapeResult :=
  [mkResult "0" "https://a.com/0" "text" Samples.meta0 zero_timing None;
   mkResult "1" "https://b.com/1" EmptyString Samples.meta0 zero_timing
     (Some "Browser not initialized")].

(** A highlighted code block of two lines and a trailing line feed. *)
Definition code_block : Extractor.Node :=
  Extractor.Element "code"
    [Extractor.Element "span" [Extractor.TextNode (js "let")];
     Extractor.TextNode (js (" x = 1;" ++ nl ++ "x"));
     Extractor.OtherNode;
     Extractor.Element "span" [Extractor.TextNode (js ("++;" ++ nl))]].

End Scenarios.


(* ===================================================================== *)
(** ** The SPA heuristic *)
(* ===================================================================== *)

Import Scraper.

Lemma looksLikeSPA_with_body (html inner : jsstring) :
  test re_empty_root html = false ->
  bodyMatch html = Some inner ->
  looksLikeSPA html = (Z.of_nat (length (strip_markup inner)) <? 200).
Proof.
  intros Hroot Hbody. unfold looksLikeSPA. rewrite Hroot, Hbody.
  cbv zeta. now destruct (_ <? 200).
Qed.

Lemma looksLikeSPA_short_body (html inner : jsstring) :
  bodyMatch html = Some inner ->
  Z.of_nat (length (strip_markup inner)) < 200 ->
  looksLikeSPA html = true.
Proof.
  intros Hbody Hlen. unfold looksLikeSPA.
  destruct (test re_empty_root html); [reflexivity|].
  rewrite Hbody. cbv zeta.
  destruct (Z.ltb_spec (Z.of_nat (length (strip_markup inner))) 200);
    [reflexivity | lia].
Qed.

Lemma looksLikeSPA_without_body (html : jsstring) :
  test re_empty_root html = false ->
  bodyMatch html = None ->
  looksLikeSPA html = false.
Proof.
  intros Hroot Hbody. unfold looksLikeSPA. now rewrite Hroot, Hbody.
Qed.

(** C9 (as stated, refuted): a response body whose text after stripping
    script tags, style tags and markup is 50 code units long, but which has
    no body element, is classified as not needing a render. *)
Lemma C9_short_text_without_body_tag :
  length (strip_markup (Samples.bare_page 50)) = 50%nat
  /\ test re_empty_root (Samples.bare_page 50) = false
  /\ looksLikeSPA (Samples.bare_page 50) = false.
Proof. vm_compute. repeat split; reflexivity. Qed.

(** C9 (amended): when the HTML has a body element, the text of that
    element after removing script elements, style elements and tags and
    trimming decides: 50 code units make the page an SPA shell, and 500
    code units with no empty app-root container do not. *)
Theorem C9_body_text_threshold (html inner : jsstring) :
  bodyMatch html = Some inner ->
  (length (strip_markup inner) = 50%nat -> looksLikeSPA html = true)
  /\ (test re_empty_root html = false ->
      length (strip_markup inner) = 500%nat -> looksLikeSPA html = false).
Proof.
  intros Hbody. split.
  - intros Hlen. apply (looksLikeSPA_short_body html inner Hbody). lia.
  - intros Hroot Hlen. rewrite (looksLikeSPA_with_body html inner Hroot Hbody).
    rewrite Hlen. reflexivity.
Qed.

Lemma C9_body_text_threshold_witness :
  looksLikeSPA (Samples.page 50) = true
  /\ looksLikeSPA (Samples.page 500) = false.
Proof.
  split.
  - apply (proj1 (C9_body_text_threshold (Samples.page 50)
                    (js "<script>var a = '<p>';</script><p>"
                       ++ Samples.letters 50 ++ js "</p>")
                    ltac:(vm_compute; reflexivity))).
    vm_compute; reflexivity.
  - apply (proj2 (C9_body_text_threshold (Samples.page 500)
                    (js "<script>var a = '<p>';</script><p>"
                       ++ Samples.letters 500 ++ js "</p>")
                    ltac:(vm_compute; reflexivity))).
    + vm_compute; reflexivity.
    + vm_compute; reflexivity.
Defined.

(* ===================================================================== *)
(** ** The per-domain throttle *)
(* ===================================================================== *)

Section ThrottleFacts.

Variable hostname : string -> option string.
Variable config : ScrapeConfig.

Lemma enter_disabled tbl url now :
  perDomainDelayMs config <= 0 ->
  Throttle.throttleDomain_enter hostname config tbl url now = Throttle.Skip.
Proof.
  intros H. unfold Throttle.throttleDomain_enter.
  destruct (Z.leb_spec (perDomainDelayMs config) 0); [reflexivity | lia].
Qed.

(** A caller that enters after the previous dispatch to its host was
    recorded is held back for the remaining part of the delay. *)
Lemma enter_after_record tbl url h last now :
  0 < perDomainDelayMs config ->
  hostname url = Some h ->
  tbl !! h = Some last ->
  match Throttle.throttleDomain_enter hostname config tbl url now with
  | Throttle.Record_now h' => h' = h /\ perDomainDelayMs config <= now - last
  | Throttle.Sleep h' ms =>
      h' = h /\ 0 < ms /\ now + ms = last + perDomainDelayMs config
  | Throttle.Skip => False
  end.
Proof.
  intros Hpos Hh Hlast. unfold Throttle.throttleDomain_enter.
  destruct (Z.leb_spec (perDomainDelayMs config) 0); [lia|].
  rewrite Hh, Hlast. cbv zeta.
  destruct (Z.ltb_spec (now - last) (perDomainDelayMs config)).
  - repeat split; lia.
  - split; [reflexivity | lia].
Qed.

End ThrottleFacts.

(** C8 (the code at a failing input): three jobs for one host enter the
    throttle together with a delay of 1000 ms.  The first records its
    dispatch at once; the other two both read that timestamp, both sleep
    the full delay and both record time 1000: two dispatches to the host
    with no gap between them. *)
Theorem C8_overlapping_callers_same_timestamp :
  Throttle.dispatched
    <$> Throttle.run Samples.host_of DEFAULT_CONFIG
          [Throttle.Call 1 "https://a.com/1" 0;
           Throttle.Call 2 "https://a.com/2" 0;
           Throttle.Call 3 "https://a.com/3" 0;
           Throttle.Wake 2 1000;
           Throttle.Wake 3 1000]
          (Throttle.start ∅ 0)
  = Some [(1%nat, "a.com", 0); (2%nat, "a.com", 1000); (3%nat, "a.com", 1000)].
Proof. vm_compute. reflexivity. Qed.

(** C10: the throttle step of [processJob] is computed from the scraper's
    own configuration and the job's url; a job's [config] override, and
    its [perDomainDelayMs] in particular, has no part in it.  So the
    throttle stays off when only the override asks for a delay, and a
    sleep has the length the global delay gives. *)
Theorem C10_throttle_ignores_job_config
    (rt : Runtime) (self : Scraper) (url id : string) (priority : option Z)
    (over1 over2 : option PartialConfig) (now : Z) :
  processJob_throttle rt self (mkJob url id priority over1) now
  = processJob_throttle rt self (mkJob url id priority over2) now
  /\ processJob_throttle rt self (mkJob url id priority over1) now
     = Throttle.throttleDomain_enter (hostname rt) (config self)
         (domainLastRequest self) url now
  /\ (perDomainDelayMs (config self) <= 0 ->
      processJob_throttle rt self (mkJob url id priority over1) now
      = Throttle.Skip)
  /\ (forall h last,
        0 < perDomainDelayMs (config self) ->
        hostname rt url = Some h ->
        domainLastRequest self !! h = Some last ->
        now - last < perDomainDelayMs (config self) ->
        processJob_throttle rt self (mkJob url id priority over1) now
        = Throttle.Sleep h (perDomainDelayMs (config self) - (now - last))).
Proof.
  repeat split.
  - intros H. apply enter_disabled. exact H.
  - intros h last Hpos Hh Hlast Hlt.
    unfold processJob_throttle, Throttle.throttleDomain_enter; simpl.
    destruct (Z.leb_spec (perDomainDelayMs (config self)) 0); [lia|].
    rewrite Hh, Hlast. cbv zeta.
    destruct (Z.ltb_spec (now - last) (perDomainDelayMs (config self)));
      [reflexivity | lia].
Qed.

Lemma C10_throttle_ignores_job_config_witness :
  perDomainDelayMs
    (spread DEFAULT_CONFIG (Some (Samples.delay_override 0))) = 0
  /\ processJob_throttle Samples.rt_ok
       (mkScraper DEFAULT_CONFIG true {[ "a.com" := 0 ]})
       (mkJob "https://a.com/x" "1" None (Some (Samples.delay_override 0)))
       100
     = Throttle.Sleep "a.com" 900.
Proof.
  split; [reflexivity|].
  apply (proj2 (proj2 (proj2
           (C10_throttle_ignores_job_config Samples.rt_ok
              (mkScraper DEFAULT_CONFIG true {[ "a.com" := 0 ]})
              "https://a.com/x" "1" None
              (Some (Samples.delay_override 0)) None 100))) "a.com" 0).
  - reflexivity.
  - vm_compute; reflexivity.
  - vm_compute; reflexivity.
  - reflexivity.
Defined.

(* ===================================================================== *)
(** ** Start order of a batch *)
(* ===================================================================== *)

(** C7 (the code at a failing input): a batch of three urls on a queue of
    concurrency 1.  Job 0 starts on submission; jobs 1 and 2 are queued
    with priorities 1 and 2, and the queue starts job 2 before job 1. *)
Theorem C7_queued_jobs_start_in_reverse_order :
  PQueue.started
    (PQueue.settle_n 2
       (PQueue.add_all
          (batch_jobs Samples.ids
             ["https://a.com/0"; "https://b.com/1"; "https://c.com/2"] None)
          (PQueue.create 1)))
  = [0; 2; 1]%nat.
Proof. vm_compute. reflexivity. Qed.

(** *** The start order in general *)

Section StartOrder.

Import PQueue.

Lemma add_all_batch newJobId cfg urls : forall k s,
  fold_left
    (fun s ij =>
       add (match job_priority ij.2 with Some p => p | None => 0 end) ij.1 s)
    (imap (fun i job => ((k + i)%nat, job))
       (imap (fun i url =>
                mkJob url (newJobId (k + i)%nat) (Some (Z.of_nat (k + i))) cfg)
          urls)) s
  = fold_left (fun s i => add (Z.of_nat i) i s) (seq k (length urls)) s.
Proof.
  induction urls as [|url urls IH]; intros k s; simpl; [reflexivity|].
  rewrite Nat.add_0_r. rewrite <- (IH (S k)). f_equal.
  rewrite (imap_ext _ (fun i job => ((S k + i)%nat, job))
             (imap _ urls)).
  - f_equal. apply imap_ext. intros i x _. simpl.
    now replace (k + S i)%nat with (S (k + i)) by lia.
  - intros i x _. simpl. f_equal. lia.
Qed.

Lemma add_batch_state cn m :
  add (Z.of_nat m) m (batch_state cn m) = batch_state cn (S m).
Proof.
  unfold batch_state.
  destruct (le_lt_dec cn m) as [Hge|Hlt].
  - replace (S m - cn)%nat with (S (m - cn)) by lia.
    replace (min (S m) cn) with cn by lia.
    replace (min m cn) with cn by lia.
    rewrite seq_S, fmap_app, rev_app_distr.
    replace (cn + (m - cn))%nat with m by lia.
    assert (Henq : enqueue (rev (slot_of <$> seq cn (m - cn))) (Z.of_nat m) m
                   = slot_of m :: rev (slot_of <$> seq cn (m - cn))).
    { destruct (m - cn)%nat as [|j] eqn:Hj; [reflexivity|].
      rewrite seq_S, fmap_app, rev_app_distr. simpl.
      destruct (Z.ltb_spec (Z.of_nat (cn + j)) (Z.of_nat m)); [reflexivity|lia]. }
    unfold add. cbn [limit pendingCount queue started].
    rewrite Henq. unfold tryToStartAnother, slot_of at 1.
    cbn [limit pendingCount queue started].
    destruct (Z.ltb_spec (Z.of_nat cn) (Z.of_nat cn)); [lia | reflexivity].
  - replace (S m - cn)%nat with 0%nat by lia.
    replace (m - cn)%nat with 0%nat by lia.
    replace (min (S m) cn) with (S m) by lia.
    replace (min m cn) with m by lia.
    rewrite seq_S.
    unfold add, tryToStartAnother. cbn [limit pendingCount queue started
      seq fmap list_fmap rev app enqueue].
    destruct (Z.ltb_spec (Z.of_nat m) (Z.of_nat cn)); [|lia].
    f_equal. lia.
Qed.

Lemma add_all_batch_state newJobId cfg urls cn :
  add_all (batch_jobs newJobId urls cfg) (create (Z.of_nat cn))
  = batch_state cn (length urls).
Proof.
  unfold add_all, batch_jobs.
  rewrite (add_all_batch newJobId cfg urls 0).
  generalize (length urls) as m. induction m as [|m IH].
  - reflexivity.
  - rewrite seq_S, fold_left_app, IH. simpl. apply add_batch_state.
Qed.

Lemma fmap_rev {A B : Type} (f : A -> B) (l : list A) :
  f <$> rev l = rev (f <$> l).
Proof.
  induction l as [|x l IH]; simpl; [reflexivity|].
  now rewrite fmap_app, IH.
Qed.

Lemma settle_full_queue cn : forall k first (order : list nat),
  (0 < cn)%nat -> (k <= length order)%nat ->
  settle_n k (mkQueue (Z.of_nat cn) (Z.of_nat cn) (slot_of <$> order) first)
  = mkQueue (Z.of_nat cn) (Z.of_nat cn) (slot_of <$> drop k order)
      (first ++ take k order).
Proof.
  induction k as [|k IH]; intros first order Hpos Hk; simpl.
  - now rewrite app_nil_r.
  - destruct order as [|j order]; [simpl in Hk; lia|].
    unfold next, tryToStartAnother.
    cbn [limit pendingCount queue started fmap list_fmap slot_of].
    destruct (Z.ltb_spec (Z.of_nat cn - 1) (Z.of_nat cn)); [|lia].
    replace (Z.of_nat cn - 1 + 1) with (Z.of_nat cn) by lia.
    rewrite (IH (first ++ [j]) order Hpos) by (simpl in Hk; lia).
    simpl. now rewrite <- app_assoc.
Qed.

Lemma settle_batch_state cn m k :
  (0 < cn)%nat -> (cn <= m)%nat -> (k <= m - cn)%nat ->
  started (settle_n k (batch_state cn m))
  = seq 0 cn ++ take k (rev (seq cn (m - cn))).
Proof.
  intros Hpos Hle Hk. unfold batch_state.
  replace (min m cn) with cn by lia.
  rewrite <- fmap_rev, settle_full_queue; [reflexivity | exact Hpos |].
  now rewrite length_rev, length_seq.
Qed.

(** With [concurrency] slots, the first [concurrency] jobs of a batch
    start in input order on submission; the queued ones then start from
    the last url backwards. *)
Lemma batch_start_order newJobId cfg urls cn k :
  (0 < cn)%nat -> (cn <= length urls)%nat -> (k <= length urls - cn)%nat ->
  started
    (settle_n k
       (add_all (batch_jobs newJobId urls cfg) (create (Z.of_nat cn))))
  = seq 0 cn ++ take k (rev (seq cn (length urls - cn))).
Proof.
  intros Hpos Hle Hk.
  now rewrite add_all_batch_state, settle_batch_state.
Qed.

End StartOrder.

(* ===================================================================== *)
(** ** Results of [processJob] and of the public operations *)
(* ===================================================================== *)

Ltac unbind := unfold mbind, outcome_bind in *.

(** Follow a chain of binds that ended in [Ok]: every step returned. *)
Ltac all_returned :=
  repeat match goal with
    | |- (match ?c with Ok _ => _ | Throw _ => _ end) = Ok _ -> _ =>
        destruct c; [|discriminate]
    end.

Lemma page_work_ok rt jobConfig job env r :
  page_work rt jobConfig job env = Ok r ->
  res_url r = job_url job /\ res_id r = job_id job /\ error r = None.
Proof.
  unfold page_work. unbind. all_returned.
  intros [= <-]. auto.
Qed.

Lemma guarded_ok rt jobConfig job env r :
  guarded rt jobConfig job env = Ok r ->
  res_url r = job_url job /\ res_id r = job_id job /\ error r = None.
Proof.
  unfold guarded, finally. unbind. all_returned.
  apply page_work_ok.
Qed.

Lemma static_path_ok rt jobConfig job env html finalUrl r :
  static_path rt jobConfig job env html finalUrl = Ok r ->
  res_url r = job_url job /\ res_id r = job_id job /\ error r = None.
Proof.
  unfold static_path. unbind. all_returned.
  intros [= <-]. auto.
Qed.

(** A result of the browser path is either the success of the guarded
    block or the [catch] handler's result for what the block threw. *)
Lemma browser_path_ok rt jobConfig job env r :
  browser_path rt jobConfig job env = Ok r ->
  guarded rt jobConfig job env = Ok r
  \/ exists err, guarded rt jobConfig job env = Throw err
                 /\ r = failed_result rt job env err.
Proof.
  unfold browser_path. unbind.
  destruct (acquire env); [|discriminate].
  destruct (guarded rt jobConfig job env) as [r'|err].
  - intros [= <-]. now left.
  - intros [= <-]. right. now exists err.
Qed.

Lemma processJob_cases rt self job env :
  let jobConfig := spread (config self) (job_config job) in
  (exists html finalUrl,
      processJob rt self job env
      = static_path rt jobConfig job env html finalUrl)
  \/ processJob rt self job env = browser_path rt jobConfig job env.
Proof.
  cbv zeta. unfold processJob.
  destruct (negb _ && negb _); [|now right].
  destruct (tryStaticFetch _ _ _) as [[html finalUrl]|]; [|now right].
  left. now exists html, finalUrl.
Qed.

Lemma processJob_ok_url rt self job env r :
  processJob rt self job env = Ok r ->
  res_url r = job_url job /\ res_id r = job_id job.
Proof.
  destruct (processJob_cases rt self job env) as [(html & fu & ->)| ->].
  - intros H. apply static_path_ok in H. tauto.
  - intros H. apply browser_path_ok in H as [H|(err & _ & ->)].
    + apply guarded_ok in H. tauto.
    + auto.
Qed.

(** Every error-bearing result of [processJob] is the one its [catch]
    handler builds. *)
Lemma processJob_error_result rt self job env r :
  processJob rt self job env = Ok r ->
  is_Some (error r) ->
  exists err,
    guarded rt (spread (config self) (job_config job)) job env = Throw err
    /\ r = failed_result rt job env err.
Proof.
  destruct (processJob_cases rt self job env) as [(html & fu & ->)| ->].
  - intros H [msg Hmsg]. apply static_path_ok in H. destruct H as (_ & _ & H).
    congruence.
  - intros H [msg Hmsg]. apply browser_path_ok in H as [H|H]; [|exact H].
    apply guarded_ok in H. destruct H as (_ & _ & H). congruence.
Qed.

(** C1 (the code at failing inputs): [scrape] rejects instead of
    resolving with an error-bearing result when the Markdown conversion
    throws on the static fast path, and when the pool cannot hand out a
    context: both happen outside the [try] of [processJob]. *)
Theorem C1_scrape_rejects :
  scrape Samples.rt_convert_throws Samples.scraper0 (Ok tt) "1"
    "https://a.com/" None (Samples.env_ok (Samples.page 500) 5)
  = Throw (ErrorObj "conversion failed")
  /\ scrape Samples.rt_ok Samples.scraper0 (Ok tt) "1"
       "https://a.com/" None Samples.env_acquire_fails
     = Throw (ErrorObj "Browser not initialized").
Proof. split; vm_compute; reflexivity. Qed.

(** C6 (as stated, refuted): a navigation that throws after 30000 ms gives
    a result whose [total] is 30000, not 0; and an error thrown with an
    empty message gives an empty [error] string. *)
Lemma C6_failed_result_keeps_total :
  (exists r,
      processJob Samples.rt_ok Samples.scraper0
        (mkJob "https://a.com/" "1" None None)
        (Samples.env_nav_fails (ErrorObj "Timeout 30000ms exceeded") 30000)
      = Ok r
      /\ error r = Some "Timeout 30000ms exceeded"
      /\ total (timing r) = 30000)
  /\ (exists r,
         processJob Samples.rt_ok Samples.scraper0
           (mkJob "https://a.com/" "1" None None)
           (Samples.env_nav_fails (ErrorObj EmptyString) 7)
         = Ok r
         /\ error r = Some EmptyString).
Proof.
  split; eexists; (split; [vm_compute; reflexivity|]);
    repeat split; reflexivity.
Qed.

(** C6 (amended): a failure caught by [processJob] becomes a result whose
    [error] is the thrown error's message (the [String] conversion of a
    value that is not an [Error]), whose navigation, extraction and
    conversion times are 0, whose [total] is the time elapsed since the job
    started, and whose metadata is [emptyMetadata(url)] with empty
    markdown; every error-bearing result of [processJob] has this shape.  A
    failure that escapes [processJob] is converted by [scrapeMany] and
    [scrapeStream] into a result with all four timings 0,
    [emptyMetadata(url)] and [String(reason)] as its error. *)
Theorem C6_failure_result_shape
    (rt : Runtime) (self : Scraper) (job : ScrapeJob) (env : Env) :
  (forall ctx err,
      acquire env = Ok ctx ->
      guarded rt (spread (config self) (job_config job)) job env = Throw err ->
      browser_path rt (spread (config self) (job_config job)) job env
      = Ok (failed_result rt job env err))
  /\ (forall r msg,
         processJob rt self job env = Ok r ->
         error r = Some msg ->
         exists err,
           msg = error_text err
           /\ timing r = mkTiming (t_catch env - t_totalStart env) 0 0 0
           /\ metadata r = emptyMetadata rt (job_url job)
           /\ markdown r = EmptyString
           /\ res_url r = job_url job)
  /\ (forall reason newJobId jobs i,
         processJob rt self job env = Throw reason ->
         jobs !! i = Some job ->
         let r := batch_result rt newJobId jobs i
                    (settle (processJob rt self job env)) in
         r = Stream.caught_result rt job reason
         /\ error r = Some (String_of reason)
         /\ timing r = mkTiming 0 0 0 0
         /\ metadata r = emptyMetadata rt (job_url job)
         /\ markdown r = EmptyString
         /\ res_url r = job_url job).
Proof.
  repeat split.
  - intros ctx err Hacq Hthrow. unfold browser_path. unbind.
    now rewrite Hacq, Hthrow.
  - intros r msg Hok Hmsg.
    destruct (processJob_error_result rt self job env r Hok) as (err & _ & ->).
    { now exists msg. }
    exists err. simpl in Hmsg. injection Hmsg as <-. repeat split.
  - cbv zeta. rewrite H. simpl. now rewrite H0.
  - cbv zeta. rewrite H. reflexivity.
  - cbv zeta. rewrite H. reflexivity.
  - cbv zeta. rewrite H. simpl. now rewrite H0.
  - cbv zeta. rewrite H. reflexivity.
  - cbv zeta. rewrite H. simpl. now rewrite H0.
Qed.

Lemma C6_failure_result_shape_witness :
  exists err,
    "Timeout 30000ms exceeded" = error_text err
    /\ timing
         (failed_result Samples.rt_ok (mkJob "https://a.com/" "1" None None)
            (Samples.env_nav_fails (ErrorObj "Timeout 30000ms exceeded") 30000)
            (ErrorObj "Timeout 30000ms exceeded"))
       = mkTiming (30000 - 0) 0 0 0
    /\ metadata
         (failed_result Samples.rt_ok (mkJob "https://a.com/" "1" None None)
            (Samples.env_nav_fails (ErrorObj "Timeout 30000ms exceeded") 30000)
            (ErrorObj "Timeout 30000ms exceeded"))
       = emptyMetadata Samples.rt_ok "https://a.com/"
    /\ markdown
         (failed_result Samples.rt_ok (mkJob "https://a.com/" "1" None None)
            (Samples.env_nav_fails (ErrorObj "Timeout 30000ms exceeded") 30000)
            (ErrorObj "Timeout 30000ms exceeded"))
       = EmptyString
    /\ res_url
         (failed_result Samples.rt_ok (mkJob "https://a.com/" "1" None None)
            (Samples.env_nav_fails (ErrorObj "Timeout 30000ms exceeded") 30000)
            (ErrorObj "Timeout 30000ms exceeded"))
       = "https://a.com/".
Proof.
  apply (proj1 (proj2
           (C6_failure_result_shape Samples.rt_ok Samples.scraper0
              (mkJob "https://a.com/" "1" None None)
              (Samples.env_nav_fails (ErrorObj "Timeout 30000ms exceeded")
                 30000)))).
  - vm_compute; reflexivity.
  - reflexivity.
Defined.

(** *** [scrapeMany] *)

Section AllSettled.

Variable outs : list settled.

Local Abbreviation sound := (Scraper.sound outs).

Lemma allSettled_length order slots :
  length (allSettled order outs slots) = length slots.
Proof.
  revert slots. induction order as [|i rest IH]; intros slots; simpl.
  - reflexivity.
  - rewrite IH. destruct (outs !! i); [apply length_insert | reflexivity].
Qed.

Lemma sound_insert slots i o :
  sound slots -> outs !! i = Some o -> sound (<[i := Some o]> slots).
Proof.
  intros Hs Ho j x Hj.
  destruct (decide (i = j)) as [->|Hne].
  - apply list_lookup_insert_Some in Hj as [(_ & Heq & _)|(Hne & _)];
      [congruence | congruence].
  - rewrite list_lookup_insert_ne in Hj by exact Hne. now apply Hs.
Qed.

(** A slot holds its promise's outcome once that promise has settled,
    whatever settles before or after it. *)
Lemma allSettled_filled order slots i o :
  length slots = length outs ->
  sound slots ->
  outs !! i = Some o ->
  i ∈ order \/ slots !! i = Some (Some o) ->
  allSettled order outs slots !! i = Some (Some o).
Proof.
  revert slots. induction order as [|i' rest IH]; intros slots Hlen Hs Ho Hin.
  - simpl. destruct Hin as [Hin|Hin]; [|exact Hin]. inversion Hin.
  - simpl. destruct (outs !! i') as [o'|] eqn:Ho'.
    + apply IH.
      * now rewrite length_insert.
      * now apply sound_insert.
      * exact Ho.
      * destruct (decide (i' = i)) as [->|Hne].
        -- right. assert (o' = o) as -> by congruence.
           apply list_lookup_insert_eq. rewrite Hlen.
           apply lookup_lt_Some in Ho. exact Ho.
        -- destruct Hin as [Hin|Hin].
           ++ left. apply elem_of_cons in Hin as [->|Hin]; [congruence|exact Hin].
           ++ right. now rewrite list_lookup_insert_ne.
    + apply IH; try assumption.
      destruct Hin as [Hin|Hin]; [|now right].
      apply elem_of_cons in Hin as [->|Hin]; [congruence | now left].
Qed.

Lemma allSettled_complete order :
  order ≡ₚ seq 0 (length outs) ->
  mapM (fun x : option settled => x)
    (allSettled order outs (replicate (length outs) None))
  = Some outs.
Proof.
  intros Hperm. apply mapM_Some_2.
  apply Forall2_same_length_lookup. split.
  - now rewrite allSettled_length, length_replicate.
  - intros i x y Hx Hy.
    rewrite (allSettled_filled order _ i y) in Hx.
    + congruence.
    + apply length_replicate.
    + intros j z Hj. apply lookup_replicate in Hj as [Hj _]. discriminate.
    + exact Hy.
    + left. rewrite Hperm. apply elem_of_seq.
      apply lookup_lt_Some in Hy. lia.
Qed.

End AllSettled.

Lemma batch_jobs_lookup newJobId urls cfg i :
  batch_jobs newJobId urls cfg !! i
  = (fun url => mkJob url (newJobId i) (Some (Z.of_nat i)) cfg) <$> urls !! i.
Proof. unfold batch_jobs. apply list_lookup_imap. Qed.

Lemma batch_result_url rt self newJobId jobs i job env :
  jobs !! i = Some job ->
  res_url (batch_result rt newJobId jobs i (settle (processJob rt self job env)))
  = job_url job.
Proof.
  intros Hjob. destruct (processJob rt self job env) as [r|e] eqn:Hp; simpl.
  - now apply processJob_ok_url in Hp.
  - now rewrite Hjob.
Qed.

(** C2: once the scraper is initialised, [scrapeMany] resolves, for every
    url list, every environment of the jobs (failing or not) and every
    order in which the queued promises settle, with an array as long as
    the input whose [i]-th result carries the [i]-th url. *)
Theorem C2_scrapeMany_preserves_input_order
    (rt : Runtime) (self self' : Scraper) (launch : outcome unit)
    (newJobId : nat -> string) (urls : list string)
    (cfg : option PartialConfig) (envs : list Env) (order : list nat) :
  initialize self launch = Ok self' ->
  length envs = length urls ->
  order ≡ₚ seq 0 (length urls) ->
  exists results,
    scrapeMany rt self launch newJobId urls cfg envs order = Some (Ok results)
    /\ length results = length urls
    /\ forall i url, urls !! i = Some url ->
                     res_url <$> results !! i = Some url.
Proof.
  intros Hinit Hlen Hperm. unfold scrapeMany. rewrite Hinit.
  set (jobs := batch_jobs newJobId urls cfg).
  set (promises := zip_with _ jobs envs).
  assert (Hjobs : length jobs = length urls) by apply length_imap.
  assert (Hprom : length promises = length urls).
  { unfold promises. rewrite length_zip_with_l_eq; [exact Hjobs | lia]. }
  rewrite Hjobs, <- Hprom.
  rewrite allSettled_complete by (now rewrite Hprom).
  eexists. split; [reflexivity|]. split.
  - now rewrite length_imap.
  - intros i url Hurl. rewrite list_lookup_imap.
    assert (Hjob : jobs !! i
                   = Some (mkJob url (newJobId i) (Some (Z.of_nat i)) cfg)).
    { unfold jobs. rewrite batch_jobs_lookup, Hurl. reflexivity. }
    destruct (envs !! i) as [env|] eqn:Henv.
    2:{ apply lookup_ge_None in Henv. apply lookup_lt_Some in Hurl. lia. }
    unfold promises. rewrite lookup_zip_with, Hjob, Henv. simpl.
    f_equal. now rewrite (batch_result_url rt self' newJobId jobs i _ env Hjob).
Qed.

Lemma C2_scrapeMany_preserves_input_order_witness :
  exists results,
    scrapeMany Samples.rt_ok Samples.scraper0 (Ok tt) Samples.ids
      ["https://a.com/0"; "https://b.com/1"; "https://c.com/2"] None
      [Samples.env_ok (Samples.page 300) 5;
       Samples.env_nav_fails (ErrorObj "net::ERR_FAILED") 9;
       Samples.env_acquire_fails]
      [2; 0; 1]%nat
    = Some (Ok results)
    /\ length results = 3%nat
    /\ forall i url,
        ["https://a.com/0"; "https://b.com/1"; "https://c.com/2"] !! i
        = Some url ->
        res_url <$> results !! i = Some url.
Proof.
  apply (C2_scrapeMany_preserves_input_order Samples.rt_ok Samples.scraper0
           Samples.scraper0 (Ok tt) Samples.ids
           ["https://a.com/0"; "https://b.com/1"; "https://c.com/2"] None
           [Samples.env_ok (Samples.page 300) 5;
            Samples.env_nav_fails (ErrorObj "net::ERR_FAILED") 9;
            Samples.env_acquire_fails]
           [2; 0; 1]%nat).
  - reflexivity.
  - reflexivity.
  - simpl. rewrite (Permutation_swap 0%nat 2%nat [1%nat]).
    apply perm_skip. apply Permutation_swap.
Defined.

(* ===================================================================== *)
(** ** [scrapeStream] *)
(* ===================================================================== *)

Section StreamFacts.

Import Stream.

Variable rt : Runtime.
Variable jobs : list ScrapeJob.
Variable outs : list (outcome ScrapeResult).

Local Abbreviation contributed := (Stream.contributed rt jobs outs).
Local Abbreviation collected := (Stream.collected rt jobs outs).
Local Abbreviation expected := (Stream.expected rt jobs outs).
Local Abbreviation inv := (Stream.chan_inv rt jobs outs).
Local Abbreviation inv_len := (Stream.inv_len rt jobs outs).
Local Abbreviation inv_pending := (Stream.inv_pending rt jobs outs).
Local Abbreviation inv_done := (Stream.inv_done rt jobs outs).
Local Abbreviation inv_resolve := (Stream.inv_resolve rt jobs outs).
Local Abbreviation inv_parked := (Stream.inv_parked rt jobs outs).
Local Abbreviation inv_returned := (Stream.inv_returned rt jobs outs).
Local Abbreviation inv_failed := (Stream.inv_failed rt jobs outs).
Local Abbreviation inv_emitted := (Stream.inv_emitted rt jobs outs).

Lemma sumZ_app {A : Type} (f : A -> Z) l1 l2 :
  sumZ f (l1 ++ l2) = sumZ f l1 + sumZ f l2.
Proof. induction l1 as [|x l1 IH]; simpl; [reflexivity | rewrite IH; lia]. Qed.

Lemma insert_middle {A : Type} (l : list A) i x y :
  l !! i = Some x ->
  l = take i l ++ x :: drop (S i) l
  /\ <[i := y]> l = take i l ++ y :: drop (S i) l.
Proof.
  intros Hx. split.
  - symmetry. now apply take_drop_middle.
  - apply insert_take_drop. now apply lookup_lt_Some in Hx.
Qed.

Lemma sumZ_insert {A : Type} (f : A -> Z) l i x y :
  l !! i = Some x ->
  sumZ f (<[i := y]> l) = sumZ f l - f x + f y.
Proof.
  intros Hx. destruct (insert_middle l i x y Hx) as [Hl ->].
  rewrite Hl at 3. rewrite !sumZ_app. simpl. lia.
Qed.

Lemma collected_insert phs i x y :
  phs !! i = Some x ->
  exists pre post,
    collected phs = pre ++ contributed i x ++ post
    /\ collected (<[i := y]> phs) = pre ++ contributed i y ++ post.
Proof.
  intros Hx. destruct (insert_middle phs i x y Hx) as [Hl Hins].
  assert (Hi : length (take i phs) = i).
  { apply length_take_le. apply lookup_lt_Some in Hx. lia. }
  exists (concat (imap contributed (take i phs))),
         (concat (imap (fun n => contributed (i + S n)) (drop (S i) phs))).
  unfold Stream.collected. split.
  - rewrite Hl at 1. rewrite imap_app, concat_app, Hi. simpl.
    now rewrite Nat.add_0_r.
  - rewrite Hins. rewrite imap_app, concat_app, Hi. simpl.
    now rewrite Nat.add_0_r.
Qed.

Hypothesis Hjobs : length jobs = length outs.
Hypothesis Hsome : (0 < length outs)%nat.

Lemma sumZ_live_nonneg phs : 0 <= sumZ live phs.
Proof. induction phs as [|[] phs IH]; simpl; lia. Qed.

Lemma sumZ_weight_nonneg phs : 0 <= sumZ weight phs.
Proof. induction phs as [|[] phs IH]; simpl; lia. Qed.

Lemma sumZ_live_replicate n : sumZ live (replicate n Running) = Z.of_nat n.
Proof. induction n as [|n IH]; simpl; [reflexivity | rewrite IH; lia]. Qed.

Lemma collected_replicate n : collected (replicate n Running) = [].
Proof.
  unfold Stream.collected.
  assert (H : forall f : nat -> phase -> list ScrapeResult,
             (forall i, f i Running = []) ->
             concat (imap f (replicate n Running)) = []).
  { induction n as [|n IH]; intros f Hf; simpl; [reflexivity|].
    rewrite Hf. apply (IH (f ∘ S)). intros i. apply Hf. }
  now apply H.
Qed.

Lemma inv_start urls :
  length urls = length outs -> inv (start urls).
Proof.
  intros Hlen. unfold start. split; simpl.
  - now rewrite length_replicate.
  - now rewrite sumZ_live_replicate.
  - destruct (Z.eqb_spec (Z.of_nat (length urls)) 0); [lia | reflexivity].
  - split; discriminate.
  - discriminate.
  - discriminate.
  - intros i err Hi. apply lookup_replicate in Hi as [Hi _]. discriminate.
  - now rewrite collected_replicate.
Qed.

Lemma live_pos_pending s i ph :
  inv s -> phases s !! i = Some ph -> ph <> Finished ->
  done s = false /\ gen s <> Returned.
Proof.
  intros Hinv Hph Hne.
  assert (Hpos : 0 < pending s).
  { rewrite (inv_pending s Hinv).
    destruct (insert_middle (phases s) i ph ph Hph) as [Hl _].
    rewrite Hl, sumZ_app. simpl.
    pose proof (sumZ_live_nonneg (take i (phases s))).
    pose proof (sumZ_live_nonneg (drop (S i) (phases s))).
    destruct ph; simpl; try lia. congruence. }
  assert (Hd : done s = false).
  { rewrite (inv_done s Hinv). destruct (Z.eqb_spec (pending s) 0); [lia|easy]. }
  split; [exact Hd|]. intros Hret.
  destruct (inv_returned s Hinv Hret) as [_ Hd']. congruence.
Qed.

(** A job puts its result on the channel: [results.push(r); notify()]. *)
Lemma inv_push s i ph r :
  inv s ->
  phases s !! i = Some ph ->
  contributed i ph = [] ->
  contributed i Pushed = [r] ->
  live ph = 1 ->
  inv (notify (push r (set_phase i Pushed s))).
Proof.
  intros Hinv Hph Hold Hnew Hlive.
  assert (Hne : ph <> Finished) by (intros ->; discriminate).
  destruct (live_pos_pending s i ph Hinv Hph Hne) as [Hd Hret].
  destruct (collected_insert (phases s) i ph Pushed Hph)
    as (pre & post & Hc & Hc').
  rewrite Hold in Hc. rewrite Hnew in Hc'.
  pose proof (inv_resolve s Hinv) as Hres.
  pose proof (inv_emitted s Hinv) as Hem.
  assert (Hem' : yielded s ++ results s ++ [r]
                 ≡ₚ collected (<[i := Pushed]> (phases s))).
  { rewrite Hc'. rewrite app_assoc, Hem, Hc. simpl.
    transitivity (r :: (pre ++ post)).
    - symmetry. apply Permutation_cons_append.
    - apply Permutation_middle. }
  assert (Hlen : length (<[i := Pushed]> (phases s)) = length outs).
  { rewrite length_insert. apply (inv_len s Hinv). }
  assert (Hpend : pending s = sumZ live (<[i := Pushed]> (phases s))).
  { rewrite (sumZ_insert live _ i ph Pushed Hph), Hlive. simpl.
    rewrite <- (inv_pending s Hinv). lia. }
  assert (Hfail : forall j err, <[i := Pushed]> (phases s) !! j = Some (Failed err) ->
                                outs !! j = Some (Throw err)).
  { intros j err Hj. apply list_lookup_insert_Some in Hj as [(_ & ? & _)|(_ & Hj)];
      [discriminate | now apply (inv_failed s Hinv)]. }
  unfold notify, push, set_phase; simpl.
  destruct (gen s) eqn:Hg; [| |congruence].
  - assert (Hr : resolve s = false).
    { destruct (resolve s); [|reflexivity]. destruct Hres as [Hres _].
      specialize (Hres eq_refl). discriminate. }
    rewrite Hr. split; simpl; rewrite ?Hg; try assumption.
    + apply (inv_done s Hinv).
    + split; discriminate.
    + discriminate.
    + discriminate.
  - assert (Hr : resolve s = true) by now apply Hres.
    rewrite Hr. split; simpl; try assumption.
    + apply (inv_done s Hinv).
    + split; discriminate.
    + discriminate.
    + discriminate.
Qed.

Lemma delivered_some i :
  (i < length outs)%nat -> is_Some (delivered rt jobs outs i).
Proof.
  intros Hi. unfold delivered.
  destruct (lookup_lt_is_Some_2 outs i Hi) as [o ->].
  destruct (lookup_lt_is_Some_2 jobs i ltac:(lia)) as [job ->].
  destruct o; eauto.
Qed.

Lemma looping_unresolved s :
  inv s -> gen s <> Parked -> resolve s = false.
Proof.
  intros Hinv Hg. destruct (resolve s) eqn:Hr; [|reflexivity].
  destruct (inv_resolve s Hinv) as [H _]. now specialize (H Hr).
Qed.

Lemma step_inv ev s s' :
  inv s -> step rt jobs outs ev s = Some s' -> inv s'.
Proof.
  intros Hinv. destruct ev as [i|i|i|]; simpl.
  - (* Settle *)
    destruct (phases s !! i) as [[]|] eqn:Hph; try discriminate.
    destruct (outs !! i) as [[result|err]|] eqn:Ho; try discriminate.
    + intros [= <-]. apply (inv_push s i Running result Hinv Hph);
        try reflexivity.
      unfold Stream.contributed, delivered. now rewrite Ho.
    + intros [= <-]. unfold set_phase.
      destruct (collected_insert (phases s) i Running (Failed err) Hph)
        as (pre & post & Hc & Hc').
      split; simpl.
      * rewrite length_insert. apply (inv_len s Hinv).
      * rewrite (sumZ_insert live _ i Running _ Hph). simpl.
        rewrite <- (inv_pending s Hinv). lia.
      * apply (inv_done s Hinv).
      * apply (inv_resolve s Hinv).
      * apply (inv_parked s Hinv).
      * apply (inv_returned s Hinv).
      * intros j e Hj.
        apply list_lookup_insert_Some in Hj as [(-> & He & _)|(_ & Hj)].
        -- congruence.
        -- now apply (inv_failed s Hinv).
      * rewrite Hc'. rewrite (inv_emitted s Hinv), Hc. reflexivity.
  - (* Catch *)
    destruct (phases s !! i) as [[|err| |]|] eqn:Hph; try discriminate.
    destruct (jobs !! i) as [job|] eqn:Hjob; try discriminate.
    intros [= <-].
    apply (inv_push s i (Failed err) _ Hinv Hph); try reflexivity.
    unfold Stream.contributed, delivered.
    now rewrite (inv_failed s Hinv i err Hph), Hjob.
  - (* Finally *)
    destruct (phases s !! i) as [[]|] eqn:Hph; try discriminate.
    intros [= <-].
    destruct (live_pos_pending s i Pushed Hinv Hph ltac:(discriminate))
      as [Hd Hret].
    destruct (collected_insert (phases s) i Pushed Finished Hph)
      as (pre & post & Hc & Hc').
    assert (Hlen : length (<[i := Finished]> (phases s)) = length outs).
    { rewrite length_insert. apply (inv_len s Hinv). }
    assert (Hpend : pending s - 1 = sumZ live (<[i := Finished]> (phases s))).
    { rewrite (sumZ_insert live _ i Pushed Finished Hph). simpl.
      rewrite <- (inv_pending s Hinv). lia. }
    assert (Hfail : forall j err,
               <[i := Finished]> (phases s) !! j = Some (Failed err) ->
               outs !! j = Some (Throw err)).
    { intros j err Hj.
      apply list_lookup_insert_Some in Hj as [(_ & ? & _)|(_ & Hj)];
        [discriminate | now apply (inv_failed s Hinv)]. }
    assert (Hem : yielded s ++ results s
                  ≡ₚ collected (<[i := Finished]> (phases s))).
    { rewrite Hc'. rewrite (inv_emitted s Hinv), Hc. reflexivity. }
    unfold on_finally, set_phase; simpl.
    destruct (Z.eqb_spec (pending s - 1) 0) as [Hz|Hnz].
    + unfold notify; simpl.
      destruct (gen s) eqn:Hg; [| |congruence].
      * rewrite (looping_unresolved s Hinv) by congruence.
        split; simpl; rewrite ?Hg; try assumption.
        -- rewrite Hz. reflexivity.
        -- split; discriminate.
        -- discriminate.
        -- discriminate.
      * rewrite (proj2 (inv_resolve s Hinv) Hg).
        split; simpl; try assumption.
        -- rewrite Hz. reflexivity.
        -- split; discriminate.
        -- discriminate.
        -- discriminate.
    + split; simpl; try assumption.
      * rewrite Hd. symmetry. now apply Z.eqb_neq.
      * apply (inv_resolve s Hinv).
      * apply (inv_parked s Hinv).
      * intros Hg. congruence.
  - (* Next *)
    destruct (gen s) eqn:Hg; try discriminate. intros [= <-].
    pose proof (looping_unresolved s Hinv ltac:(congruence)) as Hr.
    unfold iterate.
    destruct (results s) as [|next rest] eqn:Hres; simpl.
    + destruct (done s) eqn:Hd; simpl.
      * split; simpl; rewrite ?Hres;
          try apply (inv_len s Hinv); try apply (inv_pending s Hinv);
          try apply (inv_failed s Hinv).
        -- rewrite <- Hd. apply (inv_done s Hinv).
        -- rewrite Hr. split; discriminate.
        -- discriminate.
        -- auto.
        -- pose proof (inv_emitted s Hinv) as He. now rewrite Hres in He.
      * split; simpl; rewrite ?Hres;
          try apply (inv_len s Hinv); try apply (inv_pending s Hinv);
          try apply (inv_failed s Hinv).
        -- rewrite <- Hd. apply (inv_done s Hinv).
        -- split; reflexivity.
        -- auto.
        -- discriminate.
        -- pose proof (inv_emitted s Hinv) as He. now rewrite Hres in He.
    + rewrite orb_true_r.
      split; simpl;
        try apply (inv_len s Hinv); try apply (inv_pending s Hinv);
        try apply (inv_failed s Hinv); try apply (inv_done s Hinv).
      * rewrite Hr. split; discriminate.
      * discriminate.
      * discriminate.
      * pose proof (inv_emitted s Hinv) as He. rewrite Hres in He.
        now rewrite <- app_assoc.
Qed.

Lemma fuel_notify s : fuel (notify s) <= fuel s + 1.
Proof.
  unfold notify, fuel. destruct (resolve s); simpl; destruct (gen s); lia.
Qed.

Lemma fuel_push s i ph r :
  phases s !! i = Some ph ->
  fuel (push r (set_phase i Pushed s)) = fuel s - 4 * weight ph + 6.
Proof.
  intros Hph. unfold fuel, push, set_phase; simpl.
  rewrite (sumZ_insert weight _ i ph Pushed Hph), length_app. simpl. lia.
Qed.

Lemma fuel_nonneg s : 0 <= fuel s.
Proof.
  unfold fuel. pose proof (sumZ_weight_nonneg (phases s)).
  destruct (gen s); lia.
Qed.

(** Every event uses up fuel, so no run goes on for ever. *)
Lemma step_fuel ev s s' :
  step rt jobs outs ev s = Some s' -> fuel s' < fuel s.
Proof.
  destruct ev as [i|i|i|]; simpl.
  - destruct (phases s !! i) as [[]|] eqn:Hph; try discriminate.
    destruct (outs !! i) as [[result|err]|]; try discriminate.
    + intros [= <-].
      pose proof (fuel_notify (push result (set_phase i Pushed s))).
      rewrite (fuel_push s i Running result Hph) in H. simpl in H. lia.
    + intros [= <-]. unfold fuel, set_phase; simpl.
      rewrite (sumZ_insert weight _ i Running _ Hph). simpl. lia.
  - destruct (phases s !! i) as [[|err| |]|] eqn:Hph; try discriminate.
    destruct (jobs !! i) as [job|]; try discriminate.
    intros [= <-].
    pose proof (fuel_notify
                  (push (caught_result rt job err) (set_phase i Pushed s))).
    rewrite (fuel_push s i (Failed err) _ Hph) in H. simpl in H. lia.
  - destruct (phases s !! i) as [[]|] eqn:Hph; try discriminate.
    intros [= <-]. unfold on_finally.
    assert (Hf : forall d,
               fuel (mkState (results s) (resolve s) d (pending s - 1)
                       (<[i := Finished]> (phases s)) (gen s) (yielded s))
               = fuel s - 4).
    { intros d. unfold fuel; simpl.
      rewrite (sumZ_insert weight _ i Pushed Finished Hph). simpl. lia. }
    simpl. destruct (pending s - 1 =? 0).
    + pose proof (fuel_notify
                    (mkState (results s) (resolve s) true (pending s - 1)
                       (<[i := Finished]> (phases s)) (gen s) (yielded s))).
      rewrite Hf in H. lia.
    + rewrite Hf. lia.
  - destruct (gen s) eqn:Hg; try discriminate. intros [= <-].
    unfold iterate, fuel. rewrite Hg.
    destruct (results s) as [|next rest]; simpl.
    + destruct (done s); simpl; lia.
    + rewrite orb_true_r. simpl. lia.
Qed.

Lemma run_inv evs : forall s s',
  inv s -> run rt jobs outs evs s = Some s' ->
  inv s' /\ fuel s' + Z.of_nat (length evs) <= fuel s.
Proof.
  induction evs as [|ev evs IH]; intros s s' Hinv; simpl.
  - intros [= <-]. split; [exact Hinv | lia].
  - destruct (step rt jobs outs ev s) as [s1|] eqn:Hstep; [|discriminate].
    intros Hrun.
    destruct (IH s1 s' (step_inv ev s s1 Hinv Hstep) Hrun) as [Hinv' Hf].
    split; [exact Hinv'|]. pose proof (step_fuel ev s s1 Hstep). lia.
Qed.

Lemma delivered_expected i :
  (i < length outs)%nat -> delivered rt jobs outs i = expected !! i.
Proof.
  intros Hi. unfold delivered, Stream.expected. rewrite lookup_zip_with.
  destruct (lookup_lt_is_Some_2 outs i Hi) as [o ->].
  destruct (lookup_lt_is_Some_2 jobs i ltac:(lia)) as [job ->].
  now destruct o.
Qed.

Lemma length_expected : length expected = length outs.
Proof. unfold Stream.expected. rewrite length_zip_with_l_eq; lia. Qed.

Lemma collected_all_finished phs : forall k,
  (forall i ph, phs !! i = Some ph -> ph = Finished) ->
  (k + length phs = length outs)%nat ->
  concat (imap (fun i => contributed (k + i)) phs) = drop k expected.
Proof.
  induction phs as [|ph phs IH]; intros k Hall Hlen; simpl.
  - symmetry. apply drop_ge. rewrite length_expected. simpl in Hlen. lia.
  - rewrite (Hall 0%nat ph eq_refl). simpl in Hlen.
    rewrite Nat.add_0_r. unfold Stream.contributed at 1.
    rewrite delivered_expected by lia.
    destruct (expected !! k) as [r|] eqn:Hr.
    2:{ apply lookup_ge_None in Hr. rewrite length_expected in Hr. lia. }
    rewrite (drop_S _ _ _ Hr). simpl. f_equal.
    rewrite <- (IH (S k)).
    + f_equal. apply imap_ext. intros j x _. simpl. f_equal. lia.
    + intros i ph' Hi. apply (Hall (S i) ph' Hi).
    + lia.
Qed.

(** When nothing can happen any more, every promise chain has finished,
    the generator has returned, and it has yielded each job's result
    exactly once. *)
Lemma quiescent_complete s :
  inv s -> quiescent rt jobs outs s ->
  gen s = Returned /\ yielded s ≡ₚ expected.
Proof.
  intros Hinv Hq.
  assert (Hall : forall i ph, phases s !! i = Some ph -> ph = Finished).
  { intros i ph Hph.
    assert (Hi : (i < length outs)%nat).
    { rewrite <- (inv_len s Hinv). now apply lookup_lt_Some in Hph. }
    destruct ph as [|err| |]; [| | |reflexivity]; exfalso.
    - pose proof (Hq (Settle i)) as H. simpl in H. rewrite Hph in H.
      destruct (lookup_lt_is_Some_2 outs i Hi) as [[r|e] Ho];
        rewrite Ho in H; discriminate.
    - pose proof (Hq (Catch i)) as H. simpl in H. rewrite Hph in H.
      destruct (lookup_lt_is_Some_2 jobs i ltac:(lia)) as [job Hj].
      rewrite Hj in H. discriminate.
    - pose proof (Hq (Finally i)) as H. simpl in H. rewrite Hph in H.
      discriminate. }
  assert (Hcol : collected (phases s) = expected).
  { unfold Stream.collected.
    pose proof (collected_all_finished (phases s) 0%nat Hall) as H.
    simpl in H. apply H. apply (inv_len s Hinv). }
  assert (Hzero : sumZ live (phases s) = 0).
  { clear Hcol. revert Hall. generalize (phases s) as phs.
    induction phs as [|ph phs IH]; intros Hall; simpl; [reflexivity|].
    rewrite (Hall 0%nat ph eq_refl). simpl. apply IH.
    intros i ph' Hi. apply (Hall (S i) ph' Hi). }
  assert (Hdone : done s = true).
  { rewrite (inv_done s Hinv), (inv_pending s Hinv), Hzero. reflexivity. }
  destruct (gen s) eqn:Hg.
  - pose proof (Hq Next) as H. simpl in H. rewrite Hg in H. discriminate.
  - destruct (inv_parked s Hinv Hg) as [_ Hd]. congruence.
  - split; [reflexivity|].
    destruct (inv_returned s Hinv Hg) as [Hres _].
    pose proof (inv_emitted s Hinv) as He.
    now rewrite Hres, app_nil_r, Hcol in He.
Qed.

Lemma sumZ_weight_replicate n :
  sumZ weight (replicate n Running) = 3 * Z.of_nat n.
Proof. induction n as [|n IH]; simpl; [reflexivity | rewrite IH; lia]. Qed.

(** For a non-empty url list the stream terminates and delivers exactly
    one result per job: a run has at most [12 * n + 1] events, and a run
    that cannot be extended has returned after yielding a permutation of
    the jobs' results. *)
Lemma stream_delivers_all urls evs s :
  length urls = length outs ->
  run rt jobs outs evs (start urls) = Some s ->
  Z.of_nat (length evs) <= 12 * Z.of_nat (length urls) + 1
  /\ (quiescent rt jobs outs s ->
      gen s = Returned /\ yielded s ≡ₚ expected
      /\ length (yielded s) = length urls).
Proof.
  intros Hlen Hrun.
  destruct (run_inv evs (start urls) s (inv_start urls Hlen) Hrun)
    as [Hinv Hfuel].
  split.
  - pose proof (fuel_nonneg s).
    assert (fuel (start urls) = 12 * Z.of_nat (length urls) + 1).
    { unfold fuel, start; simpl. rewrite sumZ_weight_replicate. lia. }
    lia.
  - intros Hq. destruct (quiescent_complete s Hinv Hq) as [Hg Hy].
    repeat split; try assumption.
    rewrite Hy, length_expected. lia.
Qed.

End StreamFacts.

Lemma stream_expected_urls rt self newJobId urls cfg envs :
  length envs = length urls ->
  res_url
    <$> Stream.expected rt (Stream.stream_jobs newJobId urls cfg)
          (Stream.stream_outs rt self
             (Stream.stream_jobs newJobId urls cfg) envs)
  = urls.
Proof.
  intros Hlen. apply list_eq. intros i.
  unfold Stream.expected, Stream.stream_outs, Stream.stream_jobs.
  rewrite list_lookup_fmap, !lookup_zip_with, list_lookup_imap.
  destruct (urls !! i) as [url|] eqn:Hurl; simpl; [|reflexivity].
  destruct (envs !! i) as [env|] eqn:Henv; simpl.
  2:{ apply lookup_ge_None in Henv. apply lookup_lt_Some in Hurl. lia. }
  destruct (processJob rt self _ env) as [r|e] eqn:Hp; simpl; [|reflexivity].
  apply processJob_ok_url in Hp as [-> _]. reflexivity.
Qed.

(** X13: [scrapeStream] on a non-empty url list: every run is finite, and
    when nothing more can happen the generator has returned after yielding
    exactly one result per url. *)
Lemma scrapeStream_delivers rt self newJobId urls cfg envs evs s :
  (0 < length urls)%nat ->
  length envs = length urls ->
  Stream.run rt (Stream.stream_jobs newJobId urls cfg)
    (Stream.stream_outs rt self (Stream.stream_jobs newJobId urls cfg) envs)
    evs (Stream.start urls) = Some s ->
  Z.of_nat (length evs) <= 12 * Z.of_nat (length urls) + 1
  /\ (Stream.quiescent rt (Stream.stream_jobs newJobId urls cfg)
        (Stream.stream_outs rt self (Stream.stream_jobs newJobId urls cfg) envs)
        s ->
      Stream.gen s = Stream.Returned
      /\ length (Stream.yielded s) = length urls
      /\ res_url <$> Stream.yielded s ≡ₚ urls).
Proof.
  intros Hpos Hlen Hrun.
  set (jobs := Stream.stream_jobs newJobId urls cfg) in *.
  set (outs := Stream.stream_outs rt self jobs envs) in *.
  assert (Hj : length jobs = length urls) by apply length_imap.
  assert (Ho : length outs = length urls).
  { unfold outs, Stream.stream_outs. rewrite length_zip_with_l_eq; lia. }
  destruct (stream_delivers_all rt jobs outs ltac:(lia) ltac:(lia) urls evs s
              ltac:(lia) Hrun) as [Hbound Hq].
  split; [exact Hbound|]. intros Hquiet.
  destruct (Hq Hquiet) as (Hg & Hy & Hl).
  repeat split; try assumption.
  rewrite Hy. unfold outs, jobs.
  now rewrite (stream_expected_urls rt self newJobId urls cfg envs Hlen).
Qed.

(** With no url the generator parks on its first iteration and no
    promise chain exists to wake it. *)
Lemma empty_stream_never_returns rt evs s :
  Stream.run rt [] [] evs (Stream.start []) = Some s ->
  Stream.gen s <> Stream.Returned /\ Stream.yielded s = [].
Proof.
  destruct evs as [|ev evs]; simpl.
  - intros [= <-]. split; [discriminate | reflexivity].
  - destruct ev as [i|i|i|]; simpl; try discriminate.
    destruct evs as [|ev evs]; simpl.
    + intros [= <-]. split; [discriminate | reflexivity].
    + destruct ev as [i|i|i|]; simpl; discriminate.
Qed.

(** C3 (the code at the failing input): for the empty url list the
    generator runs one loop iteration, finds [done] false and no result,
    and parks in [await new Promise]; in that state no event is enabled,
    so it never completes. *)
Theorem C3_empty_list_deadlocks :
  Stream.step Samples.rt_ok [] [] Stream.Next (Stream.start [])
  = Some (Stream.mkState [] true false 0 [] Stream.Parked [])
  /\ Stream.quiescent Samples.rt_ok [] []
       (Stream.mkState [] true false 0 [] Stream.Parked []).
Proof.
  split; [reflexivity|]. intros [i|i|i|]; reflexivity.
Qed.

(* ===================================================================== *)
(** ** The pool: exclusive hand-out and recycling *)
(* ===================================================================== *)

Section PoolFacts.

Import Pool.

Lemma map_get_set_eq m k v : map_get (map_set m k v) k = Some v.
Proof.
  induction m as [|[k' v'] m IH]; simpl.
  - now rewrite Nat.eqb_refl.
  - destruct (Nat.eqb_spec k' k); simpl.
    + now rewrite Nat.eqb_refl.
    + destruct (Nat.eqb_spec k' k); [contradiction | exact IH].
Qed.

Lemma map_get_set_ne m k k' v :
  k <> k' -> map_get (map_set m k v) k' = map_get m k'.
Proof.
  intros Hne. induction m as [|[k0 v0] m IH]; simpl.
  - destruct (Nat.eqb_spec k k'); [contradiction | reflexivity].
  - destruct (Nat.eqb_spec k0 k); simpl.
    + subst. destruct (Nat.eqb_spec k k'); [contradiction | reflexivity].
    + destruct (Nat.eqb_spec k0 k'); [reflexivity | exact IH].
Qed.

Lemma shape_Some p r i h :
  shape p r = Some (i, h) <->
  exists e, objs p !! r = Some e /\ id e = i /\ context e = h.
Proof.
  unfold shape. split.
  - destruct (objs p !! r) as [e|]; [|discriminate].
    intros [= <- <-]. now exists e.
  - intros (e & -> & <- & <-). reflexivity.
Qed.

Lemma shape_alter p r r' (f : BrowserPoolContext -> BrowserPoolContext) :
  (forall e, id (f e) = id e /\ context (f e) = context e) ->
  shape (with_objs p (alter f r (objs p))) r' = shape p r'.
Proof.
  intros Hf. unfold shape; simpl.
  destruct (decide (r = r')) as [->|Hne].
  - rewrite lookup_alter_eq. destruct (objs p !! r') as [e|]; simpl; [|reflexivity].
    destruct (Hf e) as [-> ->]. reflexivity.
  - now rewrite lookup_alter_ne.
Qed.

Lemma shape_mark_acquired p r r' : shape (mark_acquired r p) r' = shape p r'.
Proof. apply shape_alter. intros e. now split. Qed.

Lemma shape_mark_idle p r r' : shape (mark_idle r p) r' = shape p r'.
Proof. apply shape_alter. intros e. now split. Qed.

Lemma find_context_Some o m ctx r :
  find_context o m ctx = Some r ->
  exists e, o !! r = Some e /\ context e = ctx.
Proof.
  induction m as [|[k v] m IH]; simpl; [discriminate|].
  destruct (o !! v) as [e|] eqn:He; [|exact IH].
  destruct (Nat.eqb_spec (context e) ctx) as [Heq|Hne]; [|exact IH].
  intros [= <-]. now exists e.
Qed.


Lemma inv_exclusive p ts own : pool_inv p ts own -> exclusive ts.
Proof.
  intros Hinv t1 t2 ctx H1 H2.
  destruct (task_own _ _ _ Hinv t1 _ H1) as (r1 & i1 & Hs1 & _ & Ho1).
  destruct (task_own _ _ _ Hinv t2 _ H2) as (r2 & i2 & Hs2 & _ & Ho2).
  assert (r1 = r2) as -> by exact (handle_inj _ _ _ Hinv _ _ _ _ _ Hs1 Hs2).
  assert (i1 = i2) as -> by congruence.
  congruence.
Qed.

Lemma task_ok_own p own own' t tk :
  task_ok p own t tk ->
  (forall i, own !! i = Some (Task t) -> own' !! i = Some (Task t)) ->
  task_ok p own' t tk.
Proof.
  intros Hok Hown. destruct tk; simpl in *; try exact I;
    destruct Hok as (a & b & Hs & Hc & Ho);
    exists a, b; repeat split; auto.
Qed.

Lemma task_ok_shape p p' own t tk :
  task_ok p own t tk ->
  (forall r, shape p' r = shape p r) ->
  contexts p' = contexts p ->
  task_ok p' own t tk.
Proof.
  intros Hok Hs Hc. destruct tk; simpl in *; try exact I;
    destruct Hok as (a & b & H1 & H2 & H3);
    exists a, b; rewrite ?Hs, ?Hc; auto.
Qed.

(** Changing only [useCount] and [busy] of entries keeps the invariant. *)
Lemma inv_shape_ext p p' ts own :
  pool_inv p ts own ->
  (forall r, shape p' r = shape p r) ->
  contexts p' = contexts p -> available p' = available p ->
  waiters p' = waiters p -> nextContextId p' = nextContextId p ->
  nextRef p' = nextRef p -> nextHandle p' = nextHandle p ->
  pool_inv p' ts own.
Proof.
  intros Hinv Hs Hc Ha Hw Hn Hr Hh. split.
  - intros i r. rewrite Hc. intros H.
    destruct (wf_ctx _ _ _ Hinv i r H) as [h Hsh]. exists h. now rewrite Hs.
  - intros i r. rewrite Hc, Hn. apply (wf_ids _ _ _ Hinv).
  - intros r i h. rewrite Hs, Hr, Hh. apply (wf_obj _ _ _ Hinv).
  - intros r1 r2 i1 i2 h. rewrite !Hs. apply (handle_inj _ _ _ Hinv).
  - intros r. rewrite Ha. intros H.
    destruct (avail_own _ _ _ Hinv r H) as (i & h & H1 & H2 & H3).
    exists i, h. now rewrite Hs, Hc.
  - rewrite Ha. apply (avail_nodup _ _ _ Hinv).
  - intros w. rewrite Hw. apply (wait_task _ _ _ Hinv).
  - rewrite Hw. apply (wait_nodup _ _ _ Hinv).
  - intros t tk Ht. apply (task_ok_shape p); auto.
    apply (task_own _ _ _ Hinv t tk Ht).
Qed.

(** A call that leaves the system keeps the invariant for the others. *)
Lemma inv_delete p ts own t :
  pool_inv p ts own -> t ∉ waiters p -> pool_inv p (delete t ts) own.
Proof.
  intros Hinv Hw. split; try apply Hinv.
  - intros w Hin. rewrite lookup_delete_ne by (intros ->; contradiction).
    now apply (wait_task _ _ _ Hinv).
  - intros t' tk Ht. apply lookup_delete_Some in Ht as [Hne Ht].
    now apply (task_own _ _ _ Hinv).
Qed.

Lemma not_waiting p ts own t tk :
  pool_inv p ts own -> ts !! t = Some tk -> tk <> Waiting -> t ∉ waiters p.
Proof.
  intros Hinv Ht Hne Hin. apply (wait_task _ _ _ Hinv) in Hin. congruence.
Qed.

(** A waiter callback (or the resuming [acquire] itself) takes the entry
    of a slot that nobody else has. *)
Lemma hand_over_inv p ts own w r i h s' :
  pool_inv p ts own ->
  shape p r = Some (i, h) ->
  map_get (contexts p) i = Some r ->
  own !! i <> Some Free ->
  (forall t', t' <> w -> is_Some (ts !! t') -> own !! i <> Some (Task t')) ->
  w ∉ waiters p ->
  hand_over w r p ts = Some s' ->
  pool_inv (pool s') (tasks s') (<[i := Task w]> own)
  /\ tasks s' = <[w := Holding h]> ts
  /\ forall r', shape (pool s') r' = shape p r'.
Proof.
  intros Hinv Hsh Hcur Hfree Hothers Hw. unfold hand_over.
  destruct (proj1 (shape_Some p r i h) Hsh) as (e & He & Hid & Hctx).
  rewrite He. intros [= <-]. simpl. rewrite Hctx.
  assert (Hinv' : pool_inv (mark_acquired r p) ts own).
  { apply (inv_shape_ext p); auto. intros r'. apply shape_mark_acquired. }
  assert (Hsh' : shape (mark_acquired r p) r = Some (i, h)).
  { now rewrite shape_mark_acquired. }
  split; [|split; [reflexivity | intros r'; apply shape_mark_acquired]].
  split; try apply Hinv'.
  - intros r' Hin.
    destruct (avail_own _ _ _ Hinv' r' Hin) as (i' & h' & H1 & H2 & H3).
    exists i', h'. repeat split; auto.
    rewrite lookup_insert_ne; [exact H3 | congruence].
  - intros w' Hin. rewrite lookup_insert_ne by (intros ->; contradiction).
    now apply (wait_task _ _ _ Hinv').
  - intros t' tk Ht. apply lookup_insert_Some in Ht as [[<- <-]|[Hne Ht]].
    + exists r, i. repeat split; auto. apply lookup_insert_eq.
    + apply (task_ok_own _ own); [now apply (task_own _ _ _ Hinv')|].
      intros i' Hi'. rewrite lookup_insert_ne; [exact Hi'|].
      intros <-. apply (Hothers t'); eauto.
Qed.

(** The tail of [release]: the entry goes to the first waiter, or back
    to the idle array. *)
Lemma give_back_inv p ts own r i h s' :
  pool_inv p ts own ->
  shape p r = Some (i, h) ->
  map_get (contexts p) i = Some r ->
  own !! i <> Some Free ->
  (forall t', is_Some (ts !! t') -> own !! i <> Some (Task t')) ->
  give_back r p ts = Some s' ->
  (exists own', pool_inv (pool s') (tasks s') own')
  /\ (forall r', shape (pool s') r' = shape p r')
  /\ (forall t, ts !! t = None ->
                tasks s' !! t = None \/ tasks s' !! t = Some (Holding h)).
Proof.
  intros Hinv Hsh Hcur Hfree Hothers. unfold give_back.
  destruct (waiters p) as [|w ws] eqn:Hws.
  - intros [= <-]. simpl. split; [|split; [reflexivity | now left]].
    exists (<[i := Free]> own).
    assert (Hnotin : r ∉ available p).
    { intros Hin.
      destruct (avail_own _ _ _ Hinv r Hin) as (i' & h' & H1 & _ & H3).
      congruence. }
    split; try apply Hinv; simpl.
    + intros r' Hin. apply elem_of_app in Hin as [Hin|Hin].
      * destruct (avail_own _ _ _ Hinv r' Hin) as (i' & h' & H1 & H2 & H3).
        exists i', h'. repeat split; auto.
        rewrite lookup_insert_ne; [exact H3 | congruence].
      * apply list_elem_of_singleton in Hin as ->.
        exists i, h. repeat split; auto. apply lookup_insert_eq.
    + apply NoDup_app. repeat split.
      * apply (avail_nodup _ _ _ Hinv).
      * intros x Hx Hx'. apply list_elem_of_singleton in Hx' as ->.
        contradiction.
      * apply NoDup_singleton.
    + intros t' tk Ht. apply (task_ok_own _ own).
      * now apply (task_own _ _ _ Hinv).
      * intros i' Hi'. rewrite lookup_insert_ne; [exact Hi'|].
        intros <-. apply (Hothers t'); eauto.
  - intros Hho.
    pose proof (wait_nodup _ _ _ Hinv) as Hnd. rewrite Hws in Hnd.
    apply NoDup_cons in Hnd as [Hw Hnd].
    assert (Hinv' : pool_inv (with_waiters p ws) ts own).
    { split; try apply Hinv; simpl.
      - intros w' Hin. apply (wait_task _ _ _ Hinv). rewrite Hws.
        now apply elem_of_cons; right.
      - exact Hnd. }
    destruct (hand_over_inv (with_waiters p ws) ts own w r i h s' Hinv'
                Hsh Hcur Hfree) as (Hi & Hts & Hshape); auto.
    split; [eauto|]. split; [exact Hshape|].
    intros t Ht. rewrite Hts.
    destruct (decide (w = t)) as [->|Hne].
    + right. apply lookup_insert_eq.
    + left. now rewrite lookup_insert_ne.
Qed.

Lemma task_ok_moved p p' own t tk :
  task_ok p own t tk ->
  (forall r x, shape p r = Some x -> shape p' r = Some x) ->
  (forall i, own !! i = Some (Task t) ->
             map_get (contexts p') i = map_get (contexts p) i) ->
  task_ok p' own t tk.
Proof.
  intros Hok Hs Hc. destruct tk; simpl in *; try exact I;
    destruct Hok as (a & b & H1 & H2 & H3).
  - exists a, b. rewrite Hc by exact H3. auto.
  - exists a, b. rewrite Hc by exact H3. auto.
  - exists a, b. rewrite Hc by exact H3. auto.
  - exists a, b. rewrite Hc by exact H3. auto.
  - exists a, b. rewrite Hc by exact H3. auto.
  - exists a, b. rewrite Hc by exact H3. auto.
Qed.

(** What [recycleContext] leaves in the slot of the entry it replaces. *)
Lemma recycleContext_slot p r i h now :
  shape p r = Some (i, h) ->
  let p' := recycleContext r now p in
  objs p' !! nextRef p = Some (mkEntry (nextHandle p) false now 0 i)
  /\ contexts p' = map_set (contexts p) i (nextRef p)
  /\ (forall r', r' <> nextRef p -> objs p' !! r' = objs p !! r')
  /\ available p' = available p /\ waiters p' = waiters p
  /\ nextContextId p' = S (nextContextId p)
  /\ nextRef p' = S (nextRef p) /\ nextHandle p' = S (nextHandle p).
Proof.
  intros Hsh. destruct (proj1 (shape_Some p r i h) Hsh) as (e & He & Hid & _).
  cbv zeta. unfold recycleContext. rewrite He. simpl. rewrite Hid.
  repeat split.
  - rewrite lookup_alter_eq, lookup_insert_eq. reflexivity.
  - intros r' Hne. rewrite lookup_alter_ne, lookup_insert_ne; congruence.
Qed.

Lemma recycle_inv p ts own r i h now t tk tk' :
  pool_inv p ts own ->
  shape p r = Some (i, h) ->
  map_get (contexts p) i = Some r ->
  own !! i = Some (Task t) ->
  ts !! t = Some tk -> tk <> Waiting ->
  tk' = AcqRecycled r \/ tk' = RelRecycled r ->
  pool_inv (recycleContext r now p) (<[t := tk']> ts) own
  /\ (forall r' x, shape p r' = Some x ->
                   shape (recycleContext r now p) r' = Some x).
Proof.
  intros Hinv Hsh Hcur Hown Ht Hnw Htk'.
  destruct (recycleContext_slot p r i h now Hsh)
    as (Hnew & Hctx & Hold & Hav & Hwa & Hnid & Hnref & Hnh).
  set (p' := recycleContext r now p) in *.
  assert (Hshape_new : shape p' (nextRef p) = Some (i, nextHandle p)).
  { unfold shape. now rewrite Hnew. }
  assert (Hshape_old : forall r' x, shape p r' = Some x -> shape p' r' = Some x).
  { intros r' [i' h'] Hx. destruct (wf_obj _ _ _ Hinv r' i' h' Hx) as [Hlt _].
    unfold shape in *. rewrite Hold by lia. exact Hx. }
  assert (Hshape_inv : forall r' x, shape p' r' = Some x ->
             (r' = nextRef p /\ x = (i, nextHandle p))
             \/ (r' <> nextRef p /\ shape p r' = Some x)).
  { intros r' x Hx. destruct (decide (r' = nextRef p)) as [->|Hne].
    - left. split; [reflexivity | congruence].
    - right. split; [exact Hne|]. unfold shape in *. now rewrite <- Hold. }
  split; [|exact Hshape_old].
  split.
  - intros i' r'. rewrite Hctx. destruct (decide (i = i')) as [<-|Hne].
    + rewrite map_get_set_eq. intros [= <-]. eauto.
    + rewrite map_get_set_ne by exact Hne. intros H.
      destruct (wf_ctx _ _ _ Hinv i' r' H) as [h' Hs']. eauto.
  - intros i' r'. rewrite Hctx, Hnid. destruct (decide (i = i')) as [<-|Hne].
    + intros _. pose proof (wf_ids _ _ _ Hinv i r Hcur). lia.
    + rewrite map_get_set_ne by exact Hne. intros H.
      pose proof (wf_ids _ _ _ Hinv i' r' H). lia.
  - intros r' i' h' Hx. rewrite Hnref, Hnh.
    destruct (Hshape_inv r' _ Hx) as [[-> [= -> ->]]|[_ Hx']]; [lia|].
    destruct (wf_obj _ _ _ Hinv r' i' h' Hx'). lia.
  - intros r1 r2 i1 i2 h' H1 H2.
    destruct (Hshape_inv r1 _ H1) as [[-> [= -> ->]]|[Hn1 H1']];
      destruct (Hshape_inv r2 _ H2) as [[-> E2]|[Hn2 H2']].
    + reflexivity.
    + destruct (wf_obj _ _ _ Hinv r2 i2 _ H2'). lia.
    + injection E2 as -> ->. destruct (wf_obj _ _ _ Hinv r1 i1 _ H1'). lia.
    + exact (handle_inj _ _ _ Hinv _ _ _ _ _ H1' H2').
  - intros r'. rewrite Hav. intros Hin.
    destruct (avail_own _ _ _ Hinv r' Hin) as (i' & h' & H1 & H2 & H3).
    exists i', h'. repeat split; auto.
    rewrite Hctx, map_get_set_ne; [exact H2 | congruence].
  - rewrite Hav. apply (avail_nodup _ _ _ Hinv).
  - intros w. rewrite Hwa. intros Hin.
    rewrite lookup_insert_ne.
    + now apply (wait_task _ _ _ Hinv).
    + intros <-. apply (wait_task _ _ _ Hinv) in Hin. congruence.
  - rewrite Hwa. apply (wait_nodup _ _ _ Hinv).
  - intros t' tk'' Ht'. apply lookup_insert_Some in Ht' as [[<- <-]|[Hne Ht']].
    + assert (Hok : exists i0 h0, shape p' r = Some (i0, h0)
                       /\ is_Some (map_get (contexts p') i0)
                       /\ own !! i0 = Some (Task t)).
      { exists i, h. repeat split; auto.
        rewrite Hctx, map_get_set_eq. eauto. }
      destruct Htk' as [-> | ->]; exact Hok.
    + apply (task_ok_moved p); auto.
      * now apply (task_own _ _ _ Hinv).
      * intros i' Hi'. rewrite Hctx, map_get_set_ne; [reflexivity | congruence].
Qed.

Lemma inv_retask p ts own t tk tk' :
  pool_inv p ts own ->
  ts !! t = Some tk -> tk <> Waiting ->
  task_ok p own t tk' ->
  pool_inv p (<[t := tk']> ts) own.
Proof.
  intros Hinv Ht Hnw Hok. split; try apply Hinv.
  - intros w Hin. rewrite lookup_insert_ne.
    + now apply (wait_task _ _ _ Hinv).
    + intros <-. apply (wait_task _ _ _ Hinv) in Hin. congruence.
  - intros t' tk'' Ht'. apply lookup_insert_Some in Ht' as [[<- <-]|[Hne Ht']].
    + exact Hok.
    + now apply (task_own _ _ _ Hinv).
Qed.

Lemma pop_available_spec p :
  match pop_available p with
  | (None, p') => available p = [] /\ p' = p
  | (Some r, p') =>
      exists rest, available p = rest ++ [r] /\ p' = with_available p rest
  end.
Proof.
  unfold pop_available. destruct (rev (available p)) as [|r rest] eqn:Hrev.
  - split; [|reflexivity]. apply (f_equal (@rev nat)) in Hrev.
    now rewrite rev_involutive in Hrev.
  - exists (rev rest). split; [|reflexivity].
    apply (f_equal (@rev nat)) in Hrev. now rewrite rev_involutive in Hrev.
Qed.

(** Every event keeps the invariant, and never changes the slot id or
    the handle of an entry object already in the store. *)
Lemma pool_step_inv maxUses ev s s' own :
  pool_inv (pool s) (tasks s) own ->
  step maxUses ev s = Some s' ->
  (exists own', pool_inv (pool s') (tasks s') own')
  /\ (forall r x, shape (pool s) r = Some x -> shape (pool s') r = Some x).
Proof.
  intros Hinv. destruct s as [p ts]. simpl in Hinv.
  destruct ev as [t|t|t|t now|t|t|t]; simpl.
  - (* Acquire *)
    destruct (ts !! t) as [tk|] eqn:Ht; [discriminate|].
    assert (Htw : t ∉ waiters p).
    { intros Hin. apply (wait_task _ _ _ Hinv) in Hin. congruence. }
    pose proof (pop_available_spec p) as Hpop. unfold acquire.
    destruct (pop_available p) as [[r|] p'].
    + destruct Hpop as (rest & Hav & ->). intros [= <-]. simpl.
      split; [|auto].
      pose proof (avail_nodup _ _ _ Hinv) as Hnd. rewrite Hav in Hnd.
      apply NoDup_app in Hnd as (Hnd & Hdisj & _).
      destruct (avail_own _ _ _ Hinv r) as (i & h & Hsh & Hcur & Hown).
      { rewrite Hav. apply elem_of_app. right. now apply list_elem_of_singleton. }
      exists (<[i := Task t]> own).
      split; try apply Hinv; simpl.
      * intros r' Hin.
        destruct (avail_own _ _ _ Hinv r') as (i' & h' & H1 & H2 & H3).
        { rewrite Hav. apply elem_of_app. now left. }
        exists i', h'. repeat split; auto.
        rewrite lookup_insert_ne; [exact H3|].
        intros <-. assert (r' = r) as -> by congruence.
        apply (Hdisj r Hin). now apply list_elem_of_singleton.
      * exact Hnd.
      * intros w Hin. rewrite lookup_insert_ne.
        -- now apply (wait_task _ _ _ Hinv).
        -- intros <-. contradiction.
      * intros t' tk Ht'.
        apply lookup_insert_Some in Ht' as [[<- <-]|[Hne Ht']].
        -- exists i, h. repeat split; auto. apply lookup_insert_eq.
        -- apply (task_ok_own _ own); [now apply (task_own _ _ _ Hinv)|].
           intros i' Hi'. rewrite lookup_insert_ne; [exact Hi' | congruence].
    + destruct Hpop as [_ ->]. intros [= <-]. simpl. split; [|auto].
      exists own. split; try apply Hinv; simpl.
      * intros w Hin. apply elem_of_app in Hin as [Hin|Hin].
        -- rewrite lookup_insert_ne; [now apply (wait_task _ _ _ Hinv)|].
           intros <-. contradiction.
        -- apply list_elem_of_singleton in Hin as ->. apply lookup_insert_eq.
      * apply NoDup_app. repeat split.
        -- apply (wait_nodup _ _ _ Hinv).
        -- intros x Hx Hx'. apply list_elem_of_singleton in Hx' as ->.
           contradiction.
        -- apply NoDup_singleton.
      * intros t' tk Ht'.
        apply lookup_insert_Some in Ht' as [[<- <-]|[Hne Ht']]; [exact I|].
        now apply (task_own _ _ _ Hinv).
  - (* ProbeOk *)
    destruct (ts !! t) as [[r| | | | | |]|] eqn:Ht; try discriminate.
    destruct (task_own _ _ _ Hinv t _ Ht) as (i & h & Hsh & Hcur & Hown).
    intros Hho.
    assert (H1 : own !! i <> Some Free) by congruence.
    assert (H2 : forall t', t' <> t -> is_Some (ts !! t') ->
                            own !! i <> Some (Task t')) by (intros; congruence).
    assert (H3 : t ∉ waiters p).
    { apply (not_waiting p ts own t _ Hinv Ht). discriminate. }
    destruct (hand_over_inv p ts own t r i h s' Hinv Hsh Hcur H1 H2 H3 Hho)
      as (Hi & _ & Hs).
    split; [eauto|]. intros r' x. now rewrite Hs.
  - (* ProbeFail *)
    destruct (ts !! t) as [[r| | | | | |]|] eqn:Ht; try discriminate.
    intros [= <-]. simpl. split; [|auto]. exists own.
    apply (inv_retask p ts own t (Probing r) _ Hinv Ht); [discriminate|].
    exact (task_own _ _ _ Hinv t _ Ht).
  - (* Created *)
    destruct (ts !! t) as [[|r| | | |r|]|] eqn:Ht; try discriminate;
      intros [= <-]; simpl;
      destruct (task_own _ _ _ Hinv t _ Ht) as (i & h & Hsh & Hcur & Hown).
    + destruct (recycle_inv p ts own r i h now t _ (AcqRecycled r) Hinv Hsh
                  Hcur Hown Ht ltac:(discriminate) ltac:(now left))
        as [Hi Hs].
      split; eauto.
    + destruct (recycle_inv p ts own r i h now t _ (RelRecycled r) Hinv Hsh
                  Hcur Hown Ht ltac:(discriminate) ltac:(now right))
        as [Hi Hs].
      split; eauto.
  - (* CreateFailed *)
    destruct (ts !! t) as [[|r| | | |r|]|] eqn:Ht; try discriminate;
      intros [= <-]; simpl; (split; [|auto]); exists own;
      (apply inv_delete; [exact Hinv|]);
      apply (not_waiting p ts own t _ Hinv Ht); discriminate.
  - (* Continue *)
    destruct (ts !! t) as [[| |r| | | |r]|] eqn:Ht; try discriminate;
      destruct (task_own _ _ _ Hinv t _ Ht) as (i & h & Hsh & [fresh Hcur] & Hown);
      destruct (proj1 (shape_Some p r i h) Hsh) as (e & He & Hid & Hctx);
      unfold acquire_resume, release_then; rewrite He, Hid, Hcur;
      destruct (wf_ctx _ _ _ Hinv i fresh Hcur) as [hf Hshf];
      intros Hstep.
    + assert (H1 : own !! i <> Some Free) by congruence.
      assert (H2 : forall t', t' <> t -> is_Some (ts !! t') ->
                              own !! i <> Some (Task t')) by (intros; congruence).
      assert (H3 : t ∉ waiters p).
      { apply (not_waiting p ts own t _ Hinv Ht). discriminate. }
      destruct (hand_over_inv p ts own t fresh i hf s' Hinv Hshf Hcur H1 H2 H3
                  Hstep) as (Hi & _ & Hs).
      split; [eauto|]. intros r' x. now rewrite Hs.
    + assert (Htw : t ∉ waiters p).
      { apply (not_waiting p ts own t _ Hinv Ht). discriminate. }
      assert (H1 : own !! i <> Some Free) by congruence.
      assert (H2 : forall t', is_Some (delete t ts !! t') ->
                              own !! i <> Some (Task t')).
      { intros t' [tk' Ht']. apply lookup_delete_Some in Ht' as [Hne _].
        congruence. }
      destruct (give_back_inv p (delete t ts) own fresh i hf s'
                  (inv_delete p ts own t Hinv Htw) Hshf Hcur H1 H2 Hstep)
        as (Hi & Hs & _).
      split; [exact Hi|]. intros r' x. now rewrite Hs.
  - (* Release *)
    destruct (ts !! t) as [[| | | |ctx| |]|] eqn:Ht; try discriminate.
    assert (Htw : t ∉ waiters p).
    { apply (not_waiting p ts own t _ Hinv Ht). discriminate. }
    unfold release.
    destruct (find_context (objs p) (contexts p) ctx) as [r'|] eqn:Hfind.
    2:{ intros [= <-]. simpl. split; [|auto]. exists own.
        now apply inv_delete. }
    destruct (task_own _ _ _ Hinv t _ Ht) as (r & i & Hsh & Hcur & Hown).
    destruct (find_context_Some _ _ _ _ Hfind) as (e' & He' & Hctx').
    assert (r' = r) as ->.
    { apply (handle_inj _ _ _ Hinv r' r (id e') i ctx); [|exact Hsh].
      apply shape_Some. now exists e'. }
    assert (Hinv1 : pool_inv (mark_idle r p) ts own).
    { apply (inv_shape_ext p); auto. intros r'. apply shape_mark_idle. }
    assert (Hsh1 : shape (mark_idle r p) r = Some (i, ctx)).
    { now rewrite shape_mark_idle. }
    destruct (proj1 (shape_Some _ r i ctx) Hsh1) as (e1 & He1 & Hid1 & Hctx1).
    change (alter _ r (objs p) !! r) with (objs (mark_idle r p) !! r).
    rewrite He1.
    destruct (needsRecycle maxUses e1).
    + intros [= <-]. simpl. split.
      * exists own.
        apply (inv_retask _ ts own t (Holding ctx) _ Hinv1 Ht); [discriminate|].
        exists i, ctx. repeat split; auto.
      * intros r' x. now rewrite shape_mark_idle.
    + intros Hgb.
      assert (H1 : own !! i <> Some Free) by congruence.
      assert (H2 : forall t', is_Some (delete t ts !! t') ->
                              own !! i <> Some (Task t')).
      { intros t' [tk' Ht']. apply lookup_delete_Some in Ht' as [Hne _].
        congruence. }
      destruct (give_back_inv (mark_idle r p) (delete t ts) own r i ctx s'
                  (inv_delete _ ts own t Hinv1 Htw) Hsh1 Hcur H1 H2 Hgb)
        as (Hi & Hs & _).
      split; [exact Hi|]. intros r' x. now rewrite Hs, shape_mark_idle.
Qed.

Lemma pool_run_inv maxUses evs : forall s s' own,
  pool_inv (pool s) (tasks s) own ->
  run maxUses evs s = Some s' ->
  (exists own', pool_inv (pool s') (tasks s') own')
  /\ (forall r x, shape (pool s) r = Some x -> shape (pool s') r = Some x).
Proof.
  induction evs as [|ev evs IH]; intros s s' own Hinv; simpl.
  - intros [= <-]. eauto.
  - destruct (step maxUses ev s) as [s1|] eqn:Hstep; [|discriminate].
    intros Hrun.
    destruct (pool_step_inv maxUses ev s s1 own Hinv Hstep) as [[own1 H1] Hs1].
    destruct (IH s1 s' own1 H1 Hrun) as [H2 Hs2].
    split; [exact H2 | auto].
Qed.

Lemma initialize_one_inv now p own :
  pool_inv p ∅ own ->
  pool_inv (initialize_one now p) ∅ (<[nextContextId p := Free]> own).
Proof.
  intros Hinv. unfold initialize_one. simpl. rewrite lookup_insert_eq. simpl.
  set (r0 := nextRef p). set (i0 := nextContextId p).
  set (p' := with_available _ _).
  assert (Hnew : shape p' r0 = Some (i0, nextHandle p)).
  { unfold shape, p'. simpl. now rewrite lookup_insert_eq. }
  assert (Hold : forall r x, shape p r = Some x -> shape p' r = Some x).
  { intros r [i h] Hx. destruct (wf_obj _ _ _ Hinv r i h Hx) as [Hlt _].
    unfold shape, p' in *. simpl. rewrite lookup_insert_ne; [exact Hx|].
    unfold r0. lia. }
  assert (Hcases : forall r x, shape p' r = Some x ->
             (r = r0 /\ x = (i0, nextHandle p))
             \/ (r <> r0 /\ shape p r = Some x)).
  { intros r x Hx. destruct (decide (r = r0)) as [->|Hne].
    - left. split; [reflexivity | congruence].
    - right. split; [exact Hne|]. unfold shape, p' in *. simpl in Hx.
      now rewrite lookup_insert_ne in Hx by congruence. }
  split; simpl.
  - intros i r. destruct (decide (i0 = i)) as [<-|Hne].
    + rewrite map_get_set_eq. intros [= <-]. eauto.
    + rewrite map_get_set_ne by exact Hne. intros H.
      destruct (wf_ctx _ _ _ Hinv i r H) as [h Hs]. eauto.
  - intros i r. destruct (decide (i0 = i)) as [<-|Hne].
    + intros _. unfold i0. lia.
    + rewrite map_get_set_ne by exact Hne. intros H.
      pose proof (wf_ids _ _ _ Hinv i r H). lia.
  - intros r i h Hx.
    destruct (Hcases r _ Hx) as [[-> [= -> ->]]|[_ Hx']]; [unfold r0; lia|].
    destruct (wf_obj _ _ _ Hinv r i h Hx'). lia.
  - intros r1 r2 i1 i2 h H1 H2.
    destruct (Hcases r1 _ H1) as [[-> [= -> ->]]|[Hn1 H1']];
      destruct (Hcases r2 _ H2) as [[-> E2]|[Hn2 H2']].
    + reflexivity.
    + destruct (wf_obj _ _ _ Hinv r2 i2 _ H2'). lia.
    + injection E2 as -> ->. destruct (wf_obj _ _ _ Hinv r1 i1 _ H1'). lia.
    + exact (handle_inj _ _ _ Hinv _ _ _ _ _ H1' H2').
  - intros r Hin. apply elem_of_app in Hin as [Hin|Hin].
    + destruct (avail_own _ _ _ Hinv r Hin) as (i & h & H1 & H2 & H3).
      pose proof (wf_ids _ _ _ Hinv i r H2) as Hlt.
      exists i, h. repeat split; auto.
      * rewrite map_get_set_ne; [exact H2 | unfold i0; lia].
      * rewrite lookup_insert_ne; [exact H3 | unfold i0; lia].
    + apply list_elem_of_singleton in Hin as ->.
      exists i0, (nextHandle p). repeat split; auto.
      * apply map_get_set_eq.
      * apply lookup_insert_eq.
  - apply NoDup_app. repeat split.
    + apply (avail_nodup _ _ _ Hinv).
    + intros r Hin Hr0. apply list_elem_of_singleton in Hr0 as ->.
      destruct (avail_own _ _ _ Hinv r0 Hin) as (i & h & H1 & _ & _).
      destruct (wf_obj _ _ _ Hinv r0 i h H1). unfold r0 in *. lia.
    + apply NoDup_singleton.
  - apply (wait_task _ _ _ Hinv).
  - apply (wait_nodup _ _ _ Hinv).
  - intros t tk Ht. rewrite lookup_empty in Ht. discriminate.
Qed.

Lemma boot_inv poolSize now :
  exists own, pool_inv (pool (boot poolSize now)) (tasks (boot poolSize now)) own.
Proof.
  unfold boot, initialize; simpl.
  assert (H0 : pool_inv empty_pool ∅ ∅).
  { split; simpl.
    - discriminate.
    - discriminate.
    - intros r i h H. unfold shape in H. simpl in H.
      rewrite lookup_empty in H. discriminate.
    - intros r1 r2 i1 i2 h H. unfold shape in H. simpl in H.
      rewrite lookup_empty in H. discriminate.
    - intros r Hin. inversion Hin.
    - apply NoDup_nil_2.
    - intros w Hin. inversion Hin.
    - apply NoDup_nil_2.
    - intros t tk Ht. rewrite lookup_empty in Ht. discriminate. }
  revert H0. generalize empty_pool as p. generalize (∅ : gmap nat owner) as own.
  induction (Z.to_nat poolSize) as [|n IH]; intros own p Hinv; simpl.
  - eauto.
  - apply (IH _ _ (initialize_one_inv now p own Hinv)).
Qed.

(** C4: in every run of the pool from its start-up ([acquire] calls,
    health probes that pass or fail, recycling that completes or fails,
    resumptions of waiters, and [release] calls by the holders), no two
    calls hold the same context: a handle that [acquire] has returned and
    that has not been released was returned to one call only. *)
Theorem C4_acquire_is_exclusive
    (poolSize now maxUses : Z) (evs : list event) (s : sys) :
  run maxUses evs (boot poolSize now) = Some s ->
  forall t1 t2 ctx,
    tasks s !! t1 = Some (Holding ctx) ->
    tasks s !! t2 = Some (Holding ctx) ->
    t1 = t2.
Proof.
  intros Hrun. destruct (boot_inv poolSize now) as [own0 H0].
  destruct (pool_run_inv maxUses evs _ s own0 H0 Hrun) as [[own Hinv] _].
  exact (inv_exclusive _ _ _ Hinv).
Qed.



End PoolFacts.

Lemma C4_acquire_is_exclusive_witness :
  Pool.tasks (Samples.pool_after 50 Samples.busy_run) !! 3%nat
  = Some (Pool.Holding 1)
  /\ Pool.tasks (Samples.pool_after 50 Samples.busy_run) !! 2%nat
     = Some (Pool.Holding 0)
  /\ 3%nat = 3%nat.
Proof.
  split; [vm_compute; reflexivity|]. split; [vm_compute; reflexivity|].
  apply (C4_acquire_is_exclusive 2 0 50 Samples.busy_run
           (Samples.pool_after 50 Samples.busy_run)
           ltac:(vm_compute; reflexivity) 3%nat 3%nat 1%nat).
  - vm_compute; reflexivity.
  - vm_compute; reflexivity.
Defined.


(* ===================================================================== *)
(** ** The throttle table and runs without overlap *)
(* ===================================================================== *)

Section PacingFacts.

Import Throttle Pacing.

Variable hostname : string -> option string.

Lemma record_lookup_iff (tbl : gmap string Z) (h : string)
    (t_set t_cutoff : Z) (k : string) (v : Z) :
  throttleDomain_record tbl h t_set t_cutoff !! k = Some v
  <-> <[h := t_set]> tbl !! k = Some v
      /\ (Z.of_nat (size (<[h := t_set]> tbl)) <= 100
          \/ t_cutoff - 60000 <= v).
Proof.
  unfold throttleDomain_record.
  destruct (100 <? Z.of_nat (size (<[h:=t_set]> tbl))) eqn:Hsz.
  - apply Z.ltb_lt in Hsz. rewrite map_lookup_filter_Some. simpl.
    split; intros [H1 H2]; (split; [exact H1|]); [right|]; lia.
  - apply Z.ltb_ge in Hsz. split; [intros H1; split; [exact H1 | left; lia]|].
    now intros [H1 _].
Qed.







(** X1: the table after [set] and the pruning pass holds exactly the
    entries of the updated table that are kept: all of them while the table
    has at most 100 hosts, and otherwise those not older than 60 s at the
    cutoff reading.  The host just recorded is kept whenever the cutoff is
    read less than 60 s after its timestamp. *)
Theorem throttle_pruning_keeps_recent (tbl : gmap string Z) (h : string)
    (t_set t_cutoff : Z) :
  (forall k v,
      throttleDomain_record tbl h t_set t_cutoff !! k = Some v
      <-> <[h := t_set]> tbl !! k = Some v
          /\ (Z.of_nat (size (<[h := t_set]> tbl)) <= 100
              \/ t_cutoff - 60000 <= v))
  /\ (t_cutoff - 60000 <= t_set ->
      throttleDomain_record tbl h t_set t_cutoff !! h = Some t_set).
Proof.
  split; [intros k v; apply record_lookup_iff|].
  intros Hc. apply record_lookup_iff. split; [apply lookup_insert_eq|].
  now right.
Qed.


End PacingFacts.

(* ===================================================================== *)
(** ** The pool: size, waiting and use counters *)
(* ===================================================================== *)

Section PoolViewFacts.

Import Pool PoolStats.

(** An invariant that every event keeps, given the ownership invariant,
    holds after every run. *)
Lemma pool_run_ind (P : sys -> Prop) maxUses :
  (forall ev s s' own,
      pool_inv (pool s) (tasks s) own -> P s ->
      step maxUses ev s = Some s' -> P s') ->
  forall evs s s' own,
    pool_inv (pool s) (tasks s) own -> P s ->
    run maxUses evs s = Some s' -> P s'.
Proof.
  intros Hstep. induction evs as [|ev evs IH]; intros s s' own Hinv HP; simpl.
  - now intros [= <-].
  - destruct (step maxUses ev s) as [s1|] eqn:Hs; [|discriminate].
    intros Hrun.
    destruct (pool_step_inv maxUses ev s s1 own Hinv Hs) as [[own1 H1] _].
    apply (IH s1 s' own1 H1); [|exact Hrun].
    exact (Hstep ev s s1 own Hinv HP Hs).
Qed.

(** *** Waiting and idling *)

Lemma hand_over_lists w r p ts s' :
  hand_over w r p ts = Some s' ->
  available (pool s') = available p /\ waiters (pool s') = waiters p
  /\ contexts (pool s') = contexts p
  /\ tasks s' !! w = Some (Holding (default 0%nat (context <$> objs p !! r))).
Proof.
  unfold hand_over. destruct (objs p !! r) as [e|]; [|discriminate].
  intros [= <-]. simpl. repeat split. apply lookup_insert_eq.
Qed.

(** X5: the queue of waiters is first in, first out.  An event leaves the
    queue as it is, or appends the caller of [acquire] at its tail (only
    when no context is idle), or removes its head, and the call removed
    then holds a context. *)
Theorem pool_waiters_fifo (maxUses : Z) (ev : event) (s s' : sys) :
  step maxUses ev s = Some s' ->
  waiters (pool s') = waiters (pool s)
  \/ (exists t, ev = Acquire t /\ available (pool s) = []
                /\ waiters (pool s') = waiters (pool s) ++ [t]
                /\ tasks s' !! t = Some Waiting)
  \/ (exists w ctx, waiters (pool s) = w :: waiters (pool s')
                    /\ tasks s' !! w = Some (Holding ctx)).
Proof.
  destruct s as [p ts].
  assert (Hgb : forall r p0 ts0 s0,
             give_back r p0 ts0 = Some s0 ->
             waiters (pool s0) = waiters p0
             \/ (exists w ctx, waiters p0 = w :: waiters (pool s0)
                               /\ tasks s0 !! w = Some (Holding ctx))).
  { intros r p0 ts0 s0. unfold give_back.
    destruct (waiters p0) as [|w ws] eqn:Hw.
    - intros [= <-]. now left.
    - intros Hho. right.
      destruct (hand_over_lists _ _ _ _ _ Hho) as (_ & Hws & _ & Ht).
      simpl in Hws. rewrite Hws. eauto. }
  destruct ev as [t|t|t|t now|t|t|t]; simpl.
  - destruct (ts !! t); [discriminate|]. intros [= <-].
    pose proof (pop_available_spec p) as Hpop. unfold acquire.
    destruct (pop_available p) as [[r|] p'].
    + destruct Hpop as (rest & _ & ->). now left.
    + destruct Hpop as [Hav _]. right; left. exists t. simpl.
      repeat split; auto. apply lookup_insert_eq.
  - destruct (ts !! t) as [[r| | | | | |]|]; try discriminate.
    intros Hho. left. now destruct (hand_over_lists _ _ _ _ _ Hho) as (_ & -> & _).
  - destruct (ts !! t) as [[r| | | | | |]|]; try discriminate.
    intros [= <-]. now left.
  - destruct (ts !! t) as [[|r| | | |r|]|]; try discriminate;
      intros [= <-]; left; simpl; unfold recycleContext;
      destruct (objs p !! r); reflexivity.
  - destruct (ts !! t) as [[|r| | | |r|]|]; try discriminate;
      intros [= <-]; now left.
  - destruct (ts !! t) as [[| |r| | | |r]|]; try discriminate.
    + unfold acquire_resume. destruct (objs p !! r) as [e|]; [|discriminate].
      destruct (map_get (contexts p) (id e)); intros Hho; left;
        now destruct (hand_over_lists _ _ _ _ _ Hho) as (_ & -> & _).
    + unfold release_then. destruct (objs p !! r) as [e|]; [|discriminate].
      destruct (map_get (contexts p) (id e)).
      * intros H. destruct (Hgb _ _ _ _ H) as [E|E]; [now left|].
        right; right. exact E.
      * intros [= <-]. now left.
  - destruct (ts !! t) as [[| | | |ctx| |]|]; try discriminate.
    unfold release.
    destruct (find_context (objs p) (contexts p) ctx) as [r|].
    2:{ intros [= <-]. now left. }
    destruct (objs (mark_idle r p) !! r) as [e|]; [|discriminate].
    destruct (needsRecycle maxUses e).
    + intros [= <-]. now left.
    + intros H. destruct (Hgb _ _ _ _ H) as [E|E]; [now left|].
      right; right. exact E.
Qed.

(** Every event leaves the idle array or the queue of waiters empty. *)
Lemma step_idle_or_waiting maxUses ev s s' :
  available (pool s) = [] \/ waiters (pool s) = [] ->
  step maxUses ev s = Some s' ->
  available (pool s') = [] \/ waiters (pool s') = [].
Proof.
  destruct s as [p ts]. simpl. intros Hiw.
  assert (Hgb : forall r p0 ts0 s0,
             available p0 = [] \/ waiters p0 = [] ->
             give_back r p0 ts0 = Some s0 ->
             available (pool s0) = [] \/ waiters (pool s0) = []).
  { intros r p0 ts0 s0 H0. unfold give_back.
    destruct (waiters p0) as [|w ws] eqn:Hw.
    - intros [= <-]. now right.
    - intros Hho. destruct H0 as [H0|H0]; [|discriminate].
      destruct (hand_over_lists _ _ _ _ _ Hho) as (Hav & _). simpl in Hav.
      left. congruence. }
  assert (Hho : forall w r s0,
             hand_over w r p ts = Some s0 ->
             available (pool s0) = [] \/ waiters (pool s0) = []).
  { intros w r s0 H. destruct (hand_over_lists _ _ _ _ _ H) as (-> & -> & _).
    exact Hiw. }
  destruct ev as [t|t|t|t now|t|t|t]; simpl.
  - destruct (ts !! t); [discriminate|]. intros [= <-].
    pose proof (pop_available_spec p) as Hpop. unfold acquire.
    destruct (pop_available p) as [[r|] p'].
    + destruct Hpop as (rest & Hav & ->). simpl.
      destruct Hiw as [Hiw|Hiw]; [|now right].
      rewrite Hiw in Hav. now destruct rest.
    + destruct Hpop as [Hav _]. now left.
  - destruct (ts !! t) as [[r| | | | | |]|]; try discriminate. apply Hho.
  - destruct (ts !! t) as [[r| | | | | |]|]; try discriminate.
    now intros [= <-].
  - destruct (ts !! t) as [[|r| | | |r|]|]; try discriminate;
      intros [= <-]; simpl; unfold recycleContext;
      destruct (objs p !! r); exact Hiw.
  - destruct (ts !! t) as [[|r| | | |r|]|]; try discriminate;
      now intros [= <-].
  - destruct (ts !! t) as [[| |r| | | |r]|]; try discriminate.
    + unfold acquire_resume. destruct (objs p !! r) as [e|]; [|discriminate].
      destruct (map_get (contexts p) (id e)); apply Hho.
    + unfold release_then. destruct (objs p !! r) as [e|]; [|discriminate].
      destruct (map_get (contexts p) (id e)).
      * now apply Hgb.
      * now intros [= <-].
  - destruct (ts !! t) as [[| | | |ctx| |]|]; try discriminate.
    unfold release.
    destruct (find_context (objs p) (contexts p) ctx) as [r|].
    2:{ now intros [= <-]. }
    destruct (objs (mark_idle r p) !! r) as [e|]; [|discriminate].
    destruct (needsRecycle maxUses e).
    + now intros [= <-].
    + now apply Hgb.
Qed.

Lemma initialize_loop_waiters n now p :
  waiters (initialize_loop n now p) = waiters p.
Proof.
  revert p. induction n as [|n IH]; intros p; simpl; [reflexivity|].
  rewrite IH. unfold initialize_one. simpl. now rewrite lookup_insert_eq.
Qed.

(** *** The slots *)













(** *** Use counters and busy flags *)

Lemma shape_of_entry p r e :
  objs p !! r = Some e -> shape p r = Some (id e, context e).
Proof. intros H. unfold shape. now rewrite H. Qed.

Lemma inv_shift_waiters p ts own w ws :
  pool_inv p ts own -> waiters p = w :: ws ->
  pool_inv (with_waiters p ws) ts own.
Proof.
  intros Hinv Hws.
  pose proof (wait_nodup _ _ _ Hinv) as Hnd. rewrite Hws in Hnd.
  apply NoDup_cons in Hnd as [Hw Hnd].
  split; try apply Hinv; simpl.
  - intros w' Hin. apply (wait_task _ _ _ Hinv). rewrite Hws.
    now apply elem_of_cons; right.
  - exact Hnd.
Qed.

Lemma use_hand_over m p ts own w r i h e s' :
  pool_inv p ts own ->
  use_inv m (mkSys p ts) ->
  shape p r = Some (i, h) ->
  map_get (contexts p) i = Some r ->
  own !! i <> Some Free ->
  (forall t', t' <> w -> is_Some (ts !! t') -> own !! i <> Some (Task t')) ->
  objs p !! r = Some e ->
  0 <= useCount e -> (0 < m -> useCount e < m) ->
  hand_over w r p ts = Some s' ->
  use_inv m s'.
Proof.
  intros Hinv Huse Hsh Hcur Hfree Hothers He H0 Hm. unfold hand_over.
  rewrite He. intros [= <-].
  pose proof (shape_of_entry p r e He) as Hsh'.
  assert (Hid : id e = i) by congruence.
  assert (Hctx : context e = h) by congruence.
  assert (Hne : forall r', r' <> r ->
            objs (mark_acquired r p) !! r' = objs p !! r').
  { intros r' Hr'. unfold mark_acquired. simpl. now rewrite lookup_alter_ne. }
  assert (Heq : objs (mark_acquired r p) !! r
                = Some (mkEntry (context e) true (createdAt e)
                          (useCount e + 1) (id e))).
  { unfold mark_acquired. simpl. now rewrite lookup_alter_eq, He. }
  split; simpl.
  - intros r' Hin. destruct (use_avail _ _ Huse r' Hin) as (e' & He' & Hok).
    simpl in He'. exists e'. split; [|exact Hok]. rewrite Hne; [exact He'|].
    intros ->. destruct (avail_own _ _ _ Hinv r Hin) as (i' & h' & H1 & _ & H3).
    apply Hfree. congruence.
  - intros t' tk Ht. apply lookup_insert_Some in Ht as [[<- <-]|[Hnw Ht]].
    + intros r0 e0 He0 Hc0. destruct (decide (r0 = r)) as [->|Hr0].
      * rewrite Heq in He0. injection He0 as <-. repeat split; simpl; lia.
      * rewrite Hne in He0 by exact Hr0. exfalso. apply Hr0.
        apply (handle_inj _ _ _ Hinv r0 r (id e0) i h); [|exact Hsh].
        rewrite (shape_of_entry p r0 e0 He0). congruence.
    + pose proof (use_task _ _ Huse t' tk Ht) as Hok.
      pose proof (task_own _ _ _ Hinv t' tk Ht) as Hown.
      assert (Hmine : forall i', own !! i' = Some (Task t') -> i' <> i).
      { intros i' Hi' ->. apply (Hothers t'); eauto. }
      destruct tk as [r'|r'|r'| |ctx'|r'|r']; simpl in *; try exact I.
      * destruct Hok as (e' & He' & Hi). exists e'. split; [|exact Hi].
        rewrite Hne; [exact He'|]. intros ->.
        destruct Hown as (i' & h' & H1 & _ & H3). apply (Hmine i' H3).
        congruence.
      * destruct Hown as (i' & h' & H1 & _ & H3).
        assert (Hr' : r' <> r).
        { intros ->. apply (Hmine i' H3). congruence. }
        intros e1 f He1 Hf. rewrite Hne in He1 by exact Hr'.
        destruct (Hok e1 f He1 Hf) as (ef & Hef & Hidle).
        exists ef. split; [|exact Hidle]. rewrite Hne; [exact Hef|].
        intros ->. rewrite (shape_of_entry p r' e1 He1) in H1.
        injection H1 as E1 _. rewrite E1 in Hf.
        destruct (wf_ctx _ _ _ Hinv i' r Hf) as [h0 Hs0].
        apply (Hmine i' H3). congruence.
      * destruct Hown as (r'' & i'' & H1 & _ & H3).
        intros r0 e0 He0 Hc0. destruct (decide (r0 = r)) as [->|Hr0].
        -- exfalso. rewrite Heq in He0. injection He0 as <-. simpl in Hc0.
           assert (r'' = r).
           { apply (handle_inj _ _ _ Hinv r'' r i'' i h); congruence. }
           subst r''. apply (Hmine i'' H3). congruence.
        -- rewrite Hne in He0 by exact Hr0. exact (Hok r0 e0 He0 Hc0).
      * destruct Hown as (i' & h' & H1 & _ & H3).
        assert (Hr' : r' <> r).
        { intros ->. apply (Hmine i' H3). congruence. }
        intros e1 f He1 Hf. rewrite Hne in He1 by exact Hr'.
        destruct (Hok e1 f He1 Hf) as (ef & Hef & Hidle).
        exists ef. split; [|exact Hidle]. rewrite Hne; [exact Hef|].
        intros ->. rewrite (shape_of_entry p r' e1 He1) in H1.
        injection H1 as E1 _. rewrite E1 in Hf.
        destruct (wf_ctx _ _ _ Hinv i' r Hf) as [h0 Hs0].
        apply (Hmine i' H3). congruence.
Qed.

Lemma use_give_back m p ts own r i h e s' :
  pool_inv p ts own ->
  use_inv m (mkSys p ts) ->
  shape p r = Some (i, h) ->
  map_get (contexts p) i = Some r ->
  own !! i <> Some Free ->
  (forall t', is_Some (ts !! t') -> own !! i <> Some (Task t')) ->
  objs p !! r = Some e -> idle_ok m e ->
  give_back r p ts = Some s' ->
  use_inv m s'.
Proof.
  intros Hinv Huse Hsh Hcur Hfree Hothers He (H0 & Hm & Hb). unfold give_back.
  destruct (waiters p) as [|w ws] eqn:Hws.
  - intros [= <-]. split; simpl.
    + intros r' Hin. apply elem_of_app in Hin as [Hin|Hin].
      * exact (use_avail _ _ Huse r' Hin).
      * apply list_elem_of_singleton in Hin as ->. exists e.
        split; [exact He|]. repeat split; assumption.
    + exact (use_task _ _ Huse).
  - intros Hho.
    apply (use_hand_over m (with_waiters p ws) ts own w r i h e s'); auto.
    + now apply (inv_shift_waiters p ts own w ws).
    + split; [exact (use_avail _ _ Huse) | exact (use_task _ _ Huse)].
Qed.

Lemma use_retask m p ts t tk :
  use_inv m (mkSys p (delete t ts)) -> use_ok m p tk ->
  use_inv m (mkSys p (<[t := tk]> ts)).
Proof.
  intros Huse Hok. split; simpl.
  - exact (use_avail _ _ Huse).
  - intros t' tk' Ht. apply lookup_insert_Some in Ht as [[<- <-]|[Hne Ht]].
    + exact Hok.
    + apply (use_task _ _ Huse t'). simpl. now rewrite lookup_delete_ne.
Qed.

Lemma use_delete m p ts t :
  use_inv m (mkSys p ts) -> use_inv m (mkSys p (delete t ts)).
Proof.
  intros Huse. split; simpl.
  - exact (use_avail _ _ Huse).
  - intros t' tk' Ht. apply lookup_delete_Some in Ht as [_ Ht].
    exact (use_task _ _ Huse t' tk' Ht).
Qed.

(** [release] clears the busy flag of the entry its caller holds. *)
Lemma use_mark_idle m p ts own t ctx r i :
  pool_inv p ts own ->
  use_inv m (mkSys p ts) ->
  ts !! t = Some (Holding ctx) ->
  shape p r = Some (i, ctx) ->
  own !! i = Some (Task t) ->
  use_inv m (mkSys (mark_idle r p) (delete t ts)).
Proof.
  intros Hinv Huse Ht Hsh Hown.
  assert (Hne : forall r', r' <> r ->
            objs (mark_idle r p) !! r' = objs p !! r').
  { intros r' Hr'. unfold mark_idle. simpl. now rewrite lookup_alter_ne. }
  split; simpl.
  - intros r' Hin. destruct (use_avail _ _ Huse r' Hin) as (e' & He' & Hok).
    simpl in He'. exists e'. split; [|exact Hok]. rewrite Hne; [exact He'|].
    intros ->. destruct (avail_own _ _ _ Hinv r Hin) as (i' & h' & H1 & _ & H3).
    congruence.
  - intros t' tk Ht'. apply lookup_delete_Some in Ht' as [Hnt Ht'].
    pose proof (use_task _ _ Huse t' tk Ht') as Hok.
    pose proof (task_own _ _ _ Hinv t' tk Ht') as Hto.
    assert (Hmine : forall i', own !! i' = Some (Task t') -> i' <> i).
    { intros i' Hi' ->. congruence. }
    destruct tk as [r'|r'|r'| |ctx'|r'|r']; simpl in *; try exact I.
    + destruct Hok as (e' & He' & Hi). exists e'. split; [|exact Hi].
      rewrite Hne; [exact He'|]. intros ->.
      destruct Hto as (i' & h' & H1 & _ & H3). apply (Hmine i' H3).
      congruence.
    + destruct Hto as (i' & h' & H1 & _ & H3).
      assert (Hr' : r' <> r).
      { intros ->. apply (Hmine i' H3). congruence. }
      intros e1 f He1 Hf. rewrite Hne in He1 by exact Hr'.
      destruct (Hok e1 f He1 Hf) as (ef & Hef & Hidle).
      exists ef. split; [|exact Hidle]. rewrite Hne; [exact Hef|].
      intros ->. rewrite (shape_of_entry p r' e1 He1) in H1.
      injection H1 as E1 _. rewrite E1 in Hf.
      destruct (wf_ctx _ _ _ Hinv i' r Hf) as [h0 Hs0].
      apply (Hmine i' H3). congruence.
    + destruct Hto as (r'' & i'' & H1 & _ & H3).
      intros r0 e0 He0 Hc0. destruct (decide (r0 = r)) as [->|Hr0].
      * exfalso. unfold mark_idle in He0. simpl in He0.
        rewrite lookup_alter_eq in He0.
        destruct (objs p !! r) as [e|] eqn:He; [|discriminate].
        simpl in He0. injection He0 as <-. simpl in Hc0.
        rewrite (shape_of_entry p r e He) in Hsh.
        assert (r'' = r).
        { apply (handle_inj _ _ _ Hinv r'' r i'' i ctx);
            [congruence | now rewrite (shape_of_entry p r e He)]. }
        subst r''. apply (Hmine i'' H3).
        rewrite (shape_of_entry p r e He) in H1. congruence.
      * rewrite Hne in He0 by exact Hr0. exact (Hok r0 e0 He0 Hc0).
    + destruct Hto as (i' & h' & H1 & _ & H3).
      assert (Hr' : r' <> r).
      { intros ->. apply (Hmine i' H3). congruence. }
      intros e1 f He1 Hf. rewrite Hne in He1 by exact Hr'.
      destruct (Hok e1 f He1 Hf) as (ef & Hef & Hidle).
      exists ef. split; [|exact Hidle]. rewrite Hne; [exact Hef|].
      intros ->. rewrite (shape_of_entry p r' e1 He1) in H1.
      injection H1 as E1 _. rewrite E1 in Hf.
      destruct (wf_ctx _ _ _ Hinv i' r Hf) as [h0 Hs0].
      apply (Hmine i' H3). congruence.
Qed.

Lemma use_recycle m p ts own r i h now t tk tk' :
  pool_inv p ts own ->
  use_inv m (mkSys p ts) ->
  shape p r = Some (i, h) ->
  map_get (contexts p) i = Some r ->
  own !! i = Some (Task t) ->
  ts !! t = Some tk ->
  tk' = AcqRecycled r \/ tk' = RelRecycled r ->
  use_inv m (mkSys (recycleContext r now p) (<[t := tk']> ts)).
Proof.
  intros Hinv Huse Hsh Hcur Hown Ht Htk'.
  destruct (recycleContext_slot p r i h now Hsh)
    as (Hnew & Hctx & Hold & Hav & _).
  set (p' := recycleContext r now p) in *.
  assert (Hkeep : forall r' e', objs p !! r' = Some e' ->
            objs p' !! r' = Some e').
  { intros r' e' He'.
    destruct (wf_obj _ _ _ Hinv r' _ _ (shape_of_entry p r' e' He')) as [Hlt _].
    rewrite Hold by lia. exact He'. }
  assert (Hback : forall r' e', r' <> nextRef p -> objs p' !! r' = Some e' ->
            objs p !! r' = Some e').
  { intros r' e' Hr' He'. now rewrite <- Hold. }
  split; simpl.
  - intros r' Hin. rewrite Hav in Hin.
    destruct (use_avail _ _ Huse r' Hin) as (e' & He' & Hok). eauto.
  - intros t' tk0 Ht'. apply lookup_insert_Some in Ht' as [[<- <-]|[Hne Ht']].
    + assert (Hok : forall e1 f, objs p' !! r = Some e1 ->
                 map_get (contexts p') (id e1) = Some f ->
                 exists ef, objs p' !! f = Some ef /\ idle_ok m ef).
      { intros e1 f He1 Hf.
        destruct (wf_obj _ _ _ Hinv r i h Hsh) as [Hlt _].
        apply Hback in He1; [|lia].
        rewrite (shape_of_entry p r e1 He1) in Hsh. injection Hsh as E1 _.
        rewrite Hctx, E1, map_get_set_eq in Hf. injection Hf as <-.
        eexists. split; [exact Hnew|]. repeat split; simpl; lia. }
      destruct Htk' as [-> | ->]; exact Hok.
    + pose proof (use_task _ _ Huse t' tk0 Ht') as Hok.
      pose proof (task_own _ _ _ Hinv t' tk0 Ht') as Hto.
      assert (Hmine : forall i', own !! i' = Some (Task t') -> i' <> i).
      { intros i' Hi' ->. congruence. }
      destruct tk0 as [r'|r'|r'| |ctx'|r'|r']; simpl in *; try exact I.
      * destruct Hok as (e' & He' & Hi). eauto.
      * destruct Hto as (i' & h' & H1 & _ & H3).
        intros e1 f He1 Hf.
        destruct (wf_obj _ _ _ Hinv r' i' h' H1) as [Hlt _].
        apply Hback in He1; [|lia].
        rewrite (shape_of_entry p r' e1 He1) in H1. injection H1 as E1 _.
        rewrite Hctx, map_get_set_ne in Hf.
        2:{ intros E. apply (Hmine i' H3). congruence. }
        destruct (Hok e1 f He1 Hf) as (ef & Hef & Hidle). eauto.
      * destruct Hto as (r'' & i'' & H1 & _ & H3).
        intros r0 e0 He0 Hc0. destruct (decide (r0 = nextRef p)) as [->|Hr0].
        -- exfalso. rewrite Hnew in He0. injection He0 as <-. simpl in Hc0.
           destruct (wf_obj _ _ _ Hinv r'' i'' ctx' H1) as [_ Hlt]. lia.
        -- apply (Hok r0 e0); [|exact Hc0]. now apply Hback.
      * destruct Hto as (i' & h' & H1 & _ & H3).
        intros e1 f He1 Hf.
        destruct (wf_obj _ _ _ Hinv r' i' h' H1) as [Hlt _].
        apply Hback in He1; [|lia].
        rewrite (shape_of_entry p r' e1 He1) in H1. injection H1 as E1 _.
        rewrite Hctx, map_get_set_ne in Hf.
        2:{ intros E. apply (Hmine i' H3). congruence. }
        destruct (Hok e1 f He1 Hf) as (ef & Hef & Hidle). eauto.
Qed.

(** Every event keeps the counters and flags in order. *)
Lemma use_step m ev s s' own :
  pool_inv (pool s) (tasks s) own ->
  use_inv m s ->
  step m ev s = Some s' ->
  use_inv m s'.
Proof.
  intros Hinv Huse. destruct s as [p ts]. simpl in Hinv.
  destruct ev as [t|t|t|t now|t|t|t]; simpl.
  - (* Acquire *)
    destruct (ts !! t) as [tk|] eqn:Ht; [discriminate|].
    pose proof (pop_available_spec p) as Hpop. unfold acquire.
    destruct (pop_available p) as [[r|] p'].
    + destruct Hpop as (rest & Hav & ->). intros [= <-].
      assert (Hr : exists e, objs p !! r = Some e /\ idle_ok m e).
      { apply (use_avail _ _ Huse r). simpl. rewrite Hav.
        apply elem_of_app. right. now apply list_elem_of_singleton. }
      split; simpl.
      * intros r' Hin. apply (use_avail _ _ Huse r'). simpl. rewrite Hav.
        apply elem_of_app. now left.
      * intros t' tk Ht'.
        apply lookup_insert_Some in Ht' as [[<- <-]|[Hne Ht']]; [exact Hr|].
        exact (use_task _ _ Huse t' tk Ht').
    + intros [= <-]. split; simpl.
      * exact (use_avail _ _ Huse).
      * intros t' tk Ht'.
        apply lookup_insert_Some in Ht' as [[<- <-]|[Hne Ht']]; [exact I|].
        exact (use_task _ _ Huse t' tk Ht').
  - (* ProbeOk *)
    destruct (ts !! t) as [[r| | | | | |]|] eqn:Ht; try discriminate.
    destruct (task_own _ _ _ Hinv t _ Ht) as (i & h & Hsh & Hcur & Hown).
    destruct (use_task _ _ Huse t _ Ht) as (e & He & H0 & Hm & _).
    intros Hho.
    assert (H1 : own !! i <> Some Free) by congruence.
    assert (H2 : forall t', t' <> t -> is_Some (ts !! t') ->
                            own !! i <> Some (Task t')) by (intros; congruence).
    exact (use_hand_over m p ts own t r i h e s' Hinv Huse Hsh Hcur H1 H2 He
             H0 Hm Hho).
  - (* ProbeFail *)
    destruct (ts !! t) as [[r| | | | | |]|] eqn:Ht; try discriminate.
    intros [= <-]. apply use_retask; [|exact I]. now apply use_delete.
  - (* Created *)
    destruct (ts !! t) as [[|r| | | |r|]|] eqn:Ht; try discriminate;
      intros [= <-];
      destruct (task_own _ _ _ Hinv t _ Ht) as (i & h & Hsh & Hcur & Hown).
    + apply (use_recycle m p ts own r i h now t _ _ Hinv Huse Hsh Hcur Hown Ht).
      now left.
    + apply (use_recycle m p ts own r i h now t _ _ Hinv Huse Hsh Hcur Hown Ht).
      now right.
  - (* CreateFailed *)
    destruct (ts !! t) as [[|r| | | |r|]|] eqn:Ht; try discriminate;
      intros [= <-]; now apply use_delete.
  - (* Continue *)
    destruct (ts !! t) as [[| |r| | | |r]|] eqn:Ht; try discriminate;
      destruct (task_own _ _ _ Hinv t _ Ht) as (i & h & Hsh & [fresh Hcur] & Hown);
      destruct (proj1 (shape_Some p r i h) Hsh) as (e & He & Hid & Hctx);
      pose proof (use_task _ _ Huse t _ Ht) as Hok; simpl in Hok;
      rewrite <- Hid in Hcur;
      destruct (Hok e fresh He Hcur) as (ef & Hef & Hidle);
      rewrite Hid in Hcur;
      unfold acquire_resume, release_then; rewrite He, Hid, Hcur;
      destruct (wf_ctx _ _ _ Hinv i fresh Hcur) as [hf Hshf];
      intros Hstep.
    + assert (H1 : own !! i <> Some Free) by congruence.
      assert (H2 : forall t', t' <> t -> is_Some (ts !! t') ->
                              own !! i <> Some (Task t')) by (intros; congruence).
      destruct Hidle as (H0 & Hm & _).
      exact (use_hand_over m p ts own t fresh i hf ef s' Hinv Huse Hshf Hcur
               H1 H2 Hef H0 Hm Hstep).
    + assert (Htw : t ∉ waiters p).
      { apply (not_waiting p ts own t _ Hinv Ht). discriminate. }
      assert (H1 : own !! i <> Some Free) by congruence.
      assert (H2 : forall t', is_Some (delete t ts !! t') ->
                              own !! i <> Some (Task t')).
      { intros t' [tk' Ht']. apply lookup_delete_Some in Ht' as [Hne _].
        congruence. }
      exact (use_give_back m p (delete t ts) own fresh i hf ef s'
               (inv_delete p ts own t Hinv Htw) (use_delete m p ts t Huse)
               Hshf Hcur H1 H2 Hef Hidle Hstep).
  - (* Release *)
    destruct (ts !! t) as [[| | | |ctx| |]|] eqn:Ht; try discriminate.
    assert (Htw : t ∉ waiters p).
    { apply (not_waiting p ts own t _ Hinv Ht). discriminate. }
    unfold release.
    destruct (find_context (objs p) (contexts p) ctx) as [r'|] eqn:Hfind.
    2:{ intros [= <-]. now apply use_delete. }
    destruct (task_own _ _ _ Hinv t _ Ht) as (r & i & Hsh & Hcur & Hown).
    destruct (find_context_Some _ _ _ _ Hfind) as (e' & He' & Hctx').
    assert (r' = r) as ->.
    { apply (handle_inj _ _ _ Hinv r' r (id e') i ctx); [|exact Hsh].
      apply shape_Some. now exists e'. }
    assert (Hheld : held_ok m e').
    { exact (use_task _ _ Huse t _ Ht r e' He' Hctx'). }
    assert (Hinv1 : pool_inv (mark_idle r p) ts own).
    { apply (inv_shape_ext p); auto. intros r'. apply shape_mark_idle. }
    assert (Hsh1 : shape (mark_idle r p) r = Some (i, ctx)).
    { now rewrite shape_mark_idle. }
    pose proof (use_mark_idle m p ts own t ctx r i Hinv Huse Ht Hsh Hown)
      as Huse1.
    assert (He1 : objs (mark_idle r p) !! r
                  = Some (mkEntry (context e') false (createdAt e')
                            (useCount e') (id e'))).
    { unfold mark_idle. simpl. now rewrite lookup_alter_eq, He'. }
    change (alter _ r (objs p) !! r) with (objs (mark_idle r p) !! r).
    rewrite He1.
    destruct (needsRecycle m _) eqn:Hrec.
    + intros [= <-]. apply use_retask; [exact Huse1 | exact I].
    + intros Hgb.
      assert (H1 : own !! i <> Some Free) by congruence.
      assert (H2 : forall t', is_Some (delete t ts !! t') ->
                              own !! i <> Some (Task t')).
      { intros t' [tk' Ht']. apply lookup_delete_Some in Ht' as [Hne _].
        congruence. }
      apply (use_give_back m (mark_idle r p) (delete t ts) own r i ctx _ s'
               (inv_delete _ ts own t Hinv1 Htw) Huse1 Hsh1 Hcur H1 H2 He1);
        [|exact Hgb].
      destruct Hheld as (Hge & Hle & _).
      unfold needsRecycle in Hrec. simpl in Hrec.
      repeat split; simpl; [lia|].
      intros Hpos. apply andb_false_iff in Hrec as [Hrec|Hrec].
      * apply Z.ltb_ge in Hrec. lia.
      * apply Z.leb_gt in Hrec. exact Hrec.
Qed.

Lemma use_initialize_one m now p own :
  pool_inv p ∅ own ->
  use_inv m (mkSys p ∅) ->
  use_inv m (mkSys (initialize_one now p) ∅).
Proof.
  intros Hinv Huse. unfold initialize_one. simpl. rewrite lookup_insert_eq.
  split; simpl.
  - intros r Hin. apply elem_of_app in Hin as [Hin|Hin].
    + destruct (use_avail _ _ Huse r Hin) as (e & He & Hok). simpl in He.
      exists e. split; [|exact Hok].
      destruct (wf_obj _ _ _ Hinv r _ _ (shape_of_entry p r e He)) as [Hlt _].
      rewrite lookup_insert_ne; [exact He | lia].
    + apply list_elem_of_singleton in Hin as ->. rewrite lookup_insert_eq.
      eexists. split; [reflexivity|]. repeat split; simpl; lia.
  - intros t tk Ht. rewrite lookup_empty in Ht. discriminate.
Qed.

Lemma boot_use m poolSize now : use_inv m (boot poolSize now).
Proof.
  unfold boot, initialize.
  assert (H0 : pool_inv empty_pool ∅ ∅ /\ use_inv m (mkSys empty_pool ∅)).
  { split.
    - split; simpl.
      + discriminate.
      + discriminate.
      + intros r i h H. unfold shape in H. simpl in H.
        rewrite lookup_empty in H. discriminate.
      + intros r1 r2 i1 i2 h H. unfold shape in H. simpl in H.
        rewrite lookup_empty in H. discriminate.
      + intros r Hin. inversion Hin.
      + apply NoDup_nil_2.
      + intros w Hin. inversion Hin.
      + apply NoDup_nil_2.
      + intros t tk Ht. rewrite lookup_empty in Ht. discriminate.
    - split; simpl.
      + intros r Hin. inversion Hin.
      + intros t tk Ht. rewrite lookup_empty in Ht. discriminate. }
  revert H0. generalize empty_pool as p. generalize (∅ : gmap nat owner) as own.
  induction (Z.to_nat poolSize) as [|n IH]; intros own p [Hinv Huse]; simpl.
  - exact Huse.
  - apply (IH (<[nextContextId p := Free]> own)). split.
    + now apply initialize_one_inv.
    + now apply (use_initialize_one m now p own).
Qed.

Lemma run_use m poolSize now evs s :
  run m evs (boot poolSize now) = Some s -> use_inv m s.
Proof.
  intros Hrun. destruct (boot_inv poolSize now) as [own Hinv].
  apply (pool_run_ind (use_inv m) m) with (evs := evs)
    (s := boot poolSize now) (own := own); auto.
  - intros ev s0 s1 own0. apply use_step.
  - apply boot_use.
Qed.


(** X4: nobody waits while a context is idle.  After any run of events
    from start-up the idle array or the queue of waiters is empty. *)
Theorem pool_never_waits_while_idle (poolSize now maxUses : Z)
    (evs : list event) (s : sys) :
  run maxUses evs (boot poolSize now) = Some s ->
  available (pool s) = [] \/ waiters (pool s) = [].
Proof.
  intros Hrun. destruct (boot_inv poolSize now) as [own Hinv].
  apply (pool_run_ind
           (fun s => available (pool s) = [] \/ waiters (pool s) = [])
           maxUses) with (evs := evs) (s := boot poolSize now) (own := own);
    auto.
  - intros ev s0 s1 _ _. apply step_idle_or_waiting.
  - right. unfold boot, initialize. simpl. apply initialize_loop_waiters.
Qed.

(** X6: use counters and busy flags.  After any run of events from
    start-up, the entry of a context that a call holds is marked busy and
    has been handed out between 1 and [contextMaxUses] times (when that
    limit is positive), and every idle entry is not marked busy and is
    strictly below the limit. *)
Theorem pool_use_count_bounded (poolSize now maxUses : Z) (evs : list event)
    (s : sys) :
  run maxUses evs (boot poolSize now) = Some s ->
  (forall t ctx, tasks s !! t = Some (Holding ctx) ->
     exists e, slot (pool s) (id e) = Some e /\ context e = ctx
               /\ busy e = true /\ 1 <= useCount e
               /\ (0 < maxUses -> useCount e <= maxUses))
  /\ (forall r, r ∈ available (pool s) ->
     exists e, objs (pool s) !! r = Some e /\ busy e = false
               /\ 0 <= useCount e
               /\ (0 < maxUses -> useCount e < maxUses)).
Proof.
  intros Hrun.
  pose proof (run_use maxUses poolSize now evs s Hrun) as Huse.
  destruct (boot_inv poolSize now) as [own0 Hinv0].
  destruct (pool_run_inv maxUses evs _ _ own0 Hinv0 Hrun) as [[own Hinv] _].
  split.
  - intros t ctx Ht.
    destruct (task_own _ _ _ Hinv t _ Ht) as (r & i & Hsh & Hcur & _).
    destruct (proj1 (shape_Some _ r i ctx) Hsh) as (e & He & Hid & Hctx).
    destruct (use_task _ _ Huse t _ Ht r e He Hctx) as (H1 & H2 & H3).
    exists e. unfold slot. rewrite Hid, Hcur. auto.
  - intros r Hin.
    destruct (use_avail _ _ Huse r Hin) as (e & He & H0 & Hm & Hb). eauto 6.
Qed.

End PoolViewFacts.

(* ===================================================================== *)
(** ** The operations of a job: fast path, pool and page discipline *)
(* ===================================================================== *)

Section CallFacts.

Import Calls.

Variable rt : Runtime.


Lemma tryStaticFetch_calls url cfg env :
  (Calls.tryStaticFetch url cfg env).1 = [Fetch]
  \/ (Calls.tryStaticFetch url cfg env).1 = [Fetch; ReadText].
Proof.
  unfold Calls.tryStaticFetch.
  destruct (fetch env) as [resp|]; [|now left].
  destruct (negb (ok resp)); [now left|].
  destruct (_ && _); [now left|].
  destruct (text resp); now right.
Qed.



(** The operations on the page start with the navigation and are all
    page operations. *)
Lemma page_work_calls jobConfig job env :
  exists ops, calls (Calls.page_work rt jobConfig job env) = Goto :: ops
              /\ forallb page_op ops = true.
Proof.
  unfold Calls.page_work, perform, quiet, mbind, logged_bind.
  destruct (goto env) as [[]|]; simpl; [|now exists []].
  destruct (0 <? waitAfterLoad jobConfig); simpl.
  - destruct (waitForTimeout env) as [[]|]; simpl; [|eexists; split; reflexivity].
    destruct (preExtractScript jobConfig) as [s|]; simpl.
    + destruct (truthy s); simpl.
      * destruct (evaluate env) as [[]|]; simpl; [|eexists; split; reflexivity].
        destruct (page_content env); simpl; eexists; split; reflexivity.
      * destruct (page_content env); simpl; eexists; split; reflexivity.
    + destruct (page_content env); simpl; eexists; split; reflexivity.
  - destruct (preExtractScript jobConfig) as [s|]; simpl.
    + destruct (truthy s); simpl.
      * destruct (evaluate env) as [[]|]; simpl; [|eexists; split; reflexivity].
        destruct (page_content env); simpl; eexists; split; reflexivity.
      * destruct (page_content env); simpl; eexists; split; reflexivity.
    + destruct (page_content env); simpl; eexists; split; reflexivity.
Qed.




Lemma browser_path_calls jobConfig job env :
  match acquire env with
  | Throw _ => calls (Calls.browser_path rt jobConfig job env) = [PoolAcquire]
  | Ok ctx =>
      match newPage env with
      | Throw _ =>
          calls (Calls.browser_path rt jobConfig job env)
          = [PoolAcquire; NewPage; PoolRelease ctx]
      | Ok _ =>
          exists ops,
            calls (Calls.browser_path rt jobConfig job env)
            = [PoolAcquire; NewPage; Goto] ++ ops
              ++ [PageClose; PoolRelease ctx]
            /\ forallb page_op ops = true
      end
  end.
Proof.
  unfold Calls.browser_path, Calls.guarded, ensuring, perform, mbind,
    logged_bind.
  destruct (acquire env) as [ctx|]; simpl; [|reflexivity].
  destruct (newPage env) as [[]|]; simpl; [|reflexivity].
  destruct (page_work_calls jobConfig job env) as (ops & -> & Hops).
  exists ops. split; [|exact Hops]. simpl. now rewrite <- !app_assoc.
Qed.





(** X9: a job brackets its work in the browser.  After the operations of
    the fast path, if any, either the job is over (a fast-path hit), or
    it calls [acquire]; when that fails nothing else is called; otherwise
    the context acquired is released as the last operation, whatever
    failed in between, and the page is closed, just before the release,
    exactly when [newPage] returned one; between [newPage] and the close
    only page operations happen, starting with the navigation. *)
Theorem job_brackets_context_and_page (self : Scraper) (job : ScrapeJob)
    (env : Env) :
  exists pre,
    (pre = [] \/ pre = [Fetch] \/ pre = [Fetch; ReadText])
    /\ (calls (Calls.processJob rt self job env) = pre
        \/ match acquire env with
           | Throw _ =>
               calls (Calls.processJob rt self job env) = pre ++ [PoolAcquire]
           | Ok ctx =>
               match newPage env with
               | Throw _ =>
                   calls (Calls.processJob rt self job env)
                   = pre ++ [PoolAcquire; NewPage; PoolRelease ctx]
               | Ok _ =>
                   exists ops,
                     calls (Calls.processJob rt self job env)
                     = pre ++ [PoolAcquire; NewPage; Goto] ++ ops
                       ++ [PageClose; PoolRelease ctx]
                     /\ forallb page_op ops = true
               end
           end).
Proof.
  assert (Hb : forall pre jobConfig,
             match acquire env with
             | Throw _ =>
                 pre ++ calls (Calls.browser_path rt jobConfig job env)
                 = pre ++ [PoolAcquire]
             | Ok ctx =>
                 match newPage env with
                 | Throw _ =>
                     pre ++ calls (Calls.browser_path rt jobConfig job env)
                     = pre ++ [PoolAcquire; NewPage; PoolRelease ctx]
                 | Ok _ =>
                     exists ops,
                       pre ++ calls (Calls.browser_path rt jobConfig job env)
                       = pre ++ [PoolAcquire; NewPage; Goto] ++ ops
                         ++ [PageClose; PoolRelease ctx]
                       /\ forallb page_op ops = true
                 end
             end).
  { intros pre jobConfig.
    pose proof (browser_path_calls jobConfig job env) as H.
    destruct (acquire env) as [ctx|]; [|now rewrite H].
    destruct (newPage env) as [[]|]; [|now rewrite H].
    destruct H as (ops & -> & Hops). now exists ops. }
  unfold Calls.processJob.
  destruct (negb _ && negb _).
  - destruct (tryStaticFetch_calls (job_url job)
                (spread (config self) (job_config job)) env) as [Hl|Hl];
      destruct (Calls.tryStaticFetch _ _ env) as [l [[html finalUrl]|]];
      simpl in Hl; subst l.
    + exists [Fetch]. split; [tauto | now left].
    + exists [Fetch]. split; [tauto|]. right. apply (Hb [Fetch]).
    + exists [Fetch; ReadText]. split; [tauto | now left].
    + exists [Fetch; ReadText]. split; [tauto|]. right.
      apply (Hb [Fetch; ReadText]).
  - exists []. split; [tauto|]. right. apply (Hb []).
Qed.

(** X10: the options of a job override that configure the pool, the queue
    and the throttle ([concurrency], [blockResources],
    [blockedResourceTypes], [headers], [viewport], [rotateFingerprints],
    [contextMaxUses], [perDomainDelayMs]) change neither the operations
    nor the result of the job. *)
Theorem pool_options_ignored_by_job (self : Scraper) (url id : string)
    (priority : option Z) (o : PartialConfig) (env : Env) :
  Calls.processJob rt self (mkJob url id priority (Some o)) env
  = Calls.processJob rt self
      (mkJob url id priority (Some (without_pool_options o))) env.
Proof.
  destruct o. reflexivity.
Qed.

(** X11: when the fast path is taken.  [tryStaticFetch] returns a page
    exactly when the request succeeded with an ok status, the response
    has a content type that mentions text/html or application/xhtml, its
    body could be read and does not look like a single-page application;
    the final url is the response's, or the requested one when that is
    empty. *)
Theorem tryStaticFetch_hit (url : string) (cfg : ScrapeConfig) (env : Env)
    (html : jsstring) (finalUrl : string) :
  Scraper.tryStaticFetch url cfg env = Some (html, finalUrl)
  <-> exists resp ct,
        fetch env = Ok resp /\ ok resp = true
        /\ contentType resp = Some ct
        /\ (includes "text/html" ct = true
            \/ includes "application/xhtml" ct = true)
        /\ text resp = Ok html
        /\ looksLikeSPA html = false
        /\ finalUrl = (if truthy (resp_url resp) then resp_url resp else url).
Proof.
  unfold Scraper.tryStaticFetch. split.
  - destruct (fetch env) as [resp|] eqn:Hf; [|discriminate].
    destruct (ok resp) eqn:Hok; simpl; [|discriminate].
    destruct (contentType resp) as [ct|] eqn:Hct.
    + destruct (includes "text/html" ct) eqn:H1; simpl.
      * destruct (text resp) as [h|] eqn:Ht; [|discriminate].
        destruct (looksLikeSPA h) eqn:Hspa; [discriminate|].
        intros [= <- <-]. exists resp, ct. repeat split; auto.
      * destruct (includes "application/xhtml" ct) eqn:H2; simpl;
          [|discriminate].
        destruct (text resp) as [h|] eqn:Ht; [|discriminate].
        destruct (looksLikeSPA h) eqn:Hspa; [discriminate|].
        intros [= <- <-]. exists resp, ct. repeat split; auto.
    + simpl. discriminate.
  - intros (resp & ct & -> & -> & -> & Hct & -> & -> & ->). simpl.
    destruct Hct as [-> | ->]; simpl; [reflexivity|].
    now rewrite andb_false_r.
Qed.

End CallFacts.

(* ===================================================================== *)
(** ** [scrapeStream] yields in completion order *)
(* ===================================================================== *)

Section ChannelFacts.

Import Stream Channel.

Variable rt : Runtime.
Variable jobs : list ScrapeJob.
Variable outs : list (outcome ScrapeResult).

Local Abbreviation step := (Stream.step rt jobs outs).
Local Abbreviation run := (Stream.run rt jobs outs).
Local Abbreviation pushed := (Channel.pushed rt jobs outs).
Local Abbreviation failures_known := (Channel.failures_known outs).

Lemma notify_fields s :
  results (notify s) = results s /\ yielded (notify s) = yielded s
  /\ phases (notify s) = phases s.
Proof. unfold notify. destruct (resolve s); auto. Qed.

Lemma step_channel ev s s' :
  failures_known s ->
  step ev s = Some s' ->
  failures_known s'
  /\ yielded s' ++ results s'
     = (yielded s ++ results s) ++ option_list (pushed ev).
Proof.
  intros Hk. destruct ev as [i|i|i|]; simpl.
  - destruct (phases s !! i) as [[| | |]|] eqn:Hph; try discriminate.
    destruct (outs !! i) as [[r|err]|] eqn:Ho; try discriminate;
      intros [= <-].
    + destruct (notify_fields (push r (set_phase i Pushed s)))
        as (-> & -> & Hp). simpl. split; [|now rewrite app_assoc].
      intros j err. rewrite Hp. simpl. intros Hj.
      apply list_lookup_insert_Some in Hj as [(_ & [=] & _)|[_ Hj]].
      now apply Hk.
    + simpl. split; [|now rewrite app_nil_r].
      intros j err' Hj.
      apply list_lookup_insert_Some in Hj as [(-> & [= <-] & _)|[_ Hj]];
        [exact Ho | now apply Hk].
  - destruct (phases s !! i) as [[|err| |]|] eqn:Hph; try discriminate.
    destruct (jobs !! i) as [job|] eqn:Hj; try discriminate.
    intros [= <-]. rewrite (Hk i err Hph).
    destruct (notify_fields (push (caught_result rt job err)
                               (set_phase i Pushed s))) as (-> & -> & Hp).
    simpl. split; [|now rewrite app_assoc].
    intros j err'. rewrite Hp. simpl. intros Hj'.
    apply list_lookup_insert_Some in Hj' as [(_ & [=] & _)|[_ Hj']].
    now apply Hk.
  - destruct (phases s !! i) as [[| | |]|] eqn:Hph; try discriminate.
    intros [= <-]. unfold on_finally. simpl.
    assert (Hkeep : failures_known (set_phase i Finished s)).
    { intros j err. simpl. intros Hj.
      apply list_lookup_insert_Some in Hj as [(_ & [=] & _)|[_ Hj]].
      now apply Hk. }
    destruct (pending s - 1 =? 0).
    + match goal with |- context [notify ?x] =>
        destruct (notify_fields x) as (-> & -> & Hp) end.
      simpl. split; [|now rewrite app_nil_r].
      intros j err. rewrite Hp. apply Hkeep.
    + simpl. split; [exact Hkeep | now rewrite app_nil_r].
  - destruct (gen s); try discriminate. intros [= <-]. unfold iterate.
    destruct (negb (done s) || _).
    + destruct (results s) as [|next rest] eqn:Hr.
      * destruct (negb (done s)); simpl; rewrite ?Hr;
          (split; [exact Hk | now rewrite !app_nil_r]).
      * simpl. split; [exact Hk|]. now rewrite app_nil_r, <- app_assoc.
    + simpl. split; [exact Hk | now rewrite app_nil_r].
Qed.

Lemma run_channel evs : forall s s',
  failures_known s ->
  run evs s = Some s' ->
  yielded s' ++ results s' = (yielded s ++ results s) ++ omap pushed evs.
Proof.
  induction evs as [|ev evs IH]; intros s s' Hk; simpl.
  - intros [= <-]. now rewrite app_nil_r.
  - destruct (Stream.step rt jobs outs ev s) as [s1|] eqn:Hs; [|discriminate].
    intros Hrun. destruct (step_channel ev s s1 Hk Hs) as [Hk1 Hy].
    rewrite (IH s1 s' Hk1 Hrun), Hy, <- !app_assoc. f_equal. f_equal.
    destruct (Channel.pushed rt jobs outs ev); reflexivity.
Qed.

(** X12: [scrapeStream] yields in completion order.  In every run, what
    the generator has yielded followed by what still waits in [results]
    is the list of the results pushed so far, in the order in which their
    jobs completed; nothing is lost, duplicated or reordered. *)
Theorem stream_yields_in_completion_order (urls : list string)
    (evs : list event) (s : state) :
  run evs (start urls) = Some s ->
  yielded s ++ results s = omap pushed evs.
Proof.
  intros Hrun. rewrite (run_channel evs (start urls) s); [reflexivity| |exact Hrun].
  intros i err. simpl. intros Hi.
  apply lookup_replicate in Hi as [[=] _].
Qed.

End ChannelFacts.

(* ===================================================================== *)
(** ** The front ends *)
(* ===================================================================== *)

Section FrontEndFacts.

Import Server.

(** X14: what a request can change.  The per-request options only turn
    main-content extraction, the metadata header and resource blocking
    off, never on; [fullPage] turns main-content extraction off; the
    throttle delay, the fast-path switch, the script and the document
    delimiters stay those of the scraper; and no override is passed at
    all when the body carries none of the five options. *)
Theorem request_options_only_disable (body : ScrapeRequestBody)
    (cfg : ScrapeConfig) :
  let jobConfig := spread cfg (extractJobConfig body) in
  (extractMainContent jobConfig = true -> extractMainContent cfg = true)
  /\ (includeMetadata jobConfig = true -> includeMetadata cfg = true)
  /\ (blockResources jobConfig = true -> blockResources cfg = true)
  /\ (b_fullPage body = Some true -> extractMainContent jobConfig = false)
  /\ perDomainDelayMs jobConfig = perDomainDelayMs cfg
  /\ skipStaticDetection jobConfig = skipStaticDetection cfg
  /\ preExtractScript jobConfig = preExtractScript cfg
  /\ documentDelimiters jobConfig = documentDelimiters cfg
  /\ concurrency jobConfig = concurrency cfg
  /\ contextMaxUses jobConfig = contextMaxUses cfg
  /\ (extractJobConfig body = None
      <-> b_timeout body = None /\ b_waitAfterLoad body = None
          /\ b_extractMainContent body <> Some false
          /\ b_fullPage body <> Some true
          /\ b_includeMetadata body <> Some false
          /\ b_blockResources body <> Some false).
Proof.
  destruct body as [u us f t w [[|]|] [[|]|] [[|]|] [[|]|]];
    destruct t, w; cbv zeta; unfold extractJobConfig; simpl;
    repeat split; try reflexivity; try discriminate; try tauto;
    try (intros (? & ? & ? & ? & ? & ?); congruence).
Qed.

Lemma count_partition (results : list ScrapeResult) :
  Z.of_nat (length (filter (fun r => has_error r = false) results))
  + Z.of_nat (length (filter (fun r => has_error r = true) results))
  = Z.of_nat (length results).
Proof.
  induction results as [|r rs IH]; [reflexivity|].
  rewrite !filter_cons. destruct (has_error r) eqn:Hr.
  - rewrite decide_False by discriminate. rewrite decide_True by reflexivity.
    simpl length. lia.
  - rewrite decide_True by reflexivity. rewrite decide_False by discriminate.
    simpl length. lia.
Qed.

Lemma check_urls_bounds body urls :
  check_urls body = inr urls ->
  b_urls body = Some urls /\ (1 <= length urls <= 100)%nat.
Proof.
  unfold check_urls. destruct (b_urls body) as [us|]; [|discriminate].
  destruct (Nat.eqb_spec (length us) 0); [discriminate|].
  destruct (Nat.ltb_spec 100 (length us)); [discriminate|].
  intros [= ->]. split; [reflexivity | lia].
Qed.

(** X15: the answer of the batch endpoint.  A summary is given only for
    1 to 100 urls; its [total] is the number of results, [succeeded] and
    [failed] add up to it, and a result counts as failed exactly when its
    error text is non-empty. *)
Theorem batch_summary_counts (body : ScrapeRequestBody)
    (scrapeMany : list string -> option PartialConfig
                  -> outcome (list ScrapeResult))
    (total succeeded failed : Z) :
  handleBatch body scrapeMany = Ok (Summary total succeeded failed) ->
  exists urls results,
    b_urls body = Some urls
    /\ (1 <= length urls <= 100)%nat
    /\ scrapeMany urls (extractJobConfig body) = Ok results
    /\ total = Z.of_nat (length results)
    /\ succeeded + failed = total
    /\ failed
       = Z.of_nat
           (length (filter (fun r => Types.error r <> None
                                     /\ Types.error r <> Some EmptyString)
                      results)).
Proof.
  unfold handleBatch.
  destruct (check_urls body) as [msg|urls] eqn:Hc; [discriminate|].
  apply check_urls_bounds in Hc as [Hu Hb].
  destruct (scrapeMany urls (extractJobConfig body)) as [results|e] eqn:Hm;
    [|discriminate].
  intros [= <- <- <-]. exists urls, results.
  repeat split; try assumption; try lia.
  - apply count_partition.
  - f_equal. f_equal. apply list_filter_iff. intros r. unfold has_error.
    destruct (Types.error r) as [[|c e]|]; simpl; split;
      try discriminate; try (intros [H1 H2]; congruence).
    intros _. split; discriminate.
Qed.

Lemma prefix_dash arg :
  String.prefix "-" arg = false -> Cli.flag_key arg = None.
Proof.
  unfold Cli.flag_key. destruct arg as [|c arg]; [reflexivity|].
  cbn [String.prefix]. destruct (Ascii.ascii_dec "-" c) as [Hc|Hc].
  - destruct arg; discriminate.
  - reflexivity.
Qed.

(** The urls that the loop of [parseCLI] adds are arguments, in order. *)
Lemma parse_args_urls (n : nat) : forall args flags urls,
  (length args <= n)%nat ->
  exists us,
    (Cli.parse_args args flags urls).2 = urls ++ us
    /\ sublist us args
    /\ Forall (fun u => u <> EmptyString /\ Cli.flag_key u = None) us
    /\ ((forall a, a ∈ args -> String.prefix "-" a = false) ->
        us = filter (fun a => a <> EmptyString) args
        /\ (Cli.parse_args args flags urls).1 = flags).
Proof.
  induction n as [|n IH]; intros args flags urls Hlen.
  - destruct args; [|simpl in Hlen; lia]. exists []. simpl.
    rewrite app_nil_r. repeat split; auto; constructor.
  - destruct args as [|arg rest].
    { exists []. simpl. rewrite app_nil_r. repeat split; auto; constructor. }
    simpl in Hlen. cbn [Cli.parse_args].
    destruct (truthy arg) eqn:Harg; cbn [negb].
    2:{ destruct (IH rest flags urls ltac:(lia)) as (us & H1 & H2 & H3 & H4).
        exists us. split; [exact H1|]. split; [now apply sublist_cons|].
        split; [exact H3|]. intros Hno.
        destruct H4 as [H4 H5].
        { intros a Ha. apply Hno. apply elem_of_cons. now right. }
        split; [|exact H5]. rewrite filter_cons.
        destruct arg; [|discriminate].
        now rewrite decide_False by (intros H; now apply H). }
    assert (Hne : arg <> EmptyString) by (intros ->; discriminate).
    destruct (Cli.flag_key arg) as [key|] eqn:Hkey.
    + assert (Hdash : String.prefix "-" arg = true).
      { destruct (String.prefix "-" arg) eqn:Hp; [reflexivity|].
        apply prefix_dash in Hp. congruence. }
      assert (Hnot : ~ forall a, a ∈ arg :: rest -> String.prefix "-" a = false).
      { intros Hno. specialize (Hno arg ltac:(apply elem_of_cons; now left)).
        congruence. }
      destruct (bool_decide (key ∈ Cli.VALUE_FLAGS)).
      * destruct rest as [|v rest'].
        -- exists []. simpl. rewrite app_nil_r. repeat split; auto.
           ++ apply sublist_nil_l.
           ++ exfalso; auto.
           ++ exfalso; auto.
        -- simpl in Hlen.
           destruct (IH rest' (<[key := Cli.Value v]> flags) urls ltac:(lia))
             as (us & H1 & H2 & H3 & _).
           exists us. split; [exact H1|].
           split; [now apply sublist_cons, sublist_cons|].
           split; [exact H3|]. intros Hno. exfalso; auto.
      * destruct (IH rest (<[key := Cli.Present]> flags) urls ltac:(lia))
          as (us & H1 & H2 & H3 & _).
        exists us. split; [exact H1|]. split; [now apply sublist_cons|].
        split; [exact H3|]. intros Hno. exfalso; auto.
    + destruct (IH rest flags (urls ++ [arg]) ltac:(lia))
        as (us & H1 & H2 & H3 & H4).
      exists (arg :: us). split; [now rewrite H1, <- app_assoc|].
      split; [now apply sublist_skip|].
      split; [constructor; auto|]. intros Hno.
      destruct H4 as [H4 H5].
      { intros a Ha. apply Hno. apply elem_of_cons. now right. }
      split; [|exact H5]. rewrite filter_cons.
      rewrite decide_True by exact Hne. now rewrite H4.
Qed.

(** A flag that takes a value is never stored as [true]. *)
Lemma parse_args_value_flags (n : nat) : forall args flags urls,
  (length args <= n)%nat ->
  (forall k v, k ∈ Cli.VALUE_FLAGS -> flags !! k = Some v ->
               exists s, v = Cli.Value s) ->
  forall k v, k ∈ Cli.VALUE_FLAGS ->
              (Cli.parse_args args flags urls).1 !! k = Some v ->
              exists s, v = Cli.Value s.
Proof.
  induction n as [|n IH]; intros args flags urls Hlen Hflags.
  - destruct args; [exact Hflags | simpl in Hlen; lia].
  - destruct args as [|arg rest]; [exact Hflags|].
    simpl in Hlen. cbn [Cli.parse_args].
    destruct (truthy arg); cbn [negb]; [|apply IH; [lia | exact Hflags]].
    destruct (Cli.flag_key arg) as [key|]; [|apply IH; [lia | exact Hflags]].
    destruct (bool_decide (key ∈ Cli.VALUE_FLAGS)) eqn:Hkey.
    + assert (Hset : forall x k v, k ∈ Cli.VALUE_FLAGS ->
                <[key := Cli.Value x]> flags !! k = Some v ->
                exists s, v = Cli.Value s).
      { intros x k v Hk Hv.
        apply lookup_insert_Some in Hv as [[_ <-]|[_ Hv]]; eauto. }
      destruct rest as [|x rest'].
      * apply Hset.
      * simpl in Hlen. apply IH; [lia | apply Hset].
    + apply bool_decide_eq_false in Hkey. apply IH; [lia|].
      intros k v Hk Hv.
      apply lookup_insert_Some in Hv as [[<- _]|[_ Hv]]; [contradiction|].
      eauto.
Qed.

Lemma falsy_value v s :
  v = Cli.Value s -> Cli.flag_truthy v = false -> v = Cli.Value EmptyString.
Proof. intros -> H. simpl in H. destruct s; [reflexivity | discriminate]. Qed.

Lemma normalize_short short long flags v :
  Cli.normalize short long flags !! short = Some v ->
  flags !! short = Some v /\ Cli.flag_truthy v = false.
Proof.
  unfold Cli.normalize. destruct (flags !! short) as [f|] eqn:Hf.
  - destruct (Cli.flag_truthy f) eqn:Ht.
    + rewrite lookup_delete_eq. discriminate.
    + rewrite Hf. now intros [= <-].
  - rewrite Hf. discriminate.
Qed.

Lemma normalize_other short long flags k :
  k <> short -> k <> long ->
  Cli.normalize short long flags !! k = flags !! k.
Proof.
  intros H1 H2. unfold Cli.normalize.
  destruct (flags !! short) as [f|]; [|reflexivity].
  destruct (Cli.flag_truthy f); [|reflexivity].
  now rewrite lookup_delete_ne, lookup_insert_ne by congruence.
Qed.

(** X17: what [parseCLI] returns.  The urls are arguments of the command
    line in their order, none of them empty or a flag; when no argument
    starts with a dash they are all the non-empty arguments and no flag
    is set; and a short flag [-c] or [-o] that was given a non-empty
    value is never left under its short name. *)
Theorem parseCLI_urls_and_flags (args : list string) :
  sublist (Cli.parseCLI args).2 args
  /\ Forall (fun u => u <> EmptyString /\ Cli.flag_key u = None)
       (Cli.parseCLI args).2
  /\ ((forall a, a ∈ args -> String.prefix "-" a = false) ->
      (Cli.parseCLI args).2 = filter (fun a => a <> EmptyString) args
      /\ (Cli.parseCLI args).1 = ∅)
  /\ (forall v, (Cli.parseCLI args).1 !! "c" = Some v ->
                v = Cli.Value EmptyString)
  /\ (forall v, (Cli.parseCLI args).1 !! "o" = Some v ->
                v = Cli.Value EmptyString).
Proof.
  unfold Cli.parseCLI.
  destruct (parse_args_urls (length args) args ∅ [] ltac:(lia))
    as (us & H1 & H2 & H3 & H4).
  pose proof (parse_args_value_flags (length args) args ∅ [] ltac:(lia))
    as Hval.
  destruct (Cli.parse_args args ∅ []) as [flags urls] eqn:Hp.
  simpl in *. subst urls.
  specialize (Hval ltac:(intros k v _ H; rewrite lookup_empty in H;
                         discriminate)).
  split; [exact H2|]. split; [exact H3|]. split; [|split].
  - intros Hno. destruct (H4 Hno) as [-> ->]. split; reflexivity.
  - intros v Hv. rewrite normalize_other in Hv by discriminate.
    apply normalize_short in Hv as [Hc Ht].
    destruct (Hval "c" v) as [s Hs]; [apply (bool_decide_unpack _); exact I | exact Hc|].
    exact (falsy_value v s Hs Ht).
  - intros v Hv. apply normalize_short in Hv as [Hc Ht].
    rewrite normalize_other in Hc by discriminate.
    destruct (Hval "o" v) as [s Hs]; [apply (bool_decide_unpack _); exact I | exact Hc|].
    exact (falsy_value v s Hs Ht).
Qed.

(** X16: neither front end starts a stream without urls.  The stream
    endpoint hands [scrapeStream] between 1 and 100 urls, and the command
    line streams only when it has at least two, all the urls it parsed. *)
Theorem front_ends_stream_some_urls :
  (forall body urls cfg,
      handleStream body = Events urls cfg ->
      (1 <= length urls <= 100)%nat /\ cfg = extractJobConfig body)
  /\ (forall args urls,
      Cli.main args = Cli.Stream urls ->
      (2 <= length urls)%nat /\ urls = (Cli.parseCLI args).2).
Proof.
  split.
  - intros body urls cfg. unfold handleStream.
    destruct (check_urls body) as [msg|us] eqn:Hc; [discriminate|].
    intros [= <- <-]. now apply check_urls_bounds in Hc as [_ Hb].
  - intros args urls. unfold Cli.main.
    destruct (_ || _); [discriminate|].
    destruct (Cli.parseCLI args) as [flags us].
    destruct us as [|u1 [|u2 us]]; try discriminate.
    intros [= <-]. simpl. split; [lia | reflexivity].
Qed.

(** X18: the log threshold.  With [LOG_LEVEL] unset, empty or one of the
    four level names, a message is written exactly when its level is at
    least the threshold ([info] by default), so errors are always
    written; with any other value of [LOG_LEVEL] nothing is written, not
    even errors. *)
Theorem log_threshold (LOG_LEVEL : option string) (level : Logger.LogLevel) :
  (forall m, Logger.minLevel LOG_LEVEL = Logger.name m ->
     Logger.shouldLog LOG_LEVEL level
     = match m, level with
       | Logger.Debug, _ => true
       | Logger.Info, Logger.Debug => false
       | Logger.Info, _ => true
       | Logger.Warn, (Logger.Warn | Logger.Error) => true
       | Logger.Warn, _ => false
       | Logger.Error, Logger.Error => true
       | Logger.Error, _ => false
       end)
  /\ ((LOG_LEVEL = None \/ LOG_LEVEL = Some EmptyString) ->
      Logger.minLevel LOG_LEVEL = Logger.name Logger.Info)
  /\ ((forall m, Logger.minLevel LOG_LEVEL <> Logger.name m) ->
      Logger.shouldLog LOG_LEVEL level = false).
Proof.
  split; [|split].
  - intros m Hm. unfold Logger.shouldLog. rewrite Hm.
    destruct m, level; reflexivity.
  - intros [-> | ->]; reflexivity.
  - intros Hno. unfold Logger.shouldLog, Logger.LEVEL_ORDER at 2.
    destruct (String.eqb_spec (Logger.minLevel LOG_LEVEL) "debug") as [E|_];
      [exfalso; exact (Hno Logger.Debug E)|].
    destruct (String.eqb_spec (Logger.minLevel LOG_LEVEL) "info") as [E|_];
      [exfalso; exact (Hno Logger.Info E)|].
    destruct (String.eqb_spec (Logger.minLevel LOG_LEVEL) "warn") as [E|_];
      [exfalso; exact (Hno Logger.Warn E)|].
    destruct (String.eqb_spec (Logger.minLevel LOG_LEVEL) "error") as [E|_];
      [exfalso; exact (Hno Logger.Error E)|].
    destruct (Logger.LEVEL_ORDER _); reflexivity.
Qed.

End FrontEndFacts.

(* ===================================================================== *)
(** ** Further facts on the heuristic, the pool and the throttle *)
(* ===================================================================== *)

Lemma rmatch_lit_head {T : Type} (ci : bool) (a : ascii) (rest : string)
    (r : regex) (s : jsstring) (cap : option jsstring)
    (k : jsstring -> option jsstring -> option T) :
  rmatch (RSeq (lit ci (String a rest)) r) s cap k
  = match s with
    | c :: s' =>
        if (if ci then eq_ci (N_of_ascii a) c else (c =? N_of_ascii a)%N)
        then rmatch (RSeq (lit ci rest) r) s' cap k
        else None
    | [] => None
    end.
Proof. destruct s; reflexivity. Qed.

Lemma eq_ci_lt (c : N) : eq_ci 60 c = (c =? 60)%N.
Proof.
  unfold eq_ci. change (is_lower 60) with false. change (is_upper 60) with false.
  simpl. now rewrite !orb_false_r.
Qed.

(** A pattern that starts with a literal [<] finds nothing in a text
    without that character. *)
Lemma rmatch_without_lt {T : Type} (rest : string) (r : regex) (s : jsstring)
    (cap : option jsstring) (k : jsstring -> option jsstring -> option T) :
  60%N ∉ s ->
  rmatch (RSeq (lit true (String "<" rest)) r) s cap k = None.
Proof.
  intros Hs. rewrite rmatch_lit_head. destruct s as [|c s]; [reflexivity|].
  change (N_of_ascii "<") with 60%N. rewrite eq_ci_lt.
  destruct (N.eqb_spec c 60) as [->|_]; [|reflexivity].
  exfalso. apply Hs. apply elem_of_cons. now left.
Qed.

Lemma test_without_lt (rest : string) (r : regex) (s : jsstring) :
  60%N ∉ s -> test (RSeq (lit true (String "<" rest)) r) s = false.
Proof.
  induction s as [|c s IH]; intros Hs.
  - cbn [test]. now rewrite rmatch_without_lt.
  - cbn [test]. rewrite rmatch_without_lt by exact Hs.
    apply IH. intros Hin. apply Hs. apply elem_of_cons. now right.
Qed.

Lemma exec_without_lt (rest : string) (r : regex) (s : jsstring) :
  60%N ∉ s -> exec (RSeq (lit true (String "<" rest)) r) s = None.
Proof.
  induction s as [|c s IH]; intros Hs.
  - cbn [exec]. now rewrite rmatch_without_lt.
  - cbn [exec]. rewrite rmatch_without_lt by exact Hs.
    apply IH. intros Hin. apply Hs. apply elem_of_cons. now right.
Qed.

(** X19: a document without any [<] never looks like a single-page
    application, however short it is: with no root container and no body
    element to measure, the heuristic answers no (so an empty or plain
    text answer to the request is taken by the fast path). *)
Theorem looksLikeSPA_needs_markup (html : jsstring) :
  60%N ∉ html -> looksLikeSPA html = false.
Proof.
  intros Hs. unfold looksLikeSPA, bodyMatch.
  change re_empty_root with
    (RSeq (lit true (String "<" "div"))
       (RSeq (RPlus (RChar is_space))
       (RSeq (lit true "id=")
       (RSeq (RChar quote)
       (RSeq (RAlt (lit true "root")
             (RAlt (lit true "app")
             (RAlt (lit true "__next") (lit true "__nuxt"))))
       (RSeq (RChar quote)
       (RSeq (RStar true (RChar not_gt))
       (RSeq (lit true ">")
       (RSeq (RStar true (RChar is_space))
             (lit true "</div>")))))))))).
  rewrite test_without_lt by exact Hs.
  change re_body with
    (RSeq (lit true (String "<" "body"))
       (RSeq (RStar true (RChar not_gt))
       (RSeq (lit true ">")
       (RSeq (RGroup (RStar false (RChar any)))
             (lit true "</body>"))))).
  now rewrite exec_without_lt by exact Hs.
Qed.

Lemma looksLikeSPA_needs_markup_witness :
  looksLikeSPA (js "not found") = false.
Proof.
  apply looksLikeSPA_needs_markup. intros Hin.
  apply (bool_decide_pack _) in Hin. vm_compute in Hin. exact Hin.
Defined.

(** X20: the slots of the pool hold distinct contexts.  After any run of
    events from start-up, the entry stored in slot [i] carries the id [i],
    and two slots never hold entries with the same browser context. *)
Theorem pool_slots_hold_distinct_contexts (poolSize now maxUses : Z)
    (evs : list Pool.event) (s : Pool.sys) :
  Pool.run maxUses evs (Pool.boot poolSize now) = Some s ->
  forall i j e1 e2,
    Pool.slot (Pool.pool s) i = Some e1 ->
    Pool.slot (Pool.pool s) j = Some e2 ->
    Pool.id e1 = i /\ (Pool.context e1 = Pool.context e2 -> i = j).
Proof.
  intros Hrun i j e1 e2 H1 H2.
  destruct (boot_inv poolSize now) as [own0 Hinv0].
  destruct (pool_run_inv maxUses evs _ _ own0 Hinv0 Hrun) as [[own Hinv] _].
  unfold Pool.slot in H1, H2.
  destruct (Pool.map_get (Pool.contexts (Pool.pool s)) i) as [r1|] eqn:Hr1;
    [|discriminate].
  destruct (Pool.map_get (Pool.contexts (Pool.pool s)) j) as [r2|] eqn:Hr2;
    [|discriminate].
  destruct (Pool.wf_ctx _ _ _ Hinv i r1 Hr1) as [h1 Hs1].
  destruct (Pool.wf_ctx _ _ _ Hinv j r2 Hr2) as [h2 Hs2].
  pose proof (shape_of_entry _ _ _ H1) as Hs1'.
  pose proof (shape_of_entry _ _ _ H2) as Hs2'.
  split; [congruence|]. intros Hctx.
  assert (r1 = r2).
  { apply (Pool.handle_inj _ _ _ Hinv r1 r2 i j h1); [exact Hs1|].
    congruence. }
  subst r2. congruence.
Qed.

Lemma pool_slots_hold_distinct_contexts_witness :
  Pool.id (Pool.mkEntry 0 true 0 1 0) = 0%nat
  /\ (Pool.context (Pool.mkEntry 0 true 0 1 0)
      = Pool.context (Pool.mkEntry 1 true 0 2 1) -> 0%nat = 1%nat).
Proof.
  apply (pool_slots_hold_distinct_contexts 2 0 50 Samples.busy_run
           (Samples.pool_after 50 Samples.busy_run));
    vm_compute; reflexivity.
Defined.

Section WaitFacts.

Variable hostname : string -> option string.

(** The recorded timestamps never lie ahead of the clock. *)
Lemma throttle_step_past config e s s' :
  (forall h t, Throttle.table s !! h = Some t -> t <= Throttle.clock s) ->
  Throttle.step hostname config e s = Some s' ->
  forall h t, Throttle.table s' !! h = Some t -> t <= Throttle.clock s'.
Proof.
  intros Hpast Hstep h t.
  assert (Hrec : forall h0 now, Throttle.clock s <= now ->
             Throttle.throttleDomain_record (Throttle.table s) h0 now now !! h
             = Some t -> t <= now).
  { intros h0 now Hnow Hl. apply record_lookup_iff in Hl as [Hl _].
    apply lookup_insert_Some in Hl as [[_ <-]|[_ Hl]]; [lia|].
    specialize (Hpast _ _ Hl). lia. }
  destruct e as [c url now | c now]; simpl in Hstep.
  - destruct (now <? Throttle.clock s) eqn:Hclk; [discriminate|].
    apply Z.ltb_ge in Hclk.
    destruct (Throttle.sleeping s !! c); [discriminate|].
    destruct (Throttle.throttleDomain_enter hostname config _ url now);
      injection Hstep as <-; simpl.
    + intros Hl. specialize (Hpast _ _ Hl). lia.
    + now apply Hrec.
    + intros Hl. specialize (Hpast _ _ Hl). lia.
  - destruct (now <? Throttle.clock s) eqn:Hclk; [discriminate|].
    apply Z.ltb_ge in Hclk.
    destruct (Throttle.sleeping s !! c) as [[h0 due]|]; [|discriminate].
    destruct (now <? due); [discriminate|].
    injection Hstep as <-. simpl. now apply Hrec.
Qed.

Lemma throttle_run_past config es : forall s s',
  (forall h t, Throttle.table s !! h = Some t -> t <= Throttle.clock s) ->
  Throttle.run hostname config es s = Some s' ->
  forall h t, Throttle.table s' !! h = Some t -> t <= Throttle.clock s'.
Proof.
  induction es as [|e es IH]; intros s s' Hpast; simpl.
  - now intros [= <-].
  - destruct (Throttle.step hostname config e s) as [s1|] eqn:Hs;
      [|discriminate].
    apply IH. eapply throttle_step_past; eauto.
Qed.

(** X21: a call of [throttleDomain] that has to wait sleeps for more than
    0 and at most [perDomainDelayMs] milliseconds, also when calls
    overlap, as long as the clock never runs backwards. *)
Theorem throttle_wait_is_bounded (config : ScrapeConfig)
    (tbl : gmap string Z) (t0 : Z) (es : list Throttle.event)
    (s s' : Throttle.sys) (c : nat) (url h : string) (now due : Z) :
  (forall h' t, tbl !! h' = Some t -> t <= t0) ->
  Throttle.run hostname config es (Throttle.start tbl t0) = Some s ->
  Throttle.step hostname config (Throttle.Call c url now) s = Some s' ->
  Throttle.sleeping s' !! c = Some (h, due) ->
  now < due <= now + perDomainDelayMs config.
Proof.
  intros Htbl Hrun Hstep Hsl.
  pose proof (throttle_run_past config es (Throttle.start tbl t0) s Htbl Hrun)
    as Hpast.
  simpl in Hstep.
  destruct (now <? Throttle.clock s) eqn:Hclk; [discriminate|].
  apply Z.ltb_ge in Hclk.
  destruct (Throttle.sleeping s !! c) eqn:Hc; [discriminate|].
  unfold Throttle.throttleDomain_enter in Hstep.
  destruct (perDomainDelayMs config <=? 0); [injection Hstep as <-|].
  { simpl in Hsl. congruence. }
  destruct (hostname url) as [h0|]; [|injection Hstep as <-].
  2:{ simpl in Hsl. congruence. }
  destruct (Throttle.table s !! h0) as [last|] eqn:Hlast.
  - destruct (now - last <? perDomainDelayMs config) eqn:Hel;
      injection Hstep as <-; simpl in Hsl.
    + rewrite lookup_insert_eq in Hsl. injection Hsl as <- <-.
      apply Z.ltb_lt in Hel. specialize (Hpast _ _ Hlast). lia.
    + congruence.
  - injection Hstep as <-. simpl in Hsl. congruence.
Qed.

End WaitFacts.

Lemma throttle_wait_is_bounded_witness : 300 < 1000 <= 300 + 1000.
Proof.
  apply (throttle_wait_is_bounded Samples.host_of DEFAULT_CONFIG ∅ 0
           [Throttle.Call 1 "https://a.com/1" 0]
           (Scenarios.overlap_after [Throttle.Call 1 "https://a.com/1" 0])
           (Scenarios.overlap_after
              [Throttle.Call 1 "https://a.com/1" 0;
               Throttle.Call 2 "https://a.com/2" 300])
           2%nat "https://a.com/2" "a.com" 300 1000).
  - intros h' t Ht. rewrite lookup_empty in Ht. discriminate.
  - vm_compute. reflexivity.
  - vm_compute. reflexivity.
  - vm_compute. reflexivity.
Defined.

(* ===================================================================== *)
(** ** Word count and code lines *)
(* ===================================================================== *)

Section ExtractorFacts.

Import Extractor.

(** Induction on a node with the children of an element at hand. *)
Lemma Node_induction (P : Node -> Prop) :
  (forall data, P (TextNode data)) ->
  (forall tag childNodes, Forall P childNodes -> P (Element tag childNodes)) ->
  P OtherNode ->
  forall n, P n.
Proof.
  intros Ht He Ho. fix IH 1. intros [data|tag cs|].
  - apply Ht.
  - apply He. induction cs as [|c cs IHcs]; constructor; [apply IH | exact IHcs].
  - exact Ho.
Qed.

Lemma split_newline_cons (s : jsstring) :
  exists p ps, split_newline s = p :: ps.
Proof.
  destruct s as [|c s]; simpl; [eauto|].
  destruct (c =? 10)%N; [eauto|]. destruct (split_newline s); eauto.
Qed.

Lemma split_newline_clean (s : jsstring) :
  Forall (fun p => 10%N ∉ p) (split_newline s).
Proof.
  induction s as [|c s IH]; simpl.
  - constructor; [apply not_elem_of_nil | constructor].
  - destruct (N.eqb_spec c 10) as [->|Hc].
    + constructor; [apply not_elem_of_nil | exact IH].
    + destruct (split_newline s) as [|p ps].
      * constructor; [|constructor]. intros H.
        apply list_elem_of_singleton in H. congruence.
      * apply Forall_cons in IH as [Hp Hps]. constructor; [|exact Hps].
        intros H. apply elem_of_cons in H as [H|H]; [congruence | auto].
Qed.

Lemma add_parts_clean parts : forall st,
  Forall (fun p => 10%N ∉ p) parts -> clean st -> clean (add_parts parts st).
Proof.
  induction parts as [|p rest IH]; intros st Hp [H1 H2]; [now split|].
  apply Forall_cons in Hp as [Hp Hrest].
  assert (Hcat : 10%N ∉ st.2 ++ p).
  { intros H. apply elem_of_app in H as [H|H]; auto. }
  destruct rest as [|q rest]; [now split|].
  change (add_parts (p :: q :: rest) st)
    with (add_parts (q :: rest) (st.1 ++ [st.2 ++ p], [])).
  apply IH; [exact Hrest|]. split; simpl; [|apply not_elem_of_nil].
  apply Forall_app. split; [exact H1|]. now constructor.
Qed.

Lemma push_clean (st : walker) : clean st -> clean (st.1 ++ [st.2], []).
Proof.
  intros [H1 H2]. split; simpl; [|apply not_elem_of_nil].
  apply Forall_app. split; [exact H1 | now constructor].
Qed.

Lemma walk_clean (n : Node) : forall st, clean st -> clean (walk n st).
Proof.
  induction n as [data|tag cs IH|] using Node_induction; intros st Hst.
  - apply add_parts_clean; [apply split_newline_clean | exact Hst].
  - cbn [walk]. destruct (String.eqb tag "br"); [now apply push_clean|].
    assert (Hall : clean (fold_left (fun st child => walk child st) cs st)).
    { clear -IH Hst. revert st Hst. induction cs as [|c cs IHcs]; intros st Hst.
      - exact Hst.
      - apply Forall_cons in IH as [Hc Hcs]. apply (IHcs Hcs). now apply Hc. }
    destruct (isBlock tag && nonempty _);
      [now apply push_clean | exact Hall].
  - exact Hst.
Qed.

Lemma pop_blank_Forall (P : jsstring -> Prop) (lines : list jsstring) :
  Forall P lines -> Forall P (pop_blank lines).
Proof.
  induction lines as [|l rest IH]; simpl; [auto|].
  intros H. apply Forall_cons in H as [Hl Hrest]. specialize (IH Hrest).
  destruct (pop_blank rest) as [|k kept].
  - destruct (blank l); [constructor | now constructor].
  - now constructor.
Qed.

Lemma pop_blank_last (lines : list jsstring) (l : jsstring) :
  last (pop_blank lines) = Some l -> blank l = false.
Proof.
  induction lines as [|x rest IH]; simpl; [discriminate|].
  destruct (pop_blank rest) as [|k kept].
  - destruct (blank x) eqn:Hx; simpl; [discriminate|]. now intros [= <-].
  - rewrite last_cons_cons. exact IH.
Qed.

(** X22: the lines of a code block.  No line that [extractCodeLines]
    returns contains a newline character, and the list does not end with
    a blank line. *)
Theorem extractCodeLines_lines (node : Node) :
  Forall (fun line => 10%N ∉ line) (extractCodeLines node)
  /\ (forall line, last (extractCodeLines node) = Some line ->
                   blank line = false).
Proof.
  unfold extractCodeLines.
  pose proof (walk_clean node ([], [])) as Hw.
  destruct (walk node ([], [])) as [lines cur].
  destruct Hw as [H1 H2]; [split; [constructor | apply not_elem_of_nil]|].
  simpl in H1, H2. split; [|intros line; apply pop_blank_last].
  apply pop_blank_Forall.
  destruct (nonempty cur); [|exact H1].
  apply Forall_app. split; [exact H1 | now constructor].
Qed.

(** *** A block of text and inline elements *)

Lemma add_parts_two p q rest st :
  add_parts (p :: q :: rest) st
  = add_parts (q :: rest) (st.1 ++ [st.2 ++ p], []).
Proof. reflexivity. Qed.

Lemma add_parts_char c p ps (st : walker) :
  add_parts ((c :: p) :: ps) st = add_parts (p :: ps) (st.1, st.2 ++ [c]).
Proof.
  assert (E : (st.2 ++ [c]) ++ p = st.2 ++ c :: p) by now rewrite <- app_assoc.
  destruct ps as [|q ps].
  - cbn [add_parts fst snd]. now rewrite E.
  - rewrite !add_parts_two. cbn [fst snd]. now rewrite E.
Qed.

Lemma add_parts_app (a b : jsstring) : forall st,
  add_parts (split_newline b) (add_parts (split_newline a) st)
  = add_parts (split_newline (a ++ b)) st.
Proof.
  induction a as [|c a IH]; intros [lines cur].
  - simpl. now rewrite app_nil_r.
  - change ((c :: a) ++ b) with (c :: (a ++ b)). cbn [split_newline].
    destruct (split_newline_cons a) as (p & ps & Ha).
    destruct (split_newline_cons (a ++ b)) as (p' & ps' & Hab).
    destruct (c =? 10)%N.
    + rewrite Ha, Hab, !add_parts_two.
      specialize (IH (lines ++ [cur ++ []], [])). rewrite Ha, Hab in IH.
      exact IH.
    + rewrite Ha, Hab. cbn beta iota. rewrite !add_parts_char.
      specialize (IH (lines, cur ++ [c])). rewrite Ha, Hab in IH. exact IH.
Qed.

Lemma walk_inline (n : Node) : forall st,
  inline n = true -> walk n st = add_parts (split_newline (textContent n)) st.
Proof.
  induction n as [data|tag cs IH|] using Node_induction; intros st Hin.
  - reflexivity.
  - cbn [inline] in Hin. apply andb_true_iff in Hin as [Hblock Hcs].
    apply negb_true_iff in Hblock. cbn [walk textContent].
    assert (Hbr : String.eqb tag "br" = false).
    { unfold isBlock in Hblock. destruct (String.eqb tag "br");
        [now rewrite orb_true_r in Hblock | reflexivity]. }
    rewrite Hbr, Hblock. cbn [andb].
    revert st. induction cs as [|c cs IHcs]; intros st.
    + destruct st as [lines cur]. simpl. now rewrite app_nil_r.
    + cbn [forallb] in Hcs. apply andb_true_iff in Hcs as [Hc Hcs].
      apply Forall_cons in IH as [IHc IH].
      cbn [fold_left map concat].
      rewrite (IHcs IH Hcs), (IHc _ Hc). apply add_parts_app.
  - destruct st as [lines cur]. simpl. now rewrite app_nil_r.
Qed.

Lemma add_parts_view parts : forall st p ps,
  parts = p :: ps ->
  (add_parts parts st).1 ++ [(add_parts parts st).2]
  = st.1 ++ [st.2 ++ p] ++ ps.
Proof.
  induction parts as [|x rest IH]; intros st p ps; [discriminate|].
  intros [= -> ->]. destruct ps as [|q ps]; [reflexivity|].
  rewrite add_parts_two, (IH _ q ps eq_refl). simpl.
  now rewrite <- app_assoc.
Qed.

Lemma blank_nil : blank [] = true.
Proof. reflexivity. Qed.

Lemma pop_blank_snoc (lines : list jsstring) (l : jsstring) :
  blank l = true -> pop_blank (lines ++ [l]) = pop_blank lines.
Proof.
  intros Hl. induction lines as [|x rest IH]; simpl.
  - now rewrite Hl.
  - now rewrite IH.
Qed.

(** X23: for a code block made of text and inline elements (the spans of
    a syntax highlighter), [extractCodeLines] returns the lines of the
    block's text content, without the trailing blank ones. *)
Theorem extractCodeLines_inline (node : Node) :
  inline node = true ->
  extractCodeLines node = pop_blank (split_newline (textContent node)).
Proof.
  intros Hin. unfold extractCodeLines. rewrite (walk_inline node _ Hin).
  destruct (split_newline_cons (textContent node)) as (p & ps & Hs).
  pose proof (add_parts_view _ ([], []) p ps Hs) as Hv.
  destruct (add_parts (split_newline (textContent node)) ([], []))
    as [lines cur].
  assert (E : split_newline (textContent node) = lines ++ [cur]).
  { rewrite Hs. symmetry. exact Hv. }
  rewrite E.
  destruct cur as [|c cur]; simpl nonempty; cbn iota; [|reflexivity].
  now rewrite pop_blank_snoc.
Qed.

(** *** Counting words *)

(** The non-empty pieces of a split. *)
Local Abbreviation pieces s cur b := (List.filter nonempty (split_space s cur b)).

Lemma pieces_space (c : N) (s cur : jsstring) (b : bool) :
  is_space c = true -> (b = true -> cur = []) ->
  pieces (c :: s) cur b
  = (if nonempty cur then [cur] else []) ++ pieces s [] true.
Proof.
  intros Hc Hb. cbn [split_space]. rewrite Hc. destruct b.
  - now rewrite (Hb eq_refl).
  - cbn [List.filter]. now destruct (nonempty cur).
Qed.

Lemma pieces_char (c : N) (s cur : jsstring) (b : bool) :
  is_space c = false -> pieces (c :: s) cur b = pieces s (cur ++ [c]) false.
Proof. intros Hc. cbn [split_space]. now rewrite Hc. Qed.

Lemma pieces_in_sep (s : jsstring) : pieces s [] true = pieces s [] false.
Proof.
  destruct s as [|c s]; [reflexivity|].
  destruct (is_space c) eqn:Hc.
  - now rewrite !pieces_space by (auto; discriminate).
  - now rewrite !pieces_char.
Qed.

Lemma pieces_app (c : N) (v : jsstring) : is_space c = true ->
  forall u cur b, (b = true -> cur = []) ->
  pieces (u ++ c :: v) cur b = pieces u cur b ++ pieces v [] false.
Proof.
  intros Hc. induction u as [|x u IH]; intros cur b Hb.
  - cbn [app]. rewrite pieces_space by assumption.
    rewrite pieces_in_sep. cbn [split_space List.filter].
    now destruct (nonempty cur).
  - cbn [app]. destruct (is_space x) eqn:Hx.
    + rewrite !pieces_space by assumption. rewrite IH by reflexivity.
      now rewrite app_assoc.
    + rewrite !pieces_char by assumption. apply IH. discriminate.
Qed.

Lemma pieces_nil (s : jsstring) : forall cur b, (b = true -> cur = []) ->
  pieces s cur b = [] <-> cur = [] /\ forallb is_space s = true.
Proof.
  induction s as [|c s IH]; intros cur b Hb.
  - cbn [split_space List.filter forallb]. destruct cur; simpl.
    + tauto.
    + split; [discriminate | intros [H _]; discriminate].
  - cbn [forallb]. destruct (is_space c) eqn:Hc.
    + rewrite pieces_space by assumption. cbn [andb].
      destruct cur; cbn [nonempty app].
      * apply IH. reflexivity.
      * split; [discriminate | intros [H _]; discriminate].
    + rewrite pieces_char by assumption. rewrite IH by discriminate.
      cbn [andb]. split; [intros [H _] | intros [_ H]; discriminate].
      now destruct cur.
Qed.

Lemma pieces_word (w : jsstring) : forall cur b,
  forallb (fun c => negb (is_space c)) w = true ->
  split_space w cur b = [cur ++ w].
Proof.
  induction w as [|c w IH]; intros cur b Hw.
  - simpl. now rewrite app_nil_r.
  - cbn [forallb] in Hw. apply andb_true_iff in Hw as [Hc Hw].
    apply negb_true_iff in Hc. cbn [split_space]. rewrite Hc.
    rewrite IH by exact Hw. now rewrite <- app_assoc.
Qed.

Lemma pieces_drop_space (s : jsstring) :
  pieces (drop_space s) [] false = pieces s [] false.
Proof.
  induction s as [|c s IH]; [reflexivity|].
  cbn [drop_space]. destruct (is_space c) eqn:Hc; [|reflexivity].
  rewrite pieces_space by (auto; discriminate).
  now rewrite pieces_in_sep, IH.
Qed.

Lemma pieces_strip_end (t : jsstring) :
  pieces (rev (drop_space (rev t))) [] false = pieces t [] false.
Proof.
  induction t as [|c t IH] using rev_ind; [reflexivity|].
  rewrite rev_unit. cbn [drop_space]. destruct (is_space c) eqn:Hc.
  - rewrite IH. rewrite pieces_app by (auto; discriminate).
    cbn [split_space List.filter nonempty]. now rewrite app_nil_r.
  - cbn [rev]. now rewrite rev_involutive.
Qed.

Lemma countWords_pieces (text : jsstring) :
  countWords text = Z.of_nat (length (pieces text [] false)).
Proof.
  unfold countWords, trim. now rewrite pieces_strip_end, pieces_drop_space.
Qed.

(** X24: [countWords] counts the maximal runs of characters that are not
    white space: the count is 0 exactly for a text of white space only, a
    run without white space counts 1, and the counts of two texts add up
    when a white-space character is put between them. *)
Theorem countWords_counts_runs :
  (forall text, countWords text = 0 <-> forallb is_space text = true)
  /\ (forall w, w <> [] -> forallb (fun c => negb (is_space c)) w = true ->
                countWords w = 1)
  /\ (forall u c v, is_space c = true ->
                    countWords (u ++ c :: v) = countWords u + countWords v).
Proof.
  split; [|split].
  - intros text. rewrite countWords_pieces.
    pose proof (pieces_nil text [] false ltac:(discriminate)) as H.
    destruct (List.filter nonempty (split_space text [] false)); simpl.
    + split; [intros _; now apply H | reflexivity].
    + split; [lia | intros Hs]. destruct H as [_ H].
      discriminate (H (conj eq_refl Hs)).
  - intros w Hne Hw. rewrite countWords_pieces, pieces_word by exact Hw.
    cbn [app List.filter]. now destruct w.
  - intros u c v Hc. rewrite !countWords_pieces.
    rewrite pieces_app by (auto; discriminate). rewrite length_app. lia.
Qed.

End ExtractorFacts.

(* ===================================================================== *)
(** ** The text that [looksLikeSPA] measures holds no tag *)
(* ===================================================================== *)

Section MarkupFacts.

Import Markup.

Lemma rmatch_star_char {T : Type} (cls : N -> bool) (s : jsstring)
    (cap : option jsstring) (k : jsstring -> option jsstring -> option T) :
  rmatch (RStar true (RChar cls)) s cap k
  = star_greedy cls k (length s) s cap.
Proof. reflexivity. Qed.

Lemma star_until_gt {T : Type} (k : jsstring -> option jsstring -> option T)
    (cap : option jsstring) (s : jsstring) : forall fuel,
  (length s <= fuel)%nat ->
  star_greedy not_gt
    (fun s1 cap1 => rmatch (lit false ">") s1 cap1 k) fuel s cap
  = match after_gt s with
    | Some rest => k rest cap
    | None => None
    end.
Proof.
  induction s as [|c s IH]; intros fuel Hfuel.
  - destruct fuel; reflexivity.
  - destruct fuel as [|fuel]; [simpl in Hfuel; lia|].
    cbn [star_greedy after_gt]. unfold not_gt at 1.
    destruct (c =? 62)%N eqn:Hc; cbn [negb].
    + cbn [lit rmatch]. change (N_of_ascii ">") with 62%N. now rewrite Hc.
    + assert (Hlt : (length s <? length (c :: s))%nat = true).
      { apply Nat.ltb_lt. simpl. lia. }
      rewrite Hlt, IH by (simpl in Hfuel; lia).
      destruct (after_gt s) as [rest|]; [destruct (k rest cap); [reflexivity|]|];
        cbn [lit rmatch]; change (N_of_ascii ">") with 62%N; now rewrite Hc.
Qed.

(** What the tag pattern [<[^>]+>] matches at the start of a text. *)
Lemma rmatch_re_tag {T : Type} (s : jsstring)
    (k : jsstring -> option jsstring -> option T) :
  rmatch re_tag s None k
  = match starts_tag s with
    | Some rest => k rest None
    | None => None
    end.
Proof.
  unfold re_tag, starts_tag, RPlus. cbn [lit rmatch].
  change (N_of_ascii "<") with 60%N.
  destruct s as [|c0 [|c1 s2]]; [reflexivity | |].
  - now destruct (c0 =? 60)%N.
  - destruct (c0 =? 60)%N; [|reflexivity]. cbn [andb].
    destruct (not_gt c1); [|reflexivity].
    apply (star_until_gt k None s2 (length s2)). lia.
Qed.

Lemma test_re_tag (s : jsstring) : test re_tag s = negb (tagless s).
Proof.
  induction s as [|c s IH].
  - cbn [test tagless]. now rewrite rmatch_re_tag.
  - cbn [test tagless]. rewrite rmatch_re_tag.
    destruct (starts_tag (c :: s)); [reflexivity | exact IH].
Qed.

Lemma after_gt_split (s rest : jsstring) :
  after_gt s = Some rest ->
  exists pre, s = pre ++ 62%N :: rest.
Proof.
  revert rest. induction s as [|c s IH]; intros rest; [discriminate|].
  cbn [after_gt]. destruct (N.eqb_spec c 62) as [->|_].
  - intros [= <-]. now exists [].
  - intros H. destruct (IH rest H) as [pre ->]. now exists (c :: pre).
Qed.

Lemma after_gt_none (s : jsstring) : after_gt s = None <-> 62%N ∉ s.
Proof.
  induction s as [|c s IH]; cbn [after_gt].
  - split; [intros _; apply not_elem_of_nil | reflexivity].
  - rewrite not_elem_of_cons. destruct (N.eqb_spec c 62) as [->|Hc].
    + split; [discriminate | intros [H _]; congruence].
    + rewrite IH. split; [intros H; split; [congruence | exact H] | tauto].
Qed.

Lemma erase_skip (r : regex) (s : jsstring) : forall n,
  erase r n s = erase r 0 (drop n s).
Proof.
  induction s as [|c s IH]; intros [|n]; try reflexivity.
  cbn [erase drop]. apply IH.
Qed.

Lemma erase_subset (r : regex) (x : N) (s : jsstring) : forall n,
  x ∈ erase r n s -> x ∈ s.
Proof.
  induction s as [|c s IH]; intros n; [now destruct n|].
  destruct n as [|n]; cbn [erase].
  - destruct (rmatch r (c :: s) None _) as [[|m]|]; intros H.
    + apply elem_of_cons in H as [->|H]; apply elem_of_cons; eauto.
    + apply elem_of_cons. right. eauto.
    + apply elem_of_cons in H as [->|H]; apply elem_of_cons; eauto.
  - intros H. apply elem_of_cons. right. eauto.
Qed.

Lemma drop_past (pre : jsstring) (x : N) (rest : jsstring) :
  drop (S (length pre)) (pre ++ x :: rest) = rest.
Proof. induction pre as [|c pre IH]; [reflexivity | exact IH]. Qed.

Lemma starts_tag_without_gt (s : jsstring) :
  62%N ∉ s -> starts_tag s = None.
Proof.
  intros Hs. unfold starts_tag. destruct s as [|c0 [|c1 s2]]; try reflexivity.
  destruct (_ && _); [|reflexivity]. apply after_gt_none.
  intros H. apply Hs. now do 2 (apply elem_of_cons; right).
Qed.

(** A character kept in front of the cleaned rest does not start a tag
    there when it did not start one in the text. *)
Lemma starts_tag_erased (c : N) (s : jsstring) :
  starts_tag (c :: s) = None ->
  starts_tag (c :: erase re_tag 0 s) = None.
Proof.
  intros Htag. destruct (c =? 60)%N eqn:Hc.
  2:{ unfold starts_tag. rewrite Hc. now destruct (erase re_tag 0 s). }
  destruct s as [|c1 s2]; [reflexivity|].
  unfold starts_tag in Htag. rewrite Hc in Htag. cbn [andb] in Htag.
  unfold not_gt in Htag. destruct (c1 =? 62)%N eqn:Hc1; cbn [negb] in Htag.
  - cbn [erase]. rewrite rmatch_re_tag.
    assert (Hno : starts_tag (c1 :: s2) = None).
    { unfold starts_tag. destruct s2; [reflexivity|].
      apply N.eqb_eq in Hc1. subst c1. reflexivity. }
    rewrite Hno. unfold starts_tag. rewrite Hc. unfold not_gt.
    now rewrite Hc1.
  - assert (Hs : 62%N ∉ c1 :: s2).
    { apply not_elem_of_cons. split.
      - intros E. apply N.eqb_neq in Hc1. congruence.
      - now apply after_gt_none. }
    assert (Ho : 62%N ∉ erase re_tag 0 (c1 :: s2)).
    { intros H. apply Hs. exact (erase_subset _ _ _ _ H). }
    unfold starts_tag. destruct (erase re_tag 0 (c1 :: s2)) as [|d1 o2];
      [reflexivity|].
    destruct (_ && _); [|reflexivity]. apply after_gt_none.
    intros H. apply Ho. apply elem_of_cons. now right.
Qed.

(** Removing every tag leaves no tag behind. *)
Lemma erase_tagless (n : nat) : forall s,
  (length s <= n)%nat -> tagless (erase re_tag 0 s) = true.
Proof.
  induction n as [|n IH]; intros s Hlen.
  - destruct s; [reflexivity | simpl in Hlen; lia].
  - destruct s as [|c s]; [reflexivity|]. simpl in Hlen.
    cbn [erase]. rewrite rmatch_re_tag.
    destruct (starts_tag (c :: s)) as [rest|] eqn:Htag.
    + (* a tag starts here: it is skipped *)
      unfold starts_tag in Htag. destruct s as [|c1 s2]; [discriminate|].
      destruct ((c =? 60)%N && not_gt c1); [|discriminate].
      destruct (after_gt_split _ _ Htag) as [pre ->].
      assert (Hm : (length (c :: c1 :: pre ++ 62%N :: rest) - length rest
                    = S (S (S (length pre))))%nat).
      { simpl. rewrite length_app. simpl. lia. }
      rewrite Hm, erase_skip.
      change (drop (S (S (length pre))) (c1 :: pre ++ 62%N :: rest))
        with (drop (S (length pre)) (pre ++ 62%N :: rest)).
      rewrite drop_past. apply IH.
      simpl in Hlen. rewrite length_app in Hlen. simpl in Hlen. lia.
    + (* the character is kept *)
      pose proof (IH s ltac:(lia)) as Hrest.
      pose proof (starts_tag_erased c s Htag) as Hhere.
      cbn [tagless]. now rewrite Hhere.
Qed.

Lemma tagless_tail (c : N) (s : jsstring) :
  tagless (c :: s) = true -> tagless s = true.
Proof. cbn [tagless]. now destruct (starts_tag (c :: s)). Qed.

Lemma tagless_drop_space (s : jsstring) :
  tagless s = true -> tagless (drop_space s) = true.
Proof.
  induction s as [|c s IH]; [auto|]. intros H. cbn [drop_space].
  destruct (is_space c); [|exact H]. apply IH. exact (tagless_tail _ _ H).
Qed.

Lemma after_gt_snoc (s : jsstring) (c : N) :
  after_gt s <> None -> after_gt (s ++ [c]) <> None.
Proof.
  induction s as [|x s IH]; [intros H; now contradiction H|].
  cbn [app after_gt]. destruct (x =? 62)%N; [discriminate | exact IH].
Qed.

Lemma starts_tag_snoc (s : jsstring) (c : N) :
  starts_tag s <> None -> starts_tag (s ++ [c]) <> None.
Proof.
  unfold starts_tag.
  destruct s as [|c0 [|c1 s2]]; try (intros H; now contradiction H).
  cbn [app]. destruct (_ && _); [apply after_gt_snoc|].
  intros H; now contradiction H.
Qed.

Lemma tagless_init (s : jsstring) (c : N) :
  tagless (s ++ [c]) = true -> tagless s = true.
Proof.
  induction s as [|x s IH]; [reflexivity|]. cbn [app tagless].
  destruct (starts_tag (x :: s ++ [c])) eqn:Hfull; [discriminate|].
  intros H. destruct (starts_tag (x :: s)) eqn:Hpart; [|auto].
  exfalso. apply (starts_tag_snoc (x :: s) c); [congruence | exact Hfull].
Qed.

Lemma tagless_strip_end (t : jsstring) :
  tagless t = true -> tagless (rev (drop_space (rev t))) = true.
Proof.
  induction t as [|c t IH] using rev_ind; [auto|]. intros H.
  rewrite rev_unit. cbn [drop_space]. destruct (is_space c).
  - apply IH. exact (tagless_init _ _ H).
  - cbn [rev]. now rewrite rev_involutive.
Qed.

(** X25: the text that [looksLikeSPA] measures holds no tag.  After the
    three replacements and the trim, the tag pattern finds nothing in the
    body text (and the last replacement alone leaves nothing for itself
    to find). *)
Theorem stripped_text_has_no_tag (s : jsstring) :
  test re_tag (strip_markup s) = false
  /\ test re_tag (erase re_tag 0 s) = false.
Proof.
  rewrite !test_re_tag. unfold strip_markup, trim. split.
  - rewrite tagless_strip_end; [reflexivity|].
    apply tagless_drop_space.
    now apply (erase_tagless
                 (length (erase re_style 0 (erase re_script 0 s)))).
  - now rewrite (erase_tagless (length s)).
Qed.

End MarkupFacts.

(* ===================================================================== *)
(** ** Resource blocking, and batches under any settling order *)
(* ===================================================================== *)

Lemma prefix_app (a s t : string) :
  String.prefix a s = true -> String.prefix a (s ++ t) = true.
Proof.
  revert s. induction a as [|x a IH]; intros s H.
  { now destruct (s ++ t)%string. }
  destruct s as [|y s]; [discriminate|]. simpl in *.
  destruct (Ascii.ascii_dec x y); [now apply IH | discriminate].
Qed.

Lemma includes_nil (t : string) : includes EmptyString t = true.
Proof. destruct t; reflexivity. Qed.

Lemma includes_app_r (a s t : string) :
  includes a s = true -> includes a (s ++ t) = true.
Proof.
  induction s as [|y s IH]; intros H.
  - destruct a as [|x a]; [apply includes_nil | discriminate].
  - cbn [includes] in H. change (String y s ++ t)%string
      with (String y (s ++ t)). cbn [includes].
    destruct (String.prefix a (String y s)) eqn:Hp.
    + change (String y (s ++ t)) with (String y s ++ t)%string.
      now rewrite (prefix_app _ _ t Hp).
    + rewrite (IH H).
      match goal with |- (if ?c then _ else _) = _ => now destruct c end.
Qed.

Lemma includes_app_l (a p s : string) :
  includes a s = true -> includes a (p ++ s) = true.
Proof.
  intros H. induction p as [|y p IH]; [exact H|].
  change (String y p ++ s)%string with (String y (p ++ s)). cbn [includes].
  rewrite IH.
  match goal with |- (if ?c then _ else _) = _ => now destruct c end.
Qed.

(** X26: blocking goes by substring.  A request is aborted exactly when
    the pool was configured with [blockResources] and its resource type is
    one of [blockedResourceTypes] or its url contains one of the blocked
    domain strings anywhere; so a request that is aborted stays aborted
    when its url is embedded in a longer one. *)
Theorem blocking_goes_by_substring (config : ScrapeConfig)
    (resourceType url : string) :
  (Routing.request_verdict config resourceType url = Routing.Abort
   <-> blockResources config = true
       /\ (In resourceType (blockedResourceTypes config)
           \/ exists domain, In domain Routing.BLOCKED_DOMAINS
                             /\ includes domain url = true))
  /\ (forall before after,
        Routing.request_verdict config resourceType url = Routing.Abort ->
        Routing.request_verdict config resourceType
          (before ++ url ++ after) = Routing.Abort).
Proof.
  assert (Hiff : forall u,
    Routing.request_verdict config resourceType u = Routing.Abort
    <-> blockResources config = true
        /\ (In resourceType (blockedResourceTypes config)
            \/ exists domain, In domain Routing.BLOCKED_DOMAINS
                              /\ includes domain u = true)).
  { intros u. unfold Routing.request_verdict, Routing.route_handler.
    destruct (blockResources config);
      [|split; [discriminate | intros [H _]; discriminate]].
    destruct (existsb (String.eqb resourceType) _) eqn:Hty.
    - apply existsb_exists in Hty as (x & Hx & Heq).
      apply String.eqb_eq in Heq. subst x. tauto.
    - destruct (existsb (fun domain => includes domain u) _) eqn:Hd.
      + apply existsb_exists in Hd. tauto.
      + split; [discriminate|]. intros [_ [Hin|Hex]].
        * assert (existsb (String.eqb resourceType)
                    (blockedResourceTypes config) = true); [|congruence].
          apply existsb_exists. exists resourceType.
          split; [exact Hin | apply String.eqb_refl].
        * assert (existsb (fun domain => includes domain u)
                    Routing.BLOCKED_DOMAINS = true); [|congruence].
          now apply existsb_exists. }
  split; [apply Hiff|]. intros before after H.
  apply Hiff in H as [Hb H]. apply Hiff. split; [exact Hb|].
  destruct H as [H|(d & Hd & Hinc)]; [now left|]. right. exists d.
  split; [exact Hd|]. now apply includes_app_l, includes_app_r.
Qed.

(** X27: a batch does not depend on the order in which its jobs settle.
    Once the scraper is initialised, [scrapeMany] resolves to the same
    array for every settling order: entry [i] is what job [i] returned,
    or the fallback result built from its rejection reason. *)
Theorem scrapeMany_ignores_settling_order
    (rt : Runtime) (self self' : Scraper) (launch : outcome unit)
    (newJobId : nat -> string) (urls : list string)
    (cfg : option PartialConfig) (envs : list Env) (order : list nat) :
  initialize self launch = Ok self' ->
  length envs = length urls ->
  order ≡ₚ seq 0 (length urls) ->
  scrapeMany rt self launch newJobId urls cfg envs order
  = Some (Ok (imap (batch_result rt newJobId (batch_jobs newJobId urls cfg))
                (zip_with (fun job env => settle (processJob rt self' job env))
                   (batch_jobs newJobId urls cfg) envs))).
Proof.
  intros Hinit Hlen Hperm. unfold scrapeMany. rewrite Hinit.
  set (jobs := batch_jobs newJobId urls cfg).
  set (promises := zip_with _ jobs envs).
  assert (Hjobs : length jobs = length urls) by apply length_imap.
  assert (Hprom : length promises = length urls).
  { unfold promises. rewrite length_zip_with_l_eq; [exact Hjobs | lia]. }
  rewrite Hjobs, <- Hprom.
  now rewrite allSettled_complete by (now rewrite Hprom).
Qed.

Lemma scrapeMany_ignores_settling_order_witness :
  scrapeMany Samples.rt_ok Samples.scraper0 (Ok tt) Samples.ids
    Scenarios.two_urls None Scenarios.two_envs [1; 0]%nat
  = Some (Ok (imap (batch_result Samples.rt_ok Samples.ids
                      (batch_jobs Samples.ids Scenarios.two_urls None))
                (zip_with
                   (fun job env =>
                      settle (processJob Samples.rt_ok Samples.scraper0 job env))
                   (batch_jobs Samples.ids Scenarios.two_urls None)
                   Scenarios.two_envs))).
Proof.
  apply (scrapeMany_ignores_settling_order Samples.rt_ok Samples.scraper0
           Samples.scraper0 (Ok tt)).
  - reflexivity.
  - reflexivity.
  - vm_compute. apply perm_swap.
Defined.

(* ===================================================================== *)
(** ** The further properties at sample runs *)
(* ===================================================================== *)



Lemma pool_never_waits_while_idle_witness :
  Pool.available (Pool.pool (Samples.pool_after 50 Scenarios.waiting_run)) = []
  \/ Pool.waiters (Pool.pool (Samples.pool_after 50 Scenarios.waiting_run))
     = [].
Proof.
  apply (pool_never_waits_while_idle 2 0 50 Scenarios.waiting_run
           (Samples.pool_after 50 Scenarios.waiting_run)).
  vm_compute. reflexivity.
Defined.

Lemma pool_waiters_fifo_witness :
  Pool.waiters (Pool.pool (Samples.pool_after 50 Samples.busy_run))
  = Pool.waiters (Pool.pool (Samples.pool_after 50 Scenarios.waiting_run))
  \/ (exists t, Pool.Release 1 = Pool.Acquire t
        /\ Pool.available
             (Pool.pool (Samples.pool_after 50 Scenarios.waiting_run)) = []
        /\ Pool.waiters (Pool.pool (Samples.pool_after 50 Samples.busy_run))
           = Pool.waiters
               (Pool.pool (Samples.pool_after 50 Scenarios.waiting_run))
             ++ [t]
        /\ Pool.tasks (Samples.pool_after 50 Samples.busy_run) !! t
           = Some Pool.Waiting)
  \/ (exists w ctx,
        Pool.waiters (Pool.pool (Samples.pool_after 50 Scenarios.waiting_run))
        = w :: Pool.waiters
                 (Pool.pool (Samples.pool_after 50 Samples.busy_run))
        /\ Pool.tasks (Samples.pool_after 50 Samples.busy_run) !! w
           = Some (Pool.Holding ctx)).
Proof.
  apply (pool_waiters_fifo 50 (Pool.Release 1)
           (Samples.pool_after 50 Scenarios.waiting_run)
           (Samples.pool_after 50 Samples.busy_run)).
  vm_compute. reflexivity.
Defined.

Lemma pool_use_count_bounded_witness :
  (forall t ctx,
     Pool.tasks (Samples.pool_after 50 Samples.busy_run) !! t
     = Some (Pool.Holding ctx) ->
     exists e,
       Pool.slot (Pool.pool (Samples.pool_after 50 Samples.busy_run))
         (Pool.id e) = Some e
       /\ Pool.context e = ctx /\ Pool.busy e = true
       /\ 1 <= Pool.useCount e /\ (0 < 50 -> Pool.useCount e <= 50))
  /\ (forall r,
     r ∈ Pool.available (Pool.pool (Samples.pool_after 50 Samples.busy_run)) ->
     exists e,
       Pool.objs (Pool.pool (Samples.pool_after 50 Samples.busy_run)) !! r
       = Some e
       /\ Pool.busy e = false /\ 0 <= Pool.useCount e
       /\ (0 < 50 -> Pool.useCount e < 50)).
Proof.
  apply (pool_use_count_bounded 2 0 50 Samples.busy_run
           (Samples.pool_after 50 Samples.busy_run)).
  vm_compute. reflexivity.
Defined.

Lemma stream_yields_in_completion_order_witness :
  Stream.yielded (Scenarios.stream_after Scenarios.stream_run)
  ++ Stream.results (Scenarios.stream_after Scenarios.stream_run)
  = omap (Channel.pushed Samples.rt_ok Scenarios.two_jobs Scenarios.two_outs)
      Scenarios.stream_run.
Proof.
  apply (stream_yields_in_completion_order Samples.rt_ok Scenarios.two_jobs
           Scenarios.two_outs Scenarios.two_urls Scenarios.stream_run).
  vm_compute. reflexivity.
Defined.

Lemma scrapeStream_delivers_witness :
  Z.of_nat (length Scenarios.stream_run)
  <= 12 * Z.of_nat (length Scenarios.two_urls) + 1
  /\ (Stream.quiescent Samples.rt_ok
        (Stream.stream_jobs Samples.ids Scenarios.two_urls None)
        (Stream.stream_outs Samples.rt_ok Samples.scraper0
           (Stream.stream_jobs Samples.ids Scenarios.two_urls None)
           Scenarios.two_envs)
        (Scenarios.stream_after Scenarios.stream_run) ->
      Stream.gen (Scenarios.stream_after Scenarios.stream_run)
      = Stream.Returned
      /\ length (Stream.yielded (Scenarios.stream_after Scenarios.stream_run))
         = length Scenarios.two_urls
      /\ res_url <$> Stream.yielded
                       (Scenarios.stream_after Scenarios.stream_run)
         ≡ₚ Scenarios.two_urls).
Proof.
  apply (scrapeStream_delivers Samples.rt_ok Samples.scraper0 Samples.ids
           Scenarios.two_urls None Scenarios.two_envs Scenarios.stream_run
           (Scenarios.stream_after Scenarios.stream_run)).
  - vm_compute. lia.
  - reflexivity.
  - vm_compute. reflexivity.
Defined.

Lemma batch_summary_counts_witness :
  exists urls results,
    Server.b_urls Scenarios.batch_body = Some urls
    /\ (1 <= length urls <= 100)%nat
    /\ Ok Scenarios.batch_results = Ok results
    /\ 2 = Z.of_nat (length results)
    /\ 1 + 1 = 2
    /\ 1 = Z.of_nat
             (length (filter (fun r => Types.error r <> None
                                       /\ Types.error r <> Some EmptyString)
                        results)).
Proof.
  apply (batch_summary_counts Scenarios.batch_body
           (fun _ _ => Ok Scenarios.batch_results) 2 1 1).
  vm_compute. reflexivity.
Defined.

Lemma extractCodeLines_inline_witness :
  Extractor.extractCodeLines Scenarios.code_block
  = Extractor.pop_blank
      (Extractor.split_newline (Extractor.textContent Scenarios.code_block)).
Proof. apply extractCodeLines_inline. reflexivity. Defined.

